(** * Spectral normalisation and Laplace random-feature covariance

    A shallow embedding of [edward_utils.py]: the spectral-normalisation
    wrapper of a Conv2D layer ([SpectralNormalizationConv2D]), the
    orthogonal random-feature initialiser ([OrthogonalRandomFeatures]), the
    random-feature Gaussian process head ([RandomFeatureGaussianProcess])
    and its Laplace covariance estimator
    ([LaplaceRandomFeatureCovariance]).

    Numbers are real numbers: [tf.float32] arithmetic is idealised, and
    rounding, infinities and NaN are outside the model.  The one division by
    zero that decides a branch, in [update_weights], is modelled with the
    infinite or NaN quotient of the code.  TensorFlow runs eagerly, so an
    [assign] takes effect where it is written and an exception leaves a
    method at the operation that raises it.  *)

From Stdlib Require Import Reals Lra Lia List String Bool Arith.
Import ListNotations.
Open Scope R_scope.

(** ** Python exceptions *)

Module Py.

Inductive exn : Type :=
| ValueError (msg : string)
| IndexError
| InvalidArgumentError (msg : string).

(** The outcome of a Python call: a value, or a raised exception. *)
Inductive result (A : Type) : Type :=
| Ok (a : A)
| Raise (e : exn).

Arguments Ok {A} a.
Arguments Raise {A} e.

Definition bind {A B : Type} (m : result A) (f : A -> result B) : result B :=
  match m with
  | Ok a => f a
  | Raise e => Raise e
  end.

End Py.
Export Py.

Declare Scope py_scope.
Delimit Scope py_scope with py.
Notation "x <- m ;; k" := (bind m (fun x => k))
  (at level 61, m at next level, right associativity) : py_scope.

(** ** Tensors as flat buffers

    The spectral-normalisation code only reshapes its tensors to a row
    ([tf.reshape(x, [1, -1])]) and back, so a tensor is its row-major buffer. *)

Module Tensor.

Definition tensor : Type := list R.

Definition reduce_sum (x : tensor) : R := fold_right Rplus 0 x.

Definition sum_squares (x : tensor) : R := reduce_sum (map (fun a => a * a) x).

(** The L2 norm of the flattened tensor. *)
Definition l2_norm (x : tensor) : R := sqrt (sum_squares x).

(** [tf.nn.l2_normalize(x)] with its default [epsilon=1e-12]:
    [x * rsqrt(max(sum(x**2), epsilon))]. *)
Definition l2_epsilon : R := 1e-12.

Definition l2_normalize (x : tensor) : tensor :=
  map (fun a => a * / sqrt (Rmax (sum_squares x) l2_epsilon)) x.

(** [tf.matmul(tf.reshape(x, [1, -1]), tf.reshape(y, [-1, 1]))] reshaped to
    a scalar. *)
Definition dot (x y : tensor) : R :=
  reduce_sum (map (fun p => fst p * snd p) (combine x y)).

(** A scalar times a tensor. *)
Definition scale (s : R) (x : tensor) : tensor := map (Rmult s) x.

End Tensor.
Export Tensor.

(** ** The convolution primitives of the host framework

    [tf.nn.conv2d], [tf.nn.conv2d_transpose] and the forward pass of the
    wrapped Keras layer are black boxes; strides, padding and output shape
    are fixed when the layer is built. *)

Class ConvBackend : Type := {
  (** [tf.nn.conv2d(input, kernel, strides, padding)] *)
  conv2d : tensor -> tensor -> tensor;
  (** [tf.nn.conv2d_transpose(input, kernel, output_shape, strides, padding)] *)
  conv2d_transpose : tensor -> tensor -> tensor;
  (** [layer(inputs)] of the wrapped layer, given the value of its kernel *)
  layer_call : tensor -> tensor -> tensor
}.

(** ** TensorFlow variables

    A [tf.Variable] is a reference into a store; two Python attributes that
    hold the same variable alias one cell. *)

Module Store.

Definition var : Type := nat.

Record store : Type := mkStore {
  cells : var -> tensor;
  next_var : var
}.

Definition empty : store := {| cells := fun _ => []; next_var := 0%nat |}.

Definition read (s : store) (x : var) : tensor := cells s x.

(** [x.assign(t)] *)
Definition assign (s : store) (x : var) (t : tensor) : store :=
  {| cells := fun y => if Nat.eqb y x then t else cells s y;
     next_var := next_var s |}.

(** [add_weight(...)]: a fresh variable holding its initial value. *)
Definition add_weight (s : store) (init : tensor) : store * var :=
  ({| cells := fun y => if Nat.eqb y (next_var s) then init else cells s y;
      next_var := S (next_var s) |},
   next_var s).

End Store.
Export Store.

(** ** SpectralNormalizationConv2D *)

Module SpectralNorm.

Inductive layer_class : Type := Conv2D | Dense | OtherLayer.

(** The Keras layer object handed to the wrapper. *)
Record KerasLayer : Type := mkLayer {
  layer_cls : layer_class;
  _name : string
}.

(** [isinstance(layer, tf.keras.layers.Conv2D)] *)
Definition isinstance_Conv2D (l : KerasLayer) : bool :=
  match layer_cls l with
  | Conv2D => true
  | _ => false
  end.

(** The wrapper after [__init__]. *)
Record SpectralNormalizationConv2D : Type := mkWrapper {
  iteration : nat;
  do_power_iteration : bool;
  norm_multiplier : R;
  legacy_mode : bool;
  layer : KerasLayer
}.

(** [__init__(layer, iteration, norm_multiplier, training, legacy_mode)].
    The first component is the caller's layer object after the call: the
    constructor appends to its name before the class of the layer is
    checked. *)
Definition init (layer0 : KerasLayer) (iteration0 : nat) (norm_multiplier0 : R)
    (training : bool) (legacy_mode0 : bool)
  : KerasLayer * result SpectralNormalizationConv2D :=
  let layer1 :=
    {| layer_cls := layer_cls layer0;
       _name := (_name layer0 ++ "_spec_norm")%string |} in
  if negb (isinstance_Conv2D layer1) then
    (layer1, Raise (ValueError "layer must be a `tf.keras.layer.Conv2D` instance."))
  else
    (layer1,
     Ok {| iteration := iteration0;
           do_power_iteration := training;
           norm_multiplier := norm_multiplier0;
           legacy_mode := legacy_mode0;
           layer := layer1 |}).

(** The wrapper after [build]: the variables its attributes refer to.
    [layer_kernel] is [self.layer.kernel], [w] is [self.w]. *)
Record Built : Type := mkBuilt {
  self : SpectralNormalizationConv2D;
  layer_kernel : var;
  w : var;
  v : var;
  u : var
}.

(** [build(input_shape)]: [self.layer.build] creates the kernel,
    [self.w = self.layer.kernel] takes a second reference to it, and [v] and
    [u] are fresh variables.  [kernel0], [v0] and [u0] are the values drawn
    by the initialisers; the shapes [in_shape] and [out_shape] that [build]
    resolves only size these buffers. *)
Definition build (s : store) (self0 : SpectralNormalizationConv2D)
    (kernel0 v0 u0 : tensor) : store * Built :=
  let '(s1, k) := add_weight s kernel0 in
  let w0 := k in
  let '(s2, xv) := add_weight s1 v0 in
  let '(s3, xu) := add_weight s2 u0 in
  (s3, {| self := self0; layer_kernel := k; w := w0; v := xv; u := xu |}).

(** The references of a wrapper as [build] leaves them: [self.w] and
    [self.layer.kernel] are one variable, [u] and [v] are two others. *)
Definition references_as_built (b : Built) : Prop :=
  w b = layer_kernel b /\ v b <> layer_kernel b /\ u b <> layer_kernel b /\
  u b <> v b.

(** A tensor that is not all zero. *)
Definition nonzero (x : tensor) : Prop := exists a, In a x /\ a <> 0.

(** [(self.norm_multiplier / sigma) < 1], the predicate of [tf.cond] in
    [update_weights].  The division of a float by the tensor [sigma] does not
    raise when [sigma] is zero: the quotient is then [+inf] for a positive
    multiplier, NaN for the multiplier 0 and [-inf] for a negative one, and
    of these only [-inf] is below 1.  For a non-zero [sigma] the quotient is
    the real quotient. *)
Definition quotient_lt_1 (c sigma : R) : bool :=
  if Req_EM_T sigma 0 then
    if Rlt_dec c 0 then true else false
  else
    if Rlt_dec (c / sigma) 1 then true else false.

Section WithBackend.
Context {backend : ConvBackend}.

(** One pass of the loop body of [update_weights]. *)
Definition power_step (W : tensor) (uv : tensor * tensor) : tensor * tensor :=
  let v_ := conv2d_transpose (fst uv) W in
  let v_hat := l2_normalize v_ in
  let u_ := conv2d v_hat W in
  let u_hat := l2_normalize u_ in
  (u_hat, v_hat).

(** [for _ in range(n)] over the loop body. *)
Fixpoint power_iteration (n : nat) (W : tensor) (uv : tensor * tensor)
  : tensor * tensor :=
  match n with
  | O => uv
  | S n' => power_iteration n' W (power_step W uv)
  end.

(** [(u_hat, v_hat)] when the loop of [update_weights] is left. *)
Definition estimate_uv (b : Built) (s : store) : tensor * tensor :=
  let u_hat := read s (u b) in
  let v_hat := read s (v b) in
  if do_power_iteration (self b) then
    power_iteration (iteration (self b)) (read s (w b)) (u_hat, v_hat)
  else (u_hat, v_hat).

(** [sigma] of [update_weights]. *)
Definition sigma_of (b : Built) (s : store) : R :=
  let '(u_hat, v_hat) := estimate_uv b s in
  let v_w_hat := conv2d v_hat (read s (w b)) in
  dot v_w_hat u_hat.

(** [update_weights()]: the three assignments, in program order.  [tf.cond]
    runs the branch that [quotient_lt_1] selects.  The first branch is taken
    with a real quotient whenever [sigma] is not zero; with [sigma = 0] it is
    taken for a negative multiplier only, where the code multiplies the
    kernel by [-inf] and the kernel it assigns is not a tensor of real
    numbers: the value of the model in that one case stands for no value of
    the code. *)
Definition update_weights (b : Built) (s : store) : store :=
  let '(u_hat, v_hat) := estimate_uv b s in
  let v_w_hat := conv2d v_hat (read s (w b)) in
  let sigma := dot v_w_hat u_hat in
  let s1 := assign s (u b) u_hat in
  let s2 := assign s1 (v b) v_hat in
  let w_norm :=
    if quotient_lt_1 (norm_multiplier (self b)) sigma
    then scale (norm_multiplier (self b) / sigma) (read s2 (w b))
    else read s2 (w b) in
  assign s2 (layer_kernel b) w_norm.

(** [restore_weights()]: [self.layer.kernel.assign(self.w)]. *)
Definition restore_weights (b : Built) (s : store) : store :=
  assign s (layer_kernel b) (read s (w b)).

(** [call(inputs)]: the store after the call and the output. *)
Definition call (b : Built) (s : store) (inputs : tensor) : store * tensor :=
  let s1 := update_weights b s in
  let output := layer_call (read s1 (layer_kernel b)) inputs in
  let s2 := restore_weights b s1 in
  (s2, output).

(** The kernel the wrapped layer reads during [call]. *)
Definition kernel_used (b : Built) (s : store) : tensor :=
  read (update_weights b s) (layer_kernel b).

End WithBackend.

End SpectralNorm.

(** ** A concrete backend: 1x1 convolution of a 1x1 image

    With a kernel of shape (1, 1, ci, co), stride 1 and a 1x1 input the
    convolution is [out[o] = sum_i x[i] * W[0,0,i,o]] and its transpose is
    [in[i] = sum_o y[o] * W[0,0,i,o]]; the kernel buffer is row-major, so
    [W[0,0,i,o]] is at index [i * co + o]. *)

Module Pointwise.

Definition pw_conv2d (ci co : nat) (x W : tensor) : tensor :=
  map (fun o =>
         reduce_sum (map (fun i => nth i x 0 * nth (i * co + o) W 0) (seq 0 ci)))
      (seq 0 co).

Definition pw_conv2d_transpose (ci co : nat) (y W : tensor) : tensor :=
  map (fun i =>
         reduce_sum (map (fun o => nth o y 0 * nth (i * co + o) W 0) (seq 0 co)))
      (seq 0 ci).

(** A bias-free Conv2D without activation, as in the module's own example. *)
Definition backend (ci co : nat) : ConvBackend :=
  {| conv2d := pw_conv2d ci co;
     conv2d_transpose := pw_conv2d_transpose ci co;
     layer_call := fun kernel inputs => pw_conv2d ci co inputs kernel |}.

End Pointwise.

(** ** Rank-2 tensors

    A matrix carries its run-time shape and its entries; entries outside the
    shape are never read by the operations below. *)

Module Matrix.

Record matrix : Type := mkMatrix {
  nrows : nat;
  ncols : nat;
  entry : nat -> nat -> R
}.

Definition shape (A : matrix) : nat * nat := (nrows A, ncols A).

Definition shape_eqb (s t : nat * nat) : bool :=
  Nat.eqb (fst s) (fst t) && Nat.eqb (snd s) (snd t).

(** Two tensors are equal when they have the same shape and the same entries
    inside it. *)
Definition mat_eq (A B : matrix) : Prop :=
  nrows A = nrows B /\ ncols A = ncols B /\
  forall i j, (i < nrows A)%nat -> (j < ncols A)%nat -> entry A i j = entry B i j.

(** [f 0 + ... + f (n - 1)] *)
Fixpoint sum_n (n : nat) (f : nat -> R) : R :=
  match n with
  | O => 0
  | S k => sum_n k f + f k
  end.

Definition zeros (r c : nat) : matrix :=
  {| nrows := r; ncols := c; entry := fun _ _ => 0 |}.

(** [tf.eye(n)] *)
Definition eye (n : nat) : matrix :=
  {| nrows := n; ncols := n; entry := fun i j => if Nat.eqb i j then 1 else 0 |}.

Definition transpose (A : matrix) : matrix :=
  {| nrows := ncols A; ncols := nrows A; entry := fun i j => entry A j i |}.

(** An elementwise unary operation ([tf.sqrt], [tf.exp], [tf.sigmoid]). *)
Definition map_entries (f : R -> R) (A : matrix) : matrix :=
  {| nrows := nrows A; ncols := ncols A; entry := fun i j => f (entry A i j) |}.

(** [r * A] for a Python float [r]. *)
Definition scalar_mul (r : R) (A : matrix) : matrix := map_entries (Rmult r) A.

(** [A * r] for a Python float [r]. *)
Definition mul_scalar (A : matrix) (r : R) : matrix :=
  map_entries (fun a => a * r) A.

(** [A / r] for a scalar tensor [r]. *)
Definition div_scalar (A : matrix) (r : R) : matrix :=
  map_entries (fun a => a / r) A.

(** Broadcasting of one dimension: equal sizes, or one of them is 1. *)
Definition broadcast_dim (a b : nat) : option nat :=
  if Nat.eqb a b then Some a
  else if Nat.eqb a 1 then Some b
  else if Nat.eqb b 1 then Some a
  else None.

(** The index read in a dimension of size [dim] for the output index [i]. *)
Definition broadcast_index (dim i : nat) : nat :=
  if Nat.eqb dim 1 then 0%nat else i.

(** An elementwise binary operation on two rank-2 tensors, with
    broadcasting; incompatible shapes raise. *)
Definition broadcast2 (op : R -> R -> R) (A B : matrix) : result matrix :=
  match broadcast_dim (nrows A) (nrows B), broadcast_dim (ncols A) (ncols B) with
  | Some r, Some c =>
      Ok {| nrows := r; ncols := c;
            entry := fun i j =>
              op (entry A (broadcast_index (nrows A) i) (broadcast_index (ncols A) j))
                 (entry B (broadcast_index (nrows B) i) (broadcast_index (ncols B) j)) |}
  | _, _ => Raise (InvalidArgumentError "Incompatible shapes")
  end.

(** [tf.matmul(A, B)] *)
Definition matmul (A B : matrix) : result matrix :=
  if Nat.eqb (ncols A) (nrows B) then
    Ok {| nrows := nrows A; ncols := ncols B;
          entry := fun i j => sum_n (ncols A) (fun k => entry A i k * entry B k j) |}
  else Raise (InvalidArgumentError "Matrix size-incompatible").

(** The product where the inner dimensions agree by construction. *)
Definition mat_prod (A B : matrix) : matrix :=
  {| nrows := nrows A; ncols := ncols B;
     entry := fun i j => sum_n (ncols A) (fun k => entry A i k * entry B k j) |}.

(** The sum of two tensors of one shape. *)
Definition mat_add (A B : matrix) : matrix :=
  {| nrows := nrows A; ncols := ncols A;
     entry := fun i j => entry A i j + entry B i j |}.

(** Row [i] of [A] scaled by [f i]. *)
Definition scale_rows (f : nat -> R) (A : matrix) : matrix :=
  {| nrows := nrows A; ncols := ncols A; entry := fun i j => f i * entry A i j |}.

Definition sigmoid (x : R) : R := 1 / (1 + exp (- x)).

End Matrix.
Export Matrix.

(** ** Dense inversion of the host framework *)

Class LinalgBackend : Type := {
  (** whether the LU decomposition of [tf.linalg.inv(A)] finds the square
      matrix [A] invertible; the operation raises InvalidArgumentError when
      it does not *)
  invertible : matrix -> bool;
  (** the entries of [tf.linalg.inv(A)] for a square [A] that it finds
      invertible *)
  inv_entries : matrix -> nat -> nat -> R
}.

(** ** LaplaceRandomFeatureCovariance *)

Module Laplace.

Definition _SUPPORTED_LIKELIHOOD : list string :=
  ["binary_logistic"; "poisson"; "gaussian"]%string.

(** [x in t] for a tuple of strings. *)
Definition str_in (x : string) (t : list string) : bool :=
  existsb (String.eqb x) t.

(** The layer after [__init__]. *)
Record LaplaceRandomFeatureCovariance : Type := mkLaplace {
  ridge_penalty : R;
  momentum : R;
  likelihood : string
}.

(** [__init__(momentum, ridge_penalty, likelihood)] *)
Definition init (momentum0 ridge_penalty0 : R) (likelihood0 : string)
  : result LaplaceRandomFeatureCovariance :=
  if negb (str_in likelihood0 _SUPPORTED_LIKELIHOOD) then
    Raise (ValueError "likelihood must be one of the supported likelihoods")
  else
    Ok {| ridge_penalty := ridge_penalty0;
          momentum := momentum0;
          likelihood := likelihood0 |}.

(** [shape[-1]] *)
Definition last_dim (input_shape : list nat) : result nat :=
  match rev input_shape with
  | [] => Raise IndexError
  | d :: _ => Ok d
  end.

(** [compute_output_shape(input_shape)] *)
Definition compute_output_shape (input_shape : list nat) : result (list nat) :=
  (gp_feature_dim <- last_dim input_shape ;;
   Ok [gp_feature_dim; gp_feature_dim])%py.

(** What the layer does to its variables, newest first: an assignment to the
    precision matrix, or a run of [tf.linalg.inv].  The trace is a probe; no
    operation of the layer reads it. *)
Inductive event : Type := PrecisionAssigned | Inverted.

(** The layer after [build]: its configuration and the values of its
    variables. *)
Record Built : Type := mkBuilt {
  self : LaplaceRandomFeatureCovariance;
  initial_precision_matrix : matrix;
  precision_matrix : matrix;
  covariance_matrix : matrix;
  if_update_covariance : bool;
  trace : list event
}.

(** [build(input_shape)].  The covariance variable is created without an
    initialiser, so Keras draws its entries ([covariance0]); a boolean weight
    without an initialiser starts as [False]. *)
Definition build (self0 : LaplaceRandomFeatureCovariance) (input_shape : list nat)
    (covariance0 : nat -> nat -> R) : result Built :=
  (gp_feature_dim <- last_dim input_shape ;;
   Ok {| self := self0;
         initial_precision_matrix := zeros gp_feature_dim gp_feature_dim;
         precision_matrix := zeros gp_feature_dim gp_feature_dim;
         covariance_matrix :=
           {| nrows := gp_feature_dim; ncols := gp_feature_dim;
              entry := covariance0 |};
         if_update_covariance := false;
         trace := [] |})%py.

(** *** The layer's monad: state of the variables, and exceptions *)

Definition M (A : Type) : Type := Built -> Built * result A.

Definition ret {A : Type} (a : A) : M A := fun st => (st, Ok a).

Definition bindM {A B : Type} (m : M A) (f : A -> M B) : M B :=
  fun st =>
    match m st with
    | (st1, Ok a) => f a st1
    | (st1, Raise e) => (st1, Raise e)
    end.

(** A computation that only reads the variables. *)
Definition lift {A : Type} (f : Built -> result A) : M A :=
  fun st => (st, f st).

Declare Scope tf_scope.
Delimit Scope tf_scope with tf.
Notation "x <- m ;; k" := (bindM m (fun x => k))
  (at level 61, m at next level, right associativity) : tf_scope.
Notation "m ;; k" := (bindM m (fun _ => k))
  (at level 61, right associativity) : tf_scope.

(** [self.precision_matrix.assign(m)]; a value of another shape is
    refused. *)
Definition assign_precision_matrix (m : matrix) : M unit :=
  fun st =>
    if shape_eqb (shape m) (shape (precision_matrix st)) then
      ({| self := self st;
          initial_precision_matrix := initial_precision_matrix st;
          precision_matrix := m;
          covariance_matrix := covariance_matrix st;
          if_update_covariance := if_update_covariance st;
          trace := PrecisionAssigned :: trace st |}, Ok tt)
    else (st, Raise (ValueError "Shapes are incompatible")).

(** [self.covariance_matrix.assign(m)] *)
Definition assign_covariance_matrix (m : matrix) : M unit :=
  fun st =>
    if shape_eqb (shape m) (shape (covariance_matrix st)) then
      ({| self := self st;
          initial_precision_matrix := initial_precision_matrix st;
          precision_matrix := precision_matrix st;
          covariance_matrix := m;
          if_update_covariance := if_update_covariance st;
          trace := trace st |}, Ok tt)
    else (st, Raise (ValueError "Shapes are incompatible")).

(** [self.if_update_covariance.assign(tf.constant(b))] *)
Definition assign_if_update_covariance (b : bool) : M unit :=
  fun st =>
    ({| self := self st;
        initial_precision_matrix := initial_precision_matrix st;
        precision_matrix := precision_matrix st;
        covariance_matrix := covariance_matrix st;
        if_update_covariance := b;
        trace := trace st |}, Ok tt).

(** The probe of [tf.linalg.inv]: one more inversion has run. *)
Definition record_inversion : M unit :=
  fun st =>
    ({| self := self st;
        initial_precision_matrix := initial_precision_matrix st;
        precision_matrix := precision_matrix st;
        covariance_matrix := covariance_matrix st;
        if_update_covariance := if_update_covariance st;
        trace := Inverted :: trace st |}, Ok tt).

(** *** The precision update *)

(** [prob_multiplier]: the Python float [1.], or a tensor shaped like
    [logits]. *)
Inductive multiplier : Type :=
| FloatMultiplier (r : R)
| TensorMultiplier (m : matrix).

(** The two checks on [logits] that open [update_feature_precision_matrix]. *)
Definition check_logits (lik : string) (logits : option matrix) : result unit :=
  if negb (String.eqb lik "gaussian") then
    match logits with
    | None => Raise (ValueError "logits cannot be None for this likelihood")
    | Some l =>
        if negb (Nat.eqb (ncols l) 1) then
          Raise (ValueError "this likelihood only supports univariate logits")
        else Ok tt
    end
  else Ok tt.

(** [prob_multiplier] as the likelihood selects it. *)
Definition prob_multiplier (lik : string) (logits : option matrix)
  : result multiplier :=
  if String.eqb lik "binary_logistic" then
    match logits with
    | Some l =>
        let prob := map_entries sigmoid l in
        Ok (TensorMultiplier (map_entries (fun p => p * (1 - p)) prob))
    | None => Raise (ValueError "None values not supported.")
    end
  else if String.eqb lik "poisson" then
    match logits with
    | Some l => Ok (TensorMultiplier (map_entries exp l))
    | None => Raise (ValueError "None values not supported.")
    end
  else Ok (FloatMultiplier 1).

(** [tf.sqrt(prob_multiplier) * gp_feature] *)
Definition adjust_feature (pm : multiplier) (gp_feature : matrix) : result matrix :=
  match pm with
  | FloatMultiplier r => Ok (scalar_mul (sqrt r) gp_feature)
  | TensorMultiplier m => broadcast2 Rmult (map_entries sqrt m) gp_feature
  end.

(** [precision_matrix_minibatch] before the division by the batch size. *)
Definition precision_matrix_minibatch (lik : string) (gp_feature : matrix)
    (logits : option matrix) : result matrix :=
  (pm <- prob_multiplier lik logits ;;
   gp_feature_adjusted <- adjust_feature pm gp_feature ;;
   matmul (transpose gp_feature_adjusted) gp_feature_adjusted)%py.

(** [update_feature_precision_matrix(gp_feature, logits)] *)
Definition update_feature_precision_matrix (st : Built) (gp_feature : matrix)
    (logits : option matrix) : result matrix :=
  (_ <- check_logits (likelihood (self st)) logits ;;
   let batch_size := INR (nrows gp_feature) in
   minibatch <- precision_matrix_minibatch (likelihood (self st)) gp_feature logits ;;
   if Rlt_dec 0 (momentum (self st)) then
     let minibatch := div_scalar minibatch batch_size in
     broadcast2 Rplus
       (scalar_mul (momentum (self st)) (precision_matrix st))
       (scalar_mul (1 - momentum (self st)) minibatch)
   else
     broadcast2 Rplus (precision_matrix st) minibatch)%py.

(** [reset_precision_matrix()] *)
Definition reset_precision_matrix : M unit :=
  fun st => assign_precision_matrix (initial_precision_matrix st) st.

Section WithLinalg.
Context {linalg : LinalgBackend}.

(** [tf.linalg.inv(A)]: a square matrix is required, and a matrix that is
    not invertible is refused. *)
Definition linalg_inv (A : matrix) : result matrix :=
  if Nat.eqb (nrows A) (ncols A) then
    if invertible A then
      Ok {| nrows := nrows A; ncols := ncols A; entry := inv_entries A |}
    else Raise (InvalidArgumentError "Input is not invertible.")
  else Raise (InvalidArgumentError "Input matrix must be square.").

(** [self.ridge_penalty * tf.eye(gp_feature_dim) + precision_matrix], the
    argument of [tf.linalg.inv] in [update_feature_covariance_matrix]. *)
Definition ridged_precision_matrix (st : Built) : result matrix :=
  let precision_matrix0 := precision_matrix st in
  let gp_feature_dim := nrows precision_matrix0 in
  broadcast2 Rplus
    (scalar_mul (ridge_penalty (self st)) (eye gp_feature_dim))
    precision_matrix0.

(** [update_feature_covariance_matrix()]; the casts to and from
    [tf.float32] are the identity on real numbers.  [tf.cond] runs the
    branch its predicate selects, and only that one; an exception of
    [tf.linalg.inv] leaves the method before anything is assigned, and the
    probe counts the inversions that return. *)
Definition update_feature_covariance_matrix : M matrix :=
  fun st =>
    let covariance_matrix0 := covariance_matrix st in
    if if_update_covariance st then
      (inverse <- lift (fun st0 =>
                    (ridged <- ridged_precision_matrix st0 ;;
                     linalg_inv ridged)%py) ;;
       record_inversion ;;
       ret inverse)%tf st
    else (st, Ok covariance_matrix0).

(** [compute_predictive_covariance(gp_feature)] *)
Definition compute_predictive_covariance (gp_feature : matrix) : M matrix :=
  lift (fun st =>
    (product <- matmul (covariance_matrix st) (transpose gp_feature) ;;
     let cov_feature_product := mul_scalar product (ridge_penalty (self st)) in
     matmul gp_feature cov_feature_product)%py).

(** The [training] argument of [call]. *)
Inductive training_arg : Type :=
| TrainingNone
| TrainingBool (b : bool)
| TrainingInt (n : Z).

(** [_get_training_value(training)] followed by the truth test of
    [if training:]; [learning_phase] is what
    [tf.keras.backend.learning_phase()] returns. *)
Definition _get_training_value (learning_phase : Z) (training : training_arg) : bool :=
  match training with
  | TrainingNone => negb (Z.eqb learning_phase 0)
  | TrainingBool b => b
  | TrainingInt n => negb (Z.eqb n 0)
  end.

(** [call(inputs, logits, training)] *)
Definition call (learning_phase : Z) (inputs : matrix) (logits : option matrix)
    (training : training_arg) : M matrix :=
  let batch_size := nrows inputs in
  let training := _get_training_value learning_phase training in
  if training then
    (precision_matrix_updated <-
       lift (fun st => update_feature_precision_matrix st inputs logits) ;;
     assign_precision_matrix precision_matrix_updated ;;
     assign_if_update_covariance true ;;
     ret (eye batch_size))%tf
  else
    (covariance_matrix_updated <- update_feature_covariance_matrix ;;
     assign_covariance_matrix covariance_matrix_updated ;;
     assign_if_update_covariance false ;;
     compute_predictive_covariance inputs)%tf.

(** *** Sequences of calls *)

(** The arguments of one call.  The features are a rank-2 tensor, of shape
    (batch_size, gp_hidden_size) in the docstring, and so are the logits,
    which the Gaussian process head takes from its output layer. *)
Record call_args : Type := mkArgs {
  arg_learning_phase : Z;
  arg_inputs : matrix;
  arg_logits : option matrix;
  arg_training : training_arg
}.

Definition call_with (a : call_args) : M matrix :=
  call (arg_learning_phase a) (arg_inputs a) (arg_logits a) (arg_training a).

(** Whether the call takes the training branch. *)
Definition is_training (a : call_args) : bool :=
  _get_training_value (arg_learning_phase a) (arg_training a).

(** The variables after a sequence of calls; a call that raises leaves them
    as they were when the exception was raised. *)
Definition run (st : Built) (calls : list call_args) : Built :=
  fold_left (fun s a => fst (call_with a s)) calls st.

(** The states a built layer reaches by calls. *)
Definition reachable (st : Built) : Prop :=
  exists self0 input_shape covariance0 st0 calls,
    build self0 input_shape covariance0 = Ok st0 /\ st = run st0 calls.

(** Whether [update_feature_covariance_matrix] raises on the variables
    [st]: the flag is set, and the sum [ridge_penalty * I + P] or its
    inversion raises. *)
Definition inversion_raises (st : Built) : bool :=
  if if_update_covariance st then
    match (ridged <- ridged_precision_matrix st ;; linalg_inv ridged)%py with
    | Ok _ => false
    | Raise _ => true
    end
  else false.

(** The cached covariance is the inverse [tf.linalg.inv] returns for
    [ridge_penalty * I + P], with the precision matrix [P] as it is now. *)
Definition covariance_current (st : Built) : Prop :=
  exists ridged,
    ridged_precision_matrix st = Ok ridged /\
    linalg_inv ridged = Ok (covariance_matrix st).

End WithLinalg.

(** The variables after a training-mode call that assigned
    [precision_matrix_updated]. *)
Definition after_training (st : Built) (precision_matrix_updated : matrix) : Built :=
  {| self := self st;
     initial_precision_matrix := initial_precision_matrix st;
     precision_matrix := precision_matrix_updated;
     covariance_matrix := covariance_matrix st;
     if_update_covariance := true;
     trace := PrecisionAssigned :: trace st |}.

(** The variables after an inference-mode call that assigned
    [covariance_matrix_updated], with or without an inversion. *)
Definition after_inference (st : Built) (covariance_matrix_updated : matrix)
    (inverted : bool) : Built :=
  {| self := self st;
     initial_precision_matrix := initial_precision_matrix st;
     precision_matrix := precision_matrix st;
     covariance_matrix := covariance_matrix_updated;
     if_update_covariance := false;
     trace := if inverted then Inverted :: trace st else trace st |}.

(** The logits a likelihood needs for a batch of [b] examples: none for
    the Gaussian likelihood, one per example otherwise. *)
Definition logits_fit (lik : string) (logits : option matrix) (b : nat) : Prop :=
  lik = "gaussian"%string \/ exists l, logits = Some l /\ shape l = (b, 1%nat).

(** [(sqrt(weight) * Phi)^T (sqrt(weight) * Phi)] for per-example weights. *)
Definition second_moment (weight : nat -> R) (Phi : matrix) : matrix :=
  mat_prod (transpose (scale_rows (fun i => sqrt (weight i)) Phi))
           (scale_rows (fun i => sqrt (weight i)) Phi).

(** [sqrt(weight) * Phi] as [adjust_feature] broadcasts it: a column of
    [rows] weights against the rows of [Phi], into [n] rows. *)
Definition weighted_features (rows : nat) (weight : nat -> R) (Phi : matrix)
    (n : nat) : matrix :=
  {| nrows := n; ncols := ncols Phi;
     entry := fun i j =>
       sqrt (weight (broadcast_index rows i))
       * entry Phi (broadcast_index (nrows Phi) i) j |}.

(** *** Probes on the trace *)

(** The number of runs of [tf.linalg.inv]. *)
Fixpoint inversions (t : list event) : nat :=
  match t with
  | [] => O
  | Inverted :: t' => S (inversions t')
  | PrecisionAssigned :: t' => inversions t'
  end.

(** The cached covariance is stale when the precision matrix has been
    assigned since the covariance was last brought up to date, by [build]
    or by an inversion. *)
Definition stale (t : list event) : bool :=
  match t with
  | PrecisionAssigned :: _ => true
  | _ => false
  end.

(** The variables have the shapes [build] gives them for feature
    dimension [d]. *)
Definition well_shaped (d : nat) (st : Built) : Prop :=
  shape (precision_matrix st) = (d, d) /\
  shape (covariance_matrix st) = (d, d) /\
  shape (initial_precision_matrix st) = (d, d).

(** The invariant of the variables: the shapes are those of [build], and
    the flag is set exactly when the trace says that the covariance is
    stale. *)
Definition consistent (st : Built) : Prop :=
  (exists d, well_shaped d st) /\ if_update_covariance st = stale (trace st).

(** The invariant of the cached covariance, by value: with the flag clear
    after an inversion, it is the inverse for the current precision
    matrix. *)
Definition covariance_kept_current {linalg : LinalgBackend} (st : Built) : Prop :=
  if_update_covariance st = false -> inversions (trace st) <> 0%nat ->
  covariance_current st.

End Laplace.

(** ** A concrete inverse: diagonal matrices

    A diagonal matrix, in particular every 1x1 matrix, is invertible when no
    entry of its diagonal is zero; its inverse has [1 / a_ii] on the
    diagonal and [0] elsewhere.  The backend is one for diagonal matrices
    only. *)

Module Diagonal.

Definition diag_invertible (A : matrix) : bool :=
  forallb (fun i => if Req_EM_T (entry A i i) 0 then false else true)
          (seq 0 (nrows A)).

Definition diag_inv_entries (A : matrix) (i j : nat) : R :=
  if Nat.eqb i j then / entry A i i else 0.

Definition backend : LinalgBackend :=
  {| invertible := diag_invertible; inv_entries := diag_inv_entries |}.

End Diagonal.

(** ** Concrete layers *)

Module LaplaceExamples.
Import Laplace.

(** The default configuration. *)
Definition gaussian_layer : LaplaceRandomFeatureCovariance :=
  {| ridge_penalty := 1e-6; momentum := 0.999; likelihood := "gaussian" |}.

Definition poisson_layer : LaplaceRandomFeatureCovariance :=
  {| ridge_penalty := 1e-6; momentum := 0.999; likelihood := "poisson" |}.

(** The layer [build] returns for inputs of shape (2, 1). *)
Definition built_on (self0 : LaplaceRandomFeatureCovariance) : Built :=
  {| self := self0;
     initial_precision_matrix := zeros 1 1;
     precision_matrix := zeros 1 1;
     covariance_matrix := {| nrows := 1; ncols := 1; entry := fun _ _ => 0 |};
     if_update_covariance := false;
     trace := [] |}.

(** Two feature vectors of width 1: [[1]; [2]]. *)
Definition features : matrix :=
  {| nrows := 2; ncols := 1;
     entry := fun i _ => if Nat.eqb i 0 then 1 else 2 |}.

(** Two univariate logits, both 0. *)
Definition logits_2x1 : matrix := zeros 2 1.

(** Bivariate logits. *)
Definition logits_2x2 : matrix := zeros 2 2.

Definition training_call : call_args :=
  {| arg_learning_phase := 0%Z; arg_inputs := features; arg_logits := None;
     arg_training := TrainingBool true |}.

Definition inference_call : call_args :=
  {| arg_learning_phase := 0%Z; arg_inputs := features; arg_logits := None;
     arg_training := TrainingBool false |}.

(** The variables after a training-mode call on [features]. *)
Definition trained_layer : Built :=
  after_training (built_on gaussian_layer)
    {| nrows := 1; ncols := 1; entry := fun _ _ => 0.0025 |}.

(** A layer without ridge penalty. *)
Definition ridgeless_layer : LaplaceRandomFeatureCovariance :=
  {| ridge_penalty := 0; momentum := 0.999; likelihood := "gaussian" |}.

(** Two feature vectors of width 1, both zero. *)
Definition zero_features : matrix := zeros 2 1.

Definition zero_training_call : call_args :=
  {| arg_learning_phase := 0%Z; arg_inputs := zero_features; arg_logits := None;
     arg_training := TrainingBool true |}.

(** A training-mode call with one logit per feature vector. *)
Definition logits_training_call : call_args :=
  {| arg_learning_phase := 0%Z; arg_inputs := features;
     arg_logits := Some logits_2x1; arg_training := TrainingBool true |}.

End LaplaceExamples.

Module SpectralExamples.
Import SpectralNorm.

Definition conv_layer : KerasLayer := {| layer_cls := Conv2D; _name := "conv2d" |}.

Definition dense_layer : KerasLayer := {| layer_cls := Dense; _name := "dense" |}.

(** The wrapper [init] returns for [conv_layer]. *)
Definition wrapper (k : nat) (c : R) (training : bool) : SpectralNormalizationConv2D :=
  {| iteration := k;
     do_power_iteration := training;
     norm_multiplier := c;
     legacy_mode := false;
     layer := {| layer_cls := Conv2D; _name := "conv2d_spec_norm" |} |}.

(** The default configuration on a kernel [[2]] with [u = v = [1]]. *)
Definition leak_state : store * Built :=
  build Store.empty (wrapper 1 0.95 true) [2] [1] [1].

(** No power iteration, kernel [[1]], [v = [1]] and [u = [-1]]. *)
Definition negative_state : store * Built :=
  build Store.empty (wrapper 1 0.95 false) [1] [1] [-1].

(** A kernel within the budget: [[0.5]] with [u = v = [1]]. *)
Definition within_budget_state : store * Built :=
  build Store.empty (wrapper 1 0.95 true) [0.5] [1] [1].

(** One input channel, two output channels: the kernel [[1; 0]] feeds the
    first output channel only, and [u = [0; 1]] lies in the second. *)
Definition degenerate_state : store * Built :=
  build Store.empty (wrapper 1 0.95 true) [1; 0] [1] [0; 1].

End SpectralExamples.

(** ** The shapes resolved by [SpectralNormalizationConv2D.build] *)

Module SpectralShapes.
Import SpectralNorm.

(** [c.upper()] on an ASCII character. *)
Definition upper_ascii (c : Ascii.ascii) : Ascii.ascii :=
  let n := Ascii.nat_of_ascii c in
  if (Nat.leb 97 n && Nat.leb n 122)%bool then Ascii.ascii_of_nat (n - 32) else c.

(** [s.upper()] *)
Fixpoint upper (s : string) : string :=
  match s with
  | EmptyString => EmptyString
  | String c s' => String (upper_ascii c) (upper s')
  end.

(** A shape of rank 4. *)
Record shape4 : Type := mkShape4 {
  dim0 : Z; dim1 : Z; dim2 : Z; dim3 : Z
}.

(** The number of the window positions [0, s, 2 s, ...] below [n]: the
    least [c] with [n <= c * s], which is the output size [ceil(n / s)] of a
    convolution with SAME padding and stride [s]. *)
Definition same_padding_windows (n s : Z) : Z := ((n + s - 1) / s)%Z.

(** The part of [build] that resolves [in_shape] and [out_shape], the shapes
    of [v] and [u]: [input_shape] is (batch, height, width, channels),
    [w_shape] is (kernel height, kernel width, in channels, out channels),
    and [//] is floor division. *)
Definition resolve_shapes (legacy_mode0 : bool) (layer_padding : string)
    (strides : Z * Z) (w_shape input_shape : shape4) : shape4 * shape4 :=
  let padding := upper layer_padding in
  let batch_size := dim0 input_shape in
  let uv_dim := if legacy_mode0 then batch_size else 1%Z in
  let in_height := dim1 input_shape in
  let in_width := dim2 input_shape in
  let in_channel := dim2 w_shape in
  let '(out_height, out_width) :=
    if String.eqb padding "SAME" then
      ((in_height / fst strides)%Z, (in_width / snd strides)%Z)
    else
      (((in_height - dim0 w_shape) / fst strides + 1)%Z,
       ((in_width - dim1 w_shape) / snd strides + 1)%Z) in
  let out_channel := dim3 w_shape in
  ({| dim0 := uv_dim; dim1 := in_height; dim2 := in_width; dim3 := in_channel |},
   {| dim0 := uv_dim; dim1 := out_height; dim2 := out_width; dim3 := out_channel |}).

End SpectralShapes.

Module SpectralExamples2.
Import SpectralNorm.

(** No power iteration, kernel [[2]] and [u = v = [1]]: the estimate 2 is
    over the budget 0.95. *)
Definition fixed_over_budget_state : store * Built :=
  build Store.empty (SpectralExamples.wrapper 1 0.95 false) [2] [1] [1].

End SpectralExamples2.

(** ** Calls and resets of the Laplace covariance layer *)

Module LaplaceOps.
Import Laplace.

(** A tensor equal to its transpose inside its shape. *)
Definition symmetric (A : matrix) : Prop :=
  forall i j, (i < nrows A)%nat -> (j < ncols A)%nat -> entry A i j = entry A j i.

Section WithLinalg.
Context {linalg : LinalgBackend}.

(** What a user does to a built layer: a call, or
    [reset_precision_matrix()]. *)
Inductive op : Type :=
| OpCall (a : call_args)
| OpReset.

Definition step (st : Built) (o : op) : Built :=
  match o with
  | OpCall a => fst (call_with a st)
  | OpReset => fst (reset_precision_matrix st)
  end.

Definition run_ops (st : Built) (ops : list op) : Built := fold_left step ops st.

(** The states a built layer reaches by calls and resets. *)
Definition reachable_ops (st : Built) : Prop :=
  exists self0 input_shape covariance0 st0 ops,
    build self0 input_shape covariance0 = Ok st0 /\ st = run_ops st0 ops.

End WithLinalg.

End LaplaceOps.

Module LaplaceExamples2.
Import Laplace.

(** The exact-sum configuration: no momentum. *)
Definition exact_sum_layer : LaplaceRandomFeatureCovariance :=
  {| ridge_penalty := 1e-6; momentum := -1; likelihood := "gaussian" |}.

(** One feature vector of width 1: [[3]]. *)
Definition features' : matrix :=
  {| nrows := 1; ncols := 1; entry := fun _ _ => 3 |}.

Definition training_call' : call_args :=
  {| arg_learning_phase := 0%Z; arg_inputs := features'; arg_logits := None;
     arg_training := TrainingBool true |}.

(** Two feature vectors of width 2. *)
Definition wide_features : matrix :=
  {| nrows := 2; ncols := 2; entry := fun _ _ => 1 |}.

Definition wide_inference_call : call_args :=
  {| arg_learning_phase := 0%Z; arg_inputs := wide_features; arg_logits := None;
     arg_training := TrainingBool false |}.

End LaplaceExamples2.

(** ** OrthogonalRandomFeatures

    The inherited Keras [Orthogonal] initialiser and [tf.random.normal] are
    the sources of randomness; a draw is indexed by the number of draws made
    before it. *)

Class Sampler : Type := {
  (** the entries of the [n]-th draw of [Orthogonal(gain)] for a shape *)
  orthogonal_entries : R -> nat -> nat * nat -> nat -> nat -> R;
  (** the entries of [tf.random.normal(shape)] *)
  normal_entries : nat * nat -> nat -> nat -> R
}.

Module OrthogonalFeatures.

(** The initialiser after [__init__(stddev, random_norm, seed)]; the seed
    belongs to the sampler. *)
Record OrthogonalRandomFeatures : Type := mkOrthogonal {
  stddev : R;
  random_norm : bool
}.

(** [tf.concat([A, B], axis=-1)] for two tensors with the same rows. *)
Definition concat2 (A B : matrix) : matrix :=
  {| nrows := nrows A; ncols := (ncols A + ncols B)%nat;
     entry := fun i j =>
       if Nat.ltb j (ncols A) then entry A i j else entry B i (j - ncols A)%nat |}.

(** [tf.concat(l, axis=-1)]; an empty list is refused. *)
Fixpoint concat_cols (l : list matrix) : result matrix :=
  match l with
  | [] => Raise (ValueError "List argument 'values' must have at least one element")
  | A :: l' =>
      match l' with
      | [] => Ok A
      | _ :: _ => (B <- concat_cols l' ;; Ok (concat2 A B))%py
      end
  end.

(** [A[:, :n]] *)
Definition slice_cols (A : matrix) (n : nat) : matrix :=
  {| nrows := nrows A; ncols := Nat.min n (ncols A); entry := entry A |}.

(** [tf.reduce_sum(A, axis=0)], indexed by the column. *)
Definition reduce_sum_axis0 (A : matrix) (j : nat) : R :=
  sum_n (nrows A) (fun i => entry A i j).

(** [A * f] for a vector [f] with one entry per column of [A]. *)
Definition scale_cols (A : matrix) (f : nat -> R) : matrix :=
  {| nrows := nrows A; ncols := ncols A; entry := fun i j => entry A i j * f j |}.

(** [tf.ones(shape)] *)
Definition ones (s : nat * nat) : matrix :=
  {| nrows := fst s; ncols := snd s; entry := fun _ _ => 1 |}.

Section WithSampler.
Context {sampler : Sampler}.

(** [_sample_orthogonal_matrix(shape)], as the draw number [draw]. *)
Definition _sample_orthogonal_matrix (self : OrthogonalRandomFeatures)
    (draw : nat) (s : nat * nat) : matrix :=
  {| nrows := fst s; ncols := snd s;
     entry := orthogonal_entries (stddev self) draw s |}.

(** The [while num_cols_sampled < num_cols] loop of [__call__]: the list of
    square matrices and the number of draws when the loop is left, or [None]
    when the fuel runs out first. *)
Fixpoint sample_blocks (fuel : nat) (self : OrthogonalRandomFeatures)
    (num_rows num_cols num_cols_sampled draws : nat)
    (ortho_mat_list : list matrix) : option (list matrix * nat) :=
  if Nat.ltb num_cols_sampled num_cols then
    match fuel with
    | O => None
    | S fuel' =>
        let ortho_mat_square :=
          _sample_orthogonal_matrix self draws (num_rows, num_rows) in
        sample_blocks fuel' self num_rows num_cols
          (num_cols_sampled + num_rows) (S draws)
          (ortho_mat_list ++ [ortho_mat_square])
    end
  else Some (ortho_mat_list, draws).

(** The norms [__call__] gives the columns of [ortho_mat]. *)
Definition feature_norms (self : OrthogonalRandomFeatures) (ortho_mat : matrix)
    (j : nat) : R :=
  let feature_norms_square :=
    if random_norm self then
      map_entries (fun z => z * z)
        {| nrows := nrows ortho_mat; ncols := ncols ortho_mat;
           entry := normal_entries (shape ortho_mat) |}
    else ones (shape ortho_mat) in
  sqrt (reduce_sum_axis0 feature_norms_square j).

(** [__call__(shape)] *)
Definition __call__ (fuel : nat) (self : OrthogonalRandomFeatures)
    (s : nat * nat) : option (result matrix) :=
  let '(num_rows, num_cols) := s in
  let sampled :=
    if Nat.ltb num_rows num_cols then
      match sample_blocks fuel self num_rows num_cols 0 0 [] with
      | None => None
      | Some (ortho_mat_list, _) =>
          Some (ortho_mat <- concat_cols ortho_mat_list ;;
                Ok (slice_cols ortho_mat num_cols))%py
      end
    else Some (Ok (_sample_orthogonal_matrix self 0 s)) in
  match sampled with
  | None => None
  | Some (Raise e) => Some (Raise e)
  | Some (Ok ortho_mat) =>
      Some (Ok (scale_cols ortho_mat (feature_norms self ortho_mat)))
  end.

(** The blocks drawn by the loop: [n] square matrices, numbered from
    [draws]. *)
Definition blocks (self : OrthogonalRandomFeatures) (num_rows draws n : nat)
  : list matrix :=
  map (fun t => _sample_orthogonal_matrix self (draws + t) (num_rows, num_rows))
      (seq 0 n).

End WithSampler.

End OrthogonalFeatures.

(** A sampler for examples: the identity pattern for every orthogonal draw,
    scaled by the gain, and the constant 1 for the normal draw. *)
Module IdentitySampler.

Definition sampler : Sampler :=
  {| orthogonal_entries := fun gain _ _ i j => if Nat.eqb i j then gain else 0;
     normal_entries := fun _ _ _ => 1 |}.

End IdentitySampler.

(** ** RandomFeatureGaussianProcess

    The Keras layers the head composes that are not defined in the module,
    [LayerNormalization] and [RandomFourierFeatures], are parameters; a
    [Dense] layer is [activation(matmul(inputs, kernel) + bias)]. *)

Class KerasLayers : Type := {
  (** the entries of [LayerNormalization()(x)] *)
  layer_normalization_entries : matrix -> nat -> nat -> R;
  (** the entries of
      [RandomFourierFeatures(output_dim, kernel_initializer, scale)(x)] *)
  random_fourier_entries : nat -> string -> option R -> matrix -> nat -> nat -> R
}.

Module GPHead.

(** The exceptions of the head: Python's own, and those of its layers. *)
Inductive head_exn : Type :=
| ZeroDivisionError
| AttributeError (attr : string)
| LayerError (e : exn).

Inductive head_result (A : Type) : Type :=
| HOk (a : A)
| HRaise (e : head_exn).

Arguments HOk {A} a.
Arguments HRaise {A} e.

(** A result of a layer as a result of the head. *)
Definition of_layer {A : Type} (r : result A) : head_result A :=
  match r with
  | Ok a => HOk a
  | Raise e => HRaise (LayerError e)
  end.

(** [c.lower()] on an ASCII character. *)
Definition lower_ascii (c : Ascii.ascii) : Ascii.ascii :=
  let n := Ascii.nat_of_ascii c in
  if (Nat.leb 65 n && Nat.leb n 90)%bool then Ascii.ascii_of_nat (n + 32) else c.

(** [s.lower()] *)
Fixpoint lower (s : string) : string :=
  match s with
  | EmptyString => EmptyString
  | String c s' => String (lower_ascii c) (lower s')
  end.

(** The head after [__init__]; the arguments that only concern training
    (trainable flags, l2 regularisation) are left out. *)
Record RandomFeatureGaussianProcess : Type := mkHead {
  units : nat;
  num_inducing : nat;
  normalize_input : bool;
  gp_input_scale : option R;
  gp_feature_scale : R;
  scale_random_features : bool;
  return_random_features : bool;
  return_gp_cov : bool;
  gp_kernel_type : string;
  gp_kernel_scale : option R;
  gp_output_bias : R;
  use_custom_random_features : bool;
  custom_random_features_activation : option (R -> R);
  gp_cov_momentum : R;
  gp_cov_ridge_penalty : R;
  gp_cov_likelihood : string
}.

(** A Python number handed to [__init__] as length scale: a float or an
    int. *)
Inductive py_number : Type :=
| PyFloat (x : R)
| PyInt (n : Z).

Definition number_value (x : py_number) : R :=
  match x with
  | PyFloat r => r
  | PyInt n => IZR n
  end.

(** The arguments of [__init__] that the model keeps. *)
Record head_args : Type := mkHeadArgs {
  a_units : nat;
  a_num_inducing : nat;
  a_gp_kernel_type : string;
  a_gp_kernel_scale : option py_number;
  a_gp_output_bias : R;
  a_normalize_input : bool;
  a_gp_cov_momentum : R;
  a_gp_cov_ridge_penalty : R;
  a_scale_random_features : bool;
  a_use_custom_random_features : bool;
  a_custom_random_features_activation : option (R -> R);
  a_gp_cov_likelihood : string;
  a_return_gp_cov : bool;
  a_return_random_features : bool
}.

(** [tf.sqrt(x)] for a Python number: a float becomes a float tensor; an
    int becomes an int32 tensor, which the operation refuses.  (The root of
    a negative float is NaN in the code; the model has no value for it.) *)
Definition tf_sqrt (x : py_number) : result R :=
  match x with
  | PyFloat r => Ok (sqrt r)
  | PyInt _ =>
      Raise (InvalidArgumentError
               "Value for attr 'T' of int32 is not in the list of allowed values")
  end.

(** [1. / tf.sqrt(gp_kernel_scale) if gp_kernel_scale is not None else
    None] *)
Definition input_scale_of (gp_kernel_scale0 : option py_number)
  : result (option R) :=
  match gp_kernel_scale0 with
  | Some x => (root <- tf_sqrt x ;; Ok (Some (1 / root)))%py
  | None => Ok None
  end.

(** [__init__(units, num_inducing, ...)], in program order: the input scale
    is computed first, and [tf.sqrt] raises for an int length scale; then
    [2. / float(num_inducing)], a division of Python floats, raises for a
    zero divisor.  The likelihood is stored unchecked. *)
Definition init (a : head_args) : head_result RandomFeatureGaussianProcess :=
  match input_scale_of (a_gp_kernel_scale a) with
  | Raise e => HRaise (LayerError e)
  | Ok gp_input_scale0 =>
  if Nat.eqb (a_num_inducing a) 0 then HRaise ZeroDivisionError
  else
    HOk {| units := a_units a;
           num_inducing := a_num_inducing a;
           normalize_input := a_normalize_input a;
           gp_input_scale := gp_input_scale0;
           gp_feature_scale := sqrt (2 / INR (a_num_inducing a));
           scale_random_features := a_scale_random_features a;
           return_random_features := a_return_random_features a;
           return_gp_cov := a_return_gp_cov a;
           gp_kernel_type := a_gp_kernel_type a;
           gp_kernel_scale := option_map number_value (a_gp_kernel_scale a);
           gp_output_bias := a_gp_output_bias a;
           use_custom_random_features := a_use_custom_random_features a;
           custom_random_features_activation :=
             if a_use_custom_random_features a then
               match a_custom_random_features_activation a with
               | Some f => Some f
               | None => Some cos
               end
             else a_custom_random_features_activation a;
           gp_cov_momentum := a_gp_cov_momentum a;
           gp_cov_ridge_penalty := a_gp_cov_ridge_penalty a;
           gp_cov_likelihood := a_gp_cov_likelihood a |}
  end.

(** The layer [_make_random_feature_layer] returns, once built. *)
Inductive random_feature_layer : Type :=
| RandomFourierFeatures (input_dim : nat)
| LambdaIdentity
| DenseFeatures (kernel bias : matrix).

(** The head after [build]. *)
Record BuiltHead : Type := mkBuiltHead {
  self : RandomFeatureGaussianProcess;
  norm_input_dim : nat;
  _random_feature : random_feature_layer;
  _gp_cov_layer : option Laplace.Built;
  gp_output_weights : matrix;
  _gp_output_bias : matrix
}.

(** The values the initialisers draw when the head is built. *)
Record head_draws : Type := mkDraws {
  random_feature_kernel : nat -> nat -> R;
  random_feature_bias : nat -> R;
  output_kernel : nat -> nat -> R;
  covariance_initial : nat -> nat -> R
}.

(** [_make_random_feature_layer(name)], built on inputs of width [m]. *)
Definition _make_random_feature_layer (h : RandomFeatureGaussianProcess)
    (m : nat) (draws : head_draws) : random_feature_layer :=
  if negb (use_custom_random_features h) then RandomFourierFeatures m
  else if String.eqb (lower (gp_kernel_type h)) "linear" then LambdaIdentity
  else
    DenseFeatures
      {| nrows := m; ncols := num_inducing h; entry := random_feature_kernel draws |}
      {| nrows := 1; ncols := num_inducing h;
         entry := fun _ j => random_feature_bias draws j |}.

(** The width of the output of the random feature layer for inputs of
    width [m]. *)
Definition feature_dim (h : RandomFeatureGaussianProcess)
    (layer : random_feature_layer) (m : nat) : nat :=
  match layer with
  | LambdaIdentity => m
  | _ => num_inducing h
  end.

(** [build(input_shape)] *)
Definition build (h : RandomFeatureGaussianProcess) (input_shape : list nat)
    (draws : head_draws) : result BuiltHead :=
  (m <- Laplace.last_dim input_shape ;;
   let layer := _make_random_feature_layer h m draws in
   let n := feature_dim h layer m in
   cov <-
     (if return_gp_cov h then
        (cov_self <- Laplace.init (gp_cov_momentum h) (gp_cov_ridge_penalty h)
                       (gp_cov_likelihood h) ;;
         cov_built <- Laplace.build cov_self [n] (covariance_initial draws) ;;
         Ok (Some cov_built))
      else Ok None) ;;
   Ok {| self := h;
         norm_input_dim := m;
         _random_feature := layer;
         _gp_cov_layer := cov;
         gp_output_weights :=
           {| nrows := n; ncols := units h; entry := output_kernel draws |};
         _gp_output_bias :=
           {| nrows := 1; ncols := units h; entry := fun _ _ => gp_output_bias h |} |})%py.

Section WithLayers.
Context {keras : KerasLayers} {linalg : LinalgBackend}.

(** [self._input_norm_layer(x)], built for inputs of width [m]. *)
Definition input_norm_layer (m : nat) (x : matrix) : result matrix :=
  if Nat.eqb (ncols x) m then
    Ok {| nrows := nrows x; ncols := ncols x;
          entry := layer_normalization_entries x |}
  else Raise (InvalidArgumentError "Incompatible shapes").

(** [self._random_feature(x)] *)
Definition random_feature (h : RandomFeatureGaussianProcess)
    (layer : random_feature_layer) (x : matrix) : result matrix :=
  match layer with
  | RandomFourierFeatures m =>
      if Nat.eqb (ncols x) m then
        Ok {| nrows := nrows x; ncols := num_inducing h;
              entry := random_fourier_entries (num_inducing h)
                         (gp_kernel_type h) (gp_kernel_scale h) x |}
      else Raise (InvalidArgumentError "Matrix size-incompatible")
  | LambdaIdentity => Ok x
  | DenseFeatures kernel bias =>
      (y <- matmul x kernel ;;
       z <- broadcast2 Rplus y bias ;;
       Ok (match custom_random_features_activation h with
           | Some activation => map_entries activation z
           | None => z
           end))%py
  end.

(** [gp_feature] of [call]. *)
Definition compute_gp_feature (b : BuiltHead) (inputs : matrix) : result matrix :=
  let h := self b in
  (gp_inputs <-
     (if normalize_input h then input_norm_layer (norm_input_dim b) inputs
      else if use_custom_random_features h then
        match gp_input_scale h with
        | Some s => Ok (mul_scalar inputs s)
        | None => Ok inputs
        end
      else Ok inputs) ;;
   gp_feature <- random_feature h (_random_feature b) gp_inputs ;;
   Ok (if scale_random_features h
       then mul_scalar gp_feature (gp_feature_scale h)
       else gp_feature))%py.

(** [gp_output] of [call]. *)
Definition compute_gp_output (b : BuiltHead) (gp_feature : matrix) : result matrix :=
  (y <- matmul gp_feature (gp_output_weights b) ;;
   broadcast2 Rplus y (_gp_output_bias b))%py.

(** [call(inputs, training)]: the head after the call and the list
    [model_output]. *)
Definition call (learning_phase : Z) (inputs : matrix)
    (training : Laplace.training_arg) (b : BuiltHead)
  : BuiltHead * head_result (list matrix) :=
  let h := self b in
  match compute_gp_feature b inputs with
  | Raise e => (b, HRaise (LayerError e))
  | Ok gp_feature =>
      match compute_gp_output b gp_feature with
      | Raise e => (b, HRaise (LayerError e))
      | Ok gp_output =>
          let '(cov', gp_covmat) :=
            if return_gp_cov h then
              match _gp_cov_layer b with
              | Some cov =>
                  let '(cov1, r) :=
                    Laplace.call learning_phase gp_feature (Some gp_output)
                      training cov in
                  (Some cov1,
                   match r with
                   | Ok c => HOk [c]
                   | Raise e => HRaise (LayerError e)
                   end)
              | None => (None, HRaise (AttributeError "_gp_cov_layer"))
              end
            else (_gp_cov_layer b, HOk []) in
          let b' :=
            {| self := h;
               norm_input_dim := norm_input_dim b;
               _random_feature := _random_feature b;
               _gp_cov_layer := cov';
               gp_output_weights := gp_output_weights b;
               _gp_output_bias := _gp_output_bias b |} in
          match gp_covmat with
          | HRaise e => (b', HRaise e)
          | HOk covs =>
              (b', HOk ([gp_output] ++ covs
                        ++ (if return_random_features h then [gp_feature] else [])))
          end
      end
  end.

(** [reset_covariance_matrix()]: the attribute [_gp_cov_layer] exists only
    when [build] created the covariance layer. *)
Definition reset_covariance_matrix (b : BuiltHead) : BuiltHead * head_result unit :=
  match _gp_cov_layer b with
  | None => (b, HRaise (AttributeError "_gp_cov_layer"))
  | Some cov =>
      let '(cov1, r) := Laplace.reset_precision_matrix cov in
      ({| self := self b;
          norm_input_dim := norm_input_dim b;
          _random_feature := _random_feature b;
          _gp_cov_layer := Some cov1;
          gp_output_weights := gp_output_weights b;
          _gp_output_bias := _gp_output_bias b |}, of_layer r)
  end.

End WithLayers.

(** The random feature layer is one built for inputs of width [m]. *)
Definition layer_fits (h : RandomFeatureGaussianProcess)
    (layer : random_feature_layer) (m : nat) : Prop :=
  match layer with
  | RandomFourierFeatures m' => m' = m
  | LambdaIdentity => True
  | DenseFeatures kernel bias =>
      shape kernel = (m, num_inducing h) /\ shape bias = (1%nat, num_inducing h)
  end.

(** The sublayers of a head as [build] creates them for inputs of width
    [m], and as calls keep them. *)
Definition well_formed (m : nat) (b : BuiltHead) : Prop :=
  let n := feature_dim (self b) (_random_feature b) m in
  norm_input_dim b = m /\
  layer_fits (self b) (_random_feature b) m /\
  shape (gp_output_weights b) = (n, units (self b)) /\
  shape (_gp_output_bias b) = (1%nat, units (self b)) /\
  match _gp_cov_layer b with
  | Some cov =>
      return_gp_cov (self b) = true /\
      Laplace.well_shaped n cov /\
      Laplace.initial_precision_matrix cov = zeros n n /\
      Laplace.likelihood (Laplace.self cov) = gp_cov_likelihood (self b)
  | None => return_gp_cov (self b) = false
  end.

(** The head with another length scale: [gp_kernel_scale] and the
    [gp_input_scale] that [__init__] derives from it. *)
Definition with_kernel_scale (b : BuiltHead) (scale0 : option R) : BuiltHead :=
  let h := self b in
  {| self :=
       {| units := units h;
          num_inducing := num_inducing h;
          normalize_input := normalize_input h;
          gp_input_scale :=
            match scale0 with
            | Some s => Some (1 / sqrt s)
            | None => None
            end;
          gp_feature_scale := gp_feature_scale h;
          scale_random_features := scale_random_features h;
          return_random_features := return_random_features h;
          return_gp_cov := return_gp_cov h;
          gp_kernel_type := gp_kernel_type h;
          gp_kernel_scale := scale0;
          gp_output_bias := gp_output_bias h;
          use_custom_random_features := use_custom_random_features h;
          custom_random_features_activation := custom_random_features_activation h;
          gp_cov_momentum := gp_cov_momentum h;
          gp_cov_ridge_penalty := gp_cov_ridge_penalty h;
          gp_cov_likelihood := gp_cov_likelihood h |};
     norm_input_dim := norm_input_dim b;
     _random_feature := _random_feature b;
     _gp_cov_layer := _gp_cov_layer b;
     gp_output_weights := gp_output_weights b;
     _gp_output_bias := _gp_output_bias b |}.

End GPHead.

(** Layers for examples: a normalisation and Fourier features that return
    zeros. *)
Module ZeroLayers.

Definition keras : KerasLayers :=
  {| layer_normalization_entries := fun _ _ _ => 0;
     random_fourier_entries := fun _ _ _ _ _ _ => 0 |}.

End ZeroLayers.

Module GPHeadExamples.
Import GPHead.



(** The head [init] returns for the default arguments. *)
Definition default_head (units0 n : nat) (likelihood0 : string)
  : RandomFeatureGaussianProcess :=
  {| units := units0;
     num_inducing := n;
     normalize_input := true;
     gp_input_scale := Some (1 / sqrt 1);
     gp_feature_scale := sqrt (2 / INR n);
     scale_random_features := true;
     return_random_features := false;
     return_gp_cov := true;
     gp_kernel_type := "gaussian";
     gp_kernel_scale := Some 1;
     gp_output_bias := 0;
     use_custom_random_features := true;
     custom_random_features_activation := Some cos;
     gp_cov_momentum := 0.999;
     gp_cov_ridge_penalty := 1e-6;
     gp_cov_likelihood := likelihood0 |}.

(** The default head with custom features and the kernel type "Linear". *)
Definition linear_head : RandomFeatureGaussianProcess :=
  {| units := 10;
     num_inducing := 4;
     normalize_input := true;
     gp_input_scale := Some (1 / sqrt 1);
     gp_feature_scale := sqrt (2 / INR 4);
     scale_random_features := true;
     return_random_features := false;
     return_gp_cov := true;
     gp_kernel_type := "Linear";
     gp_kernel_scale := Some 1;
     gp_output_bias := 0;
     use_custom_random_features := true;
     custom_random_features_activation := Some cos;
     gp_cov_momentum := 0.999;
     gp_cov_ridge_penalty := 1e-6;
     gp_cov_likelihood := "gaussian" |}.

Definition zero_draws : head_draws :=
  {| random_feature_kernel := fun _ _ => 0;
     random_feature_bias := fun _ => 0;
     output_kernel := fun _ _ => 0;
     covariance_initial := fun _ _ => 0 |}.

(** Three inputs of width 2. *)
Definition inputs_3x2 : matrix := {| nrows := 3; ncols := 2; entry := fun _ _ => 1 |}.

End GPHeadExamples.

(** * Facts about the spectral-normalisation wrapper *)

Module StoreFacts.

Lemma read_assign_same (s : store) (x : var) (t : tensor) :
  read (assign s x t) x = t.
Proof. unfold read, assign; simpl. now rewrite Nat.eqb_refl. Qed.

Lemma read_assign_other (s : store) (x y : var) (t : tensor) :
  y <> x -> read (assign s x t) y = read s y.
Proof.
  intros Hne; unfold read, assign; simpl.
  destruct (Nat.eqb_spec y x); [contradiction | reflexivity].
Qed.

(** Writing back the value a variable already holds changes no cell. *)
Lemma assign_own_value (s : store) (x y : var) :
  read (assign s x (read s x)) y = read s y.
Proof.
  unfold read, assign; simpl.
  destruct (Nat.eqb_spec y x); [now subst | reflexivity].
Qed.

End StoreFacts.

Module TensorFacts.

Lemma sum_squares_nonneg (x : tensor) : 0 <= sum_squares x.
Proof.
  unfold sum_squares, reduce_sum.
  induction x as [|a x IH]; simpl; [lra|].
  pose proof (Rle_0_sqr a) as Ha; unfold Rsqr in Ha; lra.
Qed.

Lemma sum_squares_scaled (k : R) (x : tensor) :
  sum_squares (map (fun a => a * k) x) = sum_squares x * (k * k).
Proof.
  unfold sum_squares, reduce_sum.
  induction x as [|a x IH]; simpl; [lra|].
  rewrite IH; ring.
Qed.

Lemma l2_epsilon_pos : 0 < l2_epsilon.
Proof. unfold l2_epsilon; lra. Qed.

(** The squared norm of the normalised tensor: 1 above the threshold, and
    the squared norm over [epsilon] below it. *)
Lemma sum_squares_l2_normalize (x : tensor) :
  sum_squares (l2_normalize x) =
  sum_squares x / Rmax (sum_squares x) l2_epsilon.
Proof.
  unfold l2_normalize.
  rewrite sum_squares_scaled.
  set (q := Rmax (sum_squares x) l2_epsilon).
  assert (Hq : 0 < q).
  { unfold q. pose proof (Rmax_r (sum_squares x) l2_epsilon).
    pose proof l2_epsilon_pos. lra. }
  assert (Hs : sqrt q * sqrt q = q) by (apply sqrt_sqrt; lra).
  assert (Hsq : sqrt q <> 0).
  { intros H0. rewrite H0 in Hs. lra. }
  unfold Rdiv. rewrite <- Hs at 3.
  field. exact Hsq.
Qed.

(** [l2_normalize] returns a unit vector exactly when the squared norm of
    its argument reaches [epsilon]. *)
Lemma l2_normalize_unit_iff (x : tensor) :
  l2_norm (l2_normalize x) = 1 <-> l2_epsilon <= sum_squares x.
Proof.
  unfold l2_norm. rewrite sum_squares_l2_normalize.
  pose proof l2_epsilon_pos as He.
  pose proof (sum_squares_nonneg x) as Hx.
  split.
  - intros H1.
    destruct (Rle_dec l2_epsilon (sum_squares x)) as [Hle|Hlt]; [exact Hle|].
    exfalso.
    assert (Hmax : Rmax (sum_squares x) l2_epsilon = l2_epsilon)
      by (apply Rmax_right; lra).
    rewrite Hmax in H1.
    assert (Hq : 0 <= sum_squares x / l2_epsilon).
    { apply Rmult_le_pos; [lra|]. left. now apply Rinv_0_lt_compat. }
    assert (Hsq : sqrt (sum_squares x / l2_epsilon)
                  * sqrt (sum_squares x / l2_epsilon)
                  = sum_squares x / l2_epsilon) by (now apply sqrt_sqrt).
    rewrite H1 in Hsq.
    assert (Hx1 : sum_squares x = l2_epsilon).
    { apply (Rmult_eq_reg_r (/ l2_epsilon)).
      - unfold Rdiv in Hsq. rewrite <- Hsq. field. lra.
      - apply Rinv_neq_0_compat. lra. }
    lra.
  - intros Hle.
    rewrite Rmax_left by lra.
    replace (sum_squares x / sum_squares x) with 1 by (field; lra).
    apply sqrt_1.
Qed.

(** Dividing by the L2 norm, as the normalisation is usually described,
    agrees with [l2_normalize] above the threshold. *)
Lemma l2_normalize_divides_by_norm (x : tensor) :
  l2_epsilon <= sum_squares x ->
  l2_normalize x = map (fun a => a / l2_norm x) x.
Proof.
  intros Hle. unfold l2_normalize, l2_norm.
  pose proof l2_epsilon_pos.
  rewrite Rmax_left by lra. reflexivity.
Qed.

End TensorFacts.

Module SpectralNormFacts.
Import SpectralNorm StoreFacts TensorFacts.

(** [build] makes [self.w] a second name of the layer's kernel. *)
Lemma build_references (s : store) (self0 : SpectralNormalizationConv2D)
    (kernel0 v0 u0 : tensor) :
  references_as_built (snd (build s self0 kernel0 v0 u0)).
Proof.
  unfold references_as_built, build, add_weight; simpl.
  repeat split; lia.
Qed.

(** [init] accepts a Conv2D layer and stores its arguments. *)
Lemma init_conv_layer :
  snd (init SpectralExamples.conv_layer 1 0.95 true false)
  = Ok (SpectralExamples.wrapper 1 0.95 true).
Proof. reflexivity. Qed.

(** The predicate of [tf.cond] for a non-zero estimate is the comparison of
    the real quotient with 1. *)
Lemma quotient_lt_1_nonzero (c sigma : R) :
  sigma <> 0 ->
  quotient_lt_1 c sigma = if Rlt_dec (c / sigma) 1 then true else false.
Proof.
  intros Hs. unfold quotient_lt_1.
  destruct (Req_EM_T sigma 0); [contradiction | reflexivity].
Qed.

(** For the estimate 0 the quotient is [+inf], NaN or [-inf], by the sign of
    the multiplier. *)
Lemma quotient_lt_1_zero (c : R) :
  quotient_lt_1 c 0 = if Rlt_dec c 0 then true else false.
Proof.
  unfold quotient_lt_1. destruct (Req_EM_T 0 0) as [_|H]; [reflexivity|].
  now contradiction H.
Qed.

(** The predicate is true exactly when the quotient is below 1. *)
Lemma quotient_lt_1_true (c sigma : R) :
  quotient_lt_1 c sigma = true <->
  (sigma <> 0 /\ c / sigma < 1) \/ (sigma = 0 /\ c < 0).
Proof.
  unfold quotient_lt_1.
  destruct (Req_EM_T sigma 0) as [H0|Hn].
  - destruct (Rlt_dec c 0); split; tauto || discriminate.
  - destruct (Rlt_dec (c / sigma) 1); split; tauto || discriminate.
Qed.

(** An estimate between 0 and the multiplier never selects the rescaling. *)
Lemma quotient_lt_1_within_budget (c sigma : R) :
  0 <= sigma <= c -> quotient_lt_1 c sigma = false.
Proof.
  intros [Hpos Hle].
  destruct (quotient_lt_1 c sigma) eqn:Hq; [|reflexivity].
  apply quotient_lt_1_true in Hq.
  destruct Hq as [[Hs Hlt] | [Hs Hc]]; [|lra].
  exfalso. assert (1 <= c / sigma); [|lra].
  unfold Rdiv. apply (Rmult_le_reg_r sigma); [lra|].
  rewrite Rmult_assoc, Rinv_l by lra. lra.
Qed.

Section WithBackend.
Context {backend : ConvBackend}.

(** The loop runs its body [n] times. *)
Lemma power_iteration_iter (n : nat) (W : tensor) (uv : tensor * tensor) :
  power_iteration n W uv = Nat.iter n (power_step W) uv.
Proof.
  revert uv. induction n as [|n IH]; intros uv; [reflexivity|].
  simpl power_iteration. rewrite IH.
  clear IH. induction n as [|n IH]; [reflexivity|].
  simpl. simpl in IH. now rewrite IH.
Qed.

(** With the references of [build], [restore_weights] assigns to the kernel
    the value it already holds. *)
Lemma restore_weights_noop (b : Built) (s : store) (x : var) :
  w b = layer_kernel b ->
  read (restore_weights b s) x = read s x.
Proof.
  intros Halias. unfold restore_weights. rewrite Halias.
  apply assign_own_value.
Qed.

(** The kernel selected by [tf.cond] in [update_weights]. *)
Lemma kernel_used_cond (b : Built) (s : store) :
  references_as_built b ->
  kernel_used b s =
  if quotient_lt_1 (norm_multiplier (self b)) (sigma_of b s)
  then scale (norm_multiplier (self b) / sigma_of b s) (read s (w b))
  else read s (w b).
Proof.
  intros (Hw & Hv & Hu & Huv).
  unfold kernel_used, update_weights, sigma_of.
  destruct (estimate_uv b s) as [u_hat v_hat].
  rewrite read_assign_same.
  rewrite !read_assign_other by congruence.
  reflexivity.
Qed.

(** After [call] the kernel variable holds the kernel the layer used. *)
Lemma call_persists_used_kernel (b : Built) (s : store) (inputs : tensor) :
  references_as_built b ->
  read (fst (call b s inputs)) (layer_kernel b) = kernel_used b s.
Proof.
  intros (Hw & _). unfold call; cbn [fst].
  now rewrite restore_weights_noop.
Qed.

(** The values of [u] and [v] after [call]. *)
Lemma call_persists_uv (b : Built) (s : store) (inputs : tensor) :
  references_as_built b ->
  read (fst (call b s inputs)) (u b) = fst (estimate_uv b s) /\
  read (fst (call b s inputs)) (v b) = snd (estimate_uv b s).
Proof.
  intros (Hw & Hv & Hu & Huv). unfold call; cbn [fst].
  rewrite !restore_weights_noop by exact Hw.
  unfold update_weights.
  destruct (estimate_uv b s) as [u_hat v_hat]; cbn [fst snd].
  split.
  - rewrite !read_assign_other by congruence. apply read_assign_same.
  - rewrite read_assign_other by congruence. apply read_assign_same.
Qed.

End WithBackend.

(** *** Evaluation on the 1x1 backend *)

Lemma l2_normalize_positive_singleton (a : R) :
  0 < a -> l2_epsilon <= a * a -> l2_normalize [a] = [1].
Proof.
  intros Ha Hle. unfold l2_normalize, sum_squares; simpl.
  rewrite Rmax_left by lra.
  replace (a * a + 0) with (a * a) by ring.
  rewrite sqrt_square by lra.
  f_equal. field. lra.
Qed.

Lemma l2_normalize_zero_singleton : l2_normalize [0] = [0].
Proof. unfold l2_normalize; simpl. f_equal. ring. Qed.

Lemma l2_normalize_zero_pair : l2_normalize [0; 0] = [0; 0].
Proof. unfold l2_normalize; simpl. now rewrite !Rmult_0_l. Qed.

Lemma pw_conv2d_1_1 (x k : R) : Pointwise.pw_conv2d 1 1 [x] [k] = [x * k].
Proof. unfold Pointwise.pw_conv2d; simpl. f_equal. ring. Qed.

Lemma pw_conv2d_transpose_1_1 (y k : R) :
  Pointwise.pw_conv2d_transpose 1 1 [y] [k] = [y * k].
Proof. unfold Pointwise.pw_conv2d_transpose; simpl. f_equal. ring. Qed.

Lemma pw_conv2d_1_2 (x k0 k1 : R) :
  Pointwise.pw_conv2d 1 2 [x] [k0; k1] = [x * k0; x * k1].
Proof.
  unfold Pointwise.pw_conv2d; simpl.
  f_equal; [ring | f_equal; ring].
Qed.

Lemma pw_conv2d_transpose_1_2 (y0 y1 k0 k1 : R) :
  Pointwise.pw_conv2d_transpose 1 2 [y0; y1] [k0; k1] = [y0 * k0 + y1 * k1].
Proof. unfold Pointwise.pw_conv2d_transpose; simpl. f_equal. ring. Qed.

(** One power step on a positive 1x1 kernel turns [u] and [v] into [[1]]. *)
Lemma power_step_1_1 (k y x : R) :
  0 < y -> 0 < k -> l2_epsilon <= (y * k) * (y * k) -> l2_epsilon <= k * k ->
  @power_step (Pointwise.backend 1 1) [k] ([y], [x]) = ([1], [1]).
Proof.
  intros Hy Hk Hyk Hkk. unfold power_step; cbn [fst conv2d conv2d_transpose Pointwise.backend].
  rewrite pw_conv2d_transpose_1_1.
  rewrite (l2_normalize_positive_singleton (y * k)); [|nra|exact Hyk].
  rewrite pw_conv2d_1_1.
  rewrite (l2_normalize_positive_singleton (1 * k)); [reflexivity|lra|].
  replace (1 * k * (1 * k)) with (k * k) by ring. exact Hkk.
Qed.

Lemma leak_state_estimate :
  @estimate_uv (Pointwise.backend 1 1)
    (snd SpectralExamples.leak_state) (fst SpectralExamples.leak_state)
  = ([1], [1]).
Proof.
  unfold estimate_uv; cbn.
  apply power_step_1_1; unfold l2_epsilon; lra.
Qed.

Lemma leak_state_sigma :
  @sigma_of (Pointwise.backend 1 1)
    (snd SpectralExamples.leak_state) (fst SpectralExamples.leak_state) = 2.
Proof.
  unfold sigma_of. rewrite leak_state_estimate.
  cbn [conv2d Pointwise.backend]. cbn [SpectralExamples.leak_state build add_weight fst snd w read cells Store.empty next_var Nat.eqb].
  rewrite pw_conv2d_1_1. unfold dot; simpl. ring.
Qed.

Lemma within_budget_estimate :
  @estimate_uv (Pointwise.backend 1 1)
    (snd SpectralExamples.within_budget_state)
    (fst SpectralExamples.within_budget_state)
  = ([1], [1]).
Proof.
  unfold estimate_uv; cbn.
  apply power_step_1_1; unfold l2_epsilon; lra.
Qed.

Lemma within_budget_sigma :
  @sigma_of (Pointwise.backend 1 1)
    (snd SpectralExamples.within_budget_state)
    (fst SpectralExamples.within_budget_state) = 0.5.
Proof.
  unfold sigma_of. rewrite within_budget_estimate.
  cbn [conv2d Pointwise.backend]. cbn [SpectralExamples.within_budget_state build add_weight fst snd w read cells Store.empty next_var Nat.eqb].
  rewrite pw_conv2d_1_1. unfold dot; simpl. ring.
Qed.

Lemma negative_state_sigma :
  @sigma_of (Pointwise.backend 1 1)
    (snd SpectralExamples.negative_state) (fst SpectralExamples.negative_state)
  = -1.
Proof.
  unfold sigma_of, estimate_uv.
  cbn [SpectralExamples.negative_state SpectralExamples.wrapper build add_weight
       fst snd self do_power_iteration u v w read cells Store.empty next_var
       Nat.eqb conv2d Pointwise.backend].
  rewrite pw_conv2d_1_1. unfold dot; simpl. ring.
Qed.

Lemma degenerate_state_estimate :
  @estimate_uv (Pointwise.backend 1 2)
    (snd SpectralExamples.degenerate_state)
    (fst SpectralExamples.degenerate_state)
  = ([0; 0], [0]).
Proof.
  unfold estimate_uv; cbn.
  unfold power_step; cbn [fst conv2d conv2d_transpose Pointwise.backend].
  rewrite pw_conv2d_transpose_1_2.
  replace (0 * 1 + 1 * 0) with 0 by ring.
  rewrite l2_normalize_zero_singleton.
  rewrite pw_conv2d_1_2.
  replace (0 * 1) with 0 by ring. replace (0 * 0) with 0 by ring.
  now rewrite l2_normalize_zero_pair.
Qed.

Lemma degenerate_state_sigma :
  @sigma_of (Pointwise.backend 1 2)
    (snd SpectralExamples.degenerate_state)
    (fst SpectralExamples.degenerate_state) = 0.
Proof.
  unfold sigma_of. rewrite degenerate_state_estimate.
  cbn [conv2d Pointwise.backend].
  cbn [SpectralExamples.degenerate_state build add_weight fst snd w read cells
       Store.empty next_var Nat.eqb].
  rewrite pw_conv2d_1_2. unfold dot; simpl. ring.
Qed.

End SpectralNormFacts.

(** * The specification of the spectral-normalisation wrapper *)

Module SpectralNormSpec.
Import SpectralNorm StoreFacts TensorFacts SpectralNormFacts.

(** C1, evaluated on the code.  The claim is that after every forward call
    the kernel variable of the wrapped layer holds its value from before the
    call.  On the default configuration (one power iteration, multiplier
    0.95) with the kernel [[2]] and [u = v = [1]], the estimated singular
    value is 2, the layer runs with the kernel [[0.95]], and [[0.95]] is what
    the variable holds after the call: [self.w] is the kernel variable
    itself, so [restore_weights] writes the rescaled value back. *)
Theorem call_leaves_rescaled_kernel :
  let s := fst SpectralExamples.leak_state in
  let b := snd SpectralExamples.leak_state in
  let s' := fst (@call (Pointwise.backend 1 1) b s [1]) in
  read s (layer_kernel b) = [2] /\
  read s' (layer_kernel b) = [0.95] /\
  read s' (layer_kernel b) <> read s (layer_kernel b).
Proof.
  cbv zeta.
  assert (Hk : read (fst (@call (Pointwise.backend 1 1)
                            (snd SpectralExamples.leak_state)
                            (fst SpectralExamples.leak_state) [1]))
                    (layer_kernel (snd SpectralExamples.leak_state)) = [0.95]).
  { rewrite call_persists_used_kernel by apply build_references.
    rewrite kernel_used_cond by apply build_references.
    rewrite leak_state_sigma, quotient_lt_1_nonzero by lra.
    destruct (Rlt_dec _ 1) as [_|Hn].
    - cbn. f_equal. lra.
    - exfalso. apply Hn. cbn. lra. }
  split; [reflexivity|]. split; [exact Hk|].
  rewrite Hk. cbn. intros Heq. injection Heq as Heq. lra.
Qed.

(** C4 as stated fails: with power iteration switched off, the kernel [[1]],
    [v = [1]] and [u = [-1]], the estimate is [sigma = -1], which is below
    the multiplier 0.95, and yet the layer runs with the kernel [[-0.95]]. *)
Lemma negative_sigma_rescales :
  let s := fst SpectralExamples.negative_state in
  let b := snd SpectralExamples.negative_state in
  @sigma_of (Pointwise.backend 1 1) b s <= norm_multiplier (self b) /\
  @kernel_used (Pointwise.backend 1 1) b s <> read s (w b).
Proof.
  cbv zeta. rewrite negative_state_sigma. split; [cbn; lra|].
  rewrite kernel_used_cond by apply build_references.
  rewrite negative_state_sigma, quotient_lt_1_nonzero by lra.
  destruct (Rlt_dec _ 1) as [_|Hn].
  - cbn. intros Heq. injection Heq as Heq. lra.
  - exfalso. apply Hn. cbn. lra.
Qed.

(** C4, amended.  In every forward call the wrapped layer runs with the
    kernel selected by the test [c / sigma < 1] on the multiplier [c] and
    the estimate [sigma].  For a non-zero estimate the layer runs with the
    stored kernel [W] when the quotient is at least 1 and with
    [(c / sigma) * W] otherwise.  For the estimate 0 and a multiplier that
    is not negative the quotient is [+inf] or NaN, the test fails and the
    layer runs with [W].  Hence the layer runs with the stored kernel
    whenever [0 <= sigma <= c]. *)
Theorem rescaling_policy {backend : ConvBackend}
    (b : Built) (s : store) (inputs : tensor) :
  references_as_built b ->
  let W := read s (w b) in
  let c := norm_multiplier (self b) in
  let sigma := sigma_of b s in
  snd (call b s inputs) = layer_call (kernel_used b s) inputs /\
  (sigma <> 0 -> c / sigma >= 1 -> kernel_used b s = W) /\
  (sigma <> 0 -> ~ c / sigma >= 1 -> kernel_used b s = scale (c / sigma) W) /\
  (sigma = 0 -> 0 <= c -> kernel_used b s = W) /\
  (0 <= sigma <= c -> kernel_used b s = W).
Proof.
  intros Hrefs W c sigma.
  pose proof (kernel_used_cond b s Hrefs) as Hused.
  fold W c sigma in Hused.
  split; [reflexivity|]. rewrite Hused.
  split; [|split; [|split]].
  - intros Hs Hge. rewrite quotient_lt_1_nonzero by exact Hs.
    destruct (Rlt_dec (c / sigma) 1); [lra | reflexivity].
  - intros Hs Hlt. rewrite quotient_lt_1_nonzero by exact Hs.
    destruct (Rlt_dec (c / sigma) 1); [reflexivity | lra].
  - intros Hs Hc. rewrite Hs, quotient_lt_1_zero.
    destruct (Rlt_dec c 0); [lra | reflexivity].
  - intros Hle. now rewrite quotient_lt_1_within_budget.
Qed.

(** The policy on three kernels: [[2]] is over the budget and is scaled by
    [0.95 / 2]; [[0.5]] is within it and is used as it is; [[1; 0]] with
    [u = [0; 1]] has the estimate 0 and is used as it is. *)
Lemma rescaling_policy_witness :
  references_as_built (snd SpectralExamples.leak_state) /\
  references_as_built (snd SpectralExamples.within_budget_state) /\
  references_as_built (snd SpectralExamples.degenerate_state) /\
  (let s := fst SpectralExamples.leak_state in
   let b := snd SpectralExamples.leak_state in
   @kernel_used (Pointwise.backend 1 1) b s = scale (0.95 / 2) [2]) /\
  (let s := fst SpectralExamples.within_budget_state in
   let b := snd SpectralExamples.within_budget_state in
   @kernel_used (Pointwise.backend 1 1) b s = [0.5]) /\
  (let s := fst SpectralExamples.degenerate_state in
   let b := snd SpectralExamples.degenerate_state in
   @sigma_of (Pointwise.backend 1 2) b s = 0 /\
   @kernel_used (Pointwise.backend 1 2) b s = [1; 0]).
Proof.
  split; [apply build_references|]. split; [apply build_references|].
  split; [apply build_references|].
  split; [|split]; cbv zeta.
  - pose proof (@rescaling_policy (Pointwise.backend 1 1)
                  (snd SpectralExamples.leak_state)
                  (fst SpectralExamples.leak_state) [1]
                  (build_references _ _ _ _ _)) as (_ & _ & Hscale & _).
    rewrite leak_state_sigma in Hscale.
    apply Hscale; cbn; lra.
  - pose proof (@rescaling_policy (Pointwise.backend 1 1)
                  (snd SpectralExamples.within_budget_state)
                  (fst SpectralExamples.within_budget_state) [1]
                  (build_references _ _ _ _ _)) as (_ & _ & _ & _ & Hkeep).
    rewrite within_budget_sigma in Hkeep.
    apply Hkeep. cbn. lra.
  - split; [exact degenerate_state_sigma|].
    pose proof (@rescaling_policy (Pointwise.backend 1 2)
                  (snd SpectralExamples.degenerate_state)
                  (fst SpectralExamples.degenerate_state) [1]
                  (build_references _ _ _ _ _)) as (_ & _ & _ & Hzero & _).
    apply Hzero; [exact degenerate_state_sigma | cbn; lra].
Defined.

(** C5 as stated fails: the kernel [[1; 0]] (one input channel, two output
    channels) is not zero and one power iteration runs, but with
    [u = [0; 1]] the transposed convolution of [u] is zero, and the call
    leaves [v = [0]] and [u = [0; 0]], whose norms are 0. *)
Lemma nonzero_kernel_zero_vectors :
  let s := fst SpectralExamples.degenerate_state in
  let b := snd SpectralExamples.degenerate_state in
  let s' := fst (@call (Pointwise.backend 1 2) b s [1]) in
  do_power_iteration (self b) = true /\
  (1 <= iteration (self b))%nat /\
  nonzero (read s (w b)) /\
  l2_norm (read s' (u b)) <> 1 /\
  l2_norm (read s' (v b)) <> 1.
Proof.
  cbv zeta.
  destruct (@call_persists_uv (Pointwise.backend 1 2)
              (snd SpectralExamples.degenerate_state)
              (fst SpectralExamples.degenerate_state) [1]
              (build_references _ _ _ _ _)) as [Hu Hv].
  rewrite Hu, Hv, degenerate_state_estimate.
  split; [reflexivity|]. split; [cbn; lia|]. split.
  - exists 1. split; [cbn; auto | lra].
  - unfold l2_norm, sum_squares; cbn.
    replace (0 * 0 + (0 * 0 + 0)) with 0 by ring.
    replace (0 * 0 + 0) with 0 by ring.
    rewrite sqrt_0. split; lra.
Qed.

(** C5, amended.  With the estimate flag set, a forward call runs the loop
    body [iteration] times: [v <- l2_normalize(conv_transpose(u, W))], then
    [u <- l2_normalize(conv(v, W))], and stores the results; [l2_normalize]
    divides by the square root of [max(sum of squares, 1e-12)], which is the
    L2 norm of the flattened tensor when the sum of squares reaches 1e-12.
    For [iteration >= 1] the stored [v] (the stored [u]) has unit L2 norm
    exactly when the tensor normalised last, [conv_transpose(u, W)]
    ([conv(v, W)]), has a sum of squares of at least 1e-12.  With the flag
    unset the stored [u] and [v] are unchanged. *)
Theorem power_iteration_persisted {backend : ConvBackend}
    (b : Built) (s : store) (inputs : tensor) :
  references_as_built b ->
  let W := read s (w b) in
  let u0 := read s (u b) in
  let v0 := read s (v b) in
  let s' := fst (call b s inputs) in
  (do_power_iteration (self b) = true ->
   (read s' (u b), read s' (v b))
   = Nat.iter (iteration (self b)) (power_step W) (u0, v0)) /\
  (forall uv,
     power_step W uv
     = (l2_normalize (conv2d (l2_normalize (conv2d_transpose (fst uv) W)) W),
        l2_normalize (conv2d_transpose (fst uv) W))) /\
  (forall x, l2_epsilon <= sum_squares x ->
     l2_normalize x = map (fun a => a / l2_norm x) x) /\
  (do_power_iteration (self b) = true ->
   forall k, iteration (self b) = S k ->
     let prev := Nat.iter k (power_step W) (u0, v0) in
     let v_ := conv2d_transpose (fst prev) W in
     let u_ := conv2d (l2_normalize v_) W in
     (l2_norm (read s' (v b)) = 1 <-> l2_epsilon <= sum_squares v_) /\
     (l2_norm (read s' (u b)) = 1 <-> l2_epsilon <= sum_squares u_)) /\
  (do_power_iteration (self b) = false ->
   read s' (u b) = u0 /\ read s' (v b) = v0).
Proof.
  intros Hrefs W u0 v0 s'.
  destruct (call_persists_uv b s inputs Hrefs) as [Hu Hv].
  fold s' in Hu, Hv.
  assert (Hest : do_power_iteration (self b) = true ->
                 estimate_uv b s
                 = Nat.iter (iteration (self b)) (power_step W) (u0, v0)).
  { intros Hflag. unfold estimate_uv. rewrite Hflag.
    apply power_iteration_iter. }
  split; [|split; [|split; [|split]]].
  - intros Hflag. rewrite Hu, Hv, <- Hest by exact Hflag.
    now destruct (estimate_uv b s).
  - reflexivity.
  - apply l2_normalize_divides_by_norm.
  - intros Hflag k Hk prev v_ u_.
    rewrite Hu, Hv, Hest by exact Hflag.
    rewrite Hk. cbn [Nat.iter nat_rect]. fold prev.
    unfold power_step; cbn [fst snd]. fold v_. fold u_.
    split; apply l2_normalize_unit_iff.
  - intros Hflag. rewrite Hu, Hv. unfold estimate_uv. rewrite Hflag.
    split; reflexivity.
Qed.

(** On the kernel [[2]] with [u = v = [1]] one iteration stores unit
    vectors. *)
Lemma power_iteration_persisted_witness :
  let s := fst SpectralExamples.leak_state in
  let b := snd SpectralExamples.leak_state in
  let s' := fst (@call (Pointwise.backend 1 1) b s [1]) in
  references_as_built b /\
  l2_norm (read s' (v b)) = 1 /\ l2_norm (read s' (u b)) = 1.
Proof.
  cbv zeta. split; [apply build_references|].
  pose proof (@power_iteration_persisted (Pointwise.backend 1 1)
                (snd SpectralExamples.leak_state)
                (fst SpectralExamples.leak_state) [1]
                (build_references _ _ _ _ _)) as (_ & _ & _ & Hunit & _).
  destruct (Hunit eq_refl O eq_refl) as [Hv Hu].
  split.
  - apply Hv. cbn. unfold sum_squares, l2_epsilon; simpl. lra.
  - apply Hu. cbn [Nat.iter nat_rect fst conv2d conv2d_transpose Pointwise.backend].
    cbn [SpectralExamples.leak_state build add_weight fst snd u v w read cells
         Store.empty next_var Nat.eqb].
    rewrite pw_conv2d_transpose_1_1.
    rewrite (l2_normalize_positive_singleton (1 * 2))
      by (unfold l2_epsilon; lra).
    rewrite pw_conv2d_1_1.
    unfold sum_squares, l2_epsilon; simpl. lra.
Defined.

(** C9, evaluated on the code.  The claim is that a construction rejected
    for its layer leaves that layer unmodified.  For a Dense layer named
    "dense" the constructor raises ValueError, and the layer object is then
    named "dense_spec_norm": the name is extended before the class is
    checked. *)
Theorem init_renames_rejected_layer :
  init SpectralExamples.dense_layer 1 0.95 true false
  = ({| layer_cls := Dense; _name := "dense_spec_norm" |},
     Raise (ValueError "layer must be a `tf.keras.layer.Conv2D` instance.")) /\
  fst (init SpectralExamples.dense_layer 1 0.95 true false)
  <> SpectralExamples.dense_layer.
Proof.
  split; [reflexivity|]. cbn. discriminate.
Qed.

(** Every layer that is not a Conv2D is rejected with ValueError, after its
    name has been extended. *)
Lemma init_rejects_other_layers (l : KerasLayer) (k : nat) (c : R)
    (training legacy : bool) :
  isinstance_Conv2D l = false ->
  (exists msg, snd (init l k c training legacy) = Raise (ValueError msg)) /\
  _name (fst (init l k c training legacy)) = (_name l ++ "_spec_norm")%string.
Proof.
  intros Hcls. unfold init.
  assert (Hcls' : isinstance_Conv2D
            {| layer_cls := layer_cls l;
               _name := (_name l ++ "_spec_norm")%string |} = false)
    by exact Hcls.
  rewrite Hcls'. cbn. split; [eexists; reflexivity | reflexivity].
Qed.

End SpectralNormSpec.

(** * Facts about rank-2 tensors *)

Module MatrixFacts.

Lemma mat_eq_refl (A : matrix) : mat_eq A A.
Proof. repeat split. Qed.

Lemma mat_eq_sym (A B : matrix) : mat_eq A B -> mat_eq B A.
Proof.
  intros (Hr & Hc & He). repeat split; try congruence.
  intros i j Hi Hj. symmetry. apply He; congruence.
Qed.

Lemma mat_eq_trans (A B C : matrix) : mat_eq A B -> mat_eq B C -> mat_eq A C.
Proof.
  intros (Hr & Hc & He) (Hr' & Hc' & He'). repeat split; try congruence.
  intros i j Hi Hj. rewrite He by assumption. apply He'; congruence.
Qed.

Lemma sum_n_ext (n : nat) (f g : nat -> R) :
  (forall k, (k < n)%nat -> f k = g k) -> sum_n n f = sum_n n g.
Proof.
  induction n as [|n IH]; intros Hfg; [reflexivity|].
  simpl. rewrite IH by (intros; apply Hfg; lia).
  rewrite Hfg by lia. reflexivity.
Qed.

Lemma sum_n_scale (n : nat) (c : R) (f : nat -> R) :
  sum_n n (fun k => c * f k) = c * sum_n n f.
Proof.
  induction n as [|n IH]; simpl; [ring|]. rewrite IH. ring.
Qed.

Lemma shape_eqb_eq (s t : nat * nat) : shape_eqb s t = true <-> s = t.
Proof.
  destruct s as [a b], t as [c d]; unfold shape_eqb; simpl.
  rewrite andb_true_iff, !Nat.eqb_eq. split.
  - intros [-> ->]; reflexivity.
  - intros H; injection H; auto.
Qed.

Lemma shape_eqb_refl (s : nat * nat) : shape_eqb s s = true.
Proof. now apply shape_eqb_eq. Qed.

Lemma broadcast_dim_same (d : nat) : broadcast_dim d d = Some d.
Proof. unfold broadcast_dim. now rewrite Nat.eqb_refl. Qed.

Lemma broadcast_dim_one_l (d : nat) : broadcast_dim 1 d = Some d.
Proof.
  unfold broadcast_dim.
  destruct (Nat.eqb_spec 1 d); [now subst | reflexivity].
Qed.

Lemma broadcast_index_lt (dim i : nat) :
  (i < dim)%nat -> broadcast_index dim i = i.
Proof.
  intros Hlt. unfold broadcast_index.
  destruct (Nat.eqb_spec dim 1); [lia | reflexivity].
Qed.

(** Two tensors of one shape are combined entry by entry. *)
Lemma broadcast2_same_shape (op : R -> R -> R) (A B : matrix) :
  shape A = shape B ->
  exists C, broadcast2 op A B = Ok C /\ shape C = shape A /\
    forall i j, (i < nrows A)%nat -> (j < ncols A)%nat ->
      entry C i j = op (entry A i j) (entry B i j).
Proof.
  unfold shape. intros Hs. injection Hs as Hr Hc.
  unfold broadcast2. rewrite <- Hr, <- Hc, !broadcast_dim_same.
  eexists. split; [reflexivity|]. split; [reflexivity|].
  intros i j Hi Hj. cbn [entry].
  now rewrite !broadcast_index_lt by assumption.
Qed.

(** A column of [b] weights times a [b x d] tensor scales the rows. *)
Lemma broadcast2_column (op : R -> R -> R) (L A : matrix) :
  nrows L = nrows A -> ncols L = 1%nat ->
  exists C, broadcast2 op L A = Ok C /\ shape C = shape A /\
    forall i j, (i < nrows A)%nat -> (j < ncols A)%nat ->
      entry C i j = op (entry L i 0%nat) (entry A i j).
Proof.
  intros Hr Hc. unfold broadcast2.
  rewrite Hr, Hc, broadcast_dim_same, broadcast_dim_one_l.
  eexists. split; [reflexivity|]. split; [reflexivity|].
  intros i j Hi Hj. cbn [entry].
  rewrite !(broadcast_index_lt (nrows A)) by assumption.
  rewrite (broadcast_index_lt (ncols A)) by assumption.
  reflexivity.
Qed.

Lemma matmul_ok (A B : matrix) :
  ncols A = nrows B -> matmul A B = Ok (mat_prod A B).
Proof.
  intros H. unfold matmul, mat_prod.
  destruct (Nat.eqb_spec (ncols A) (nrows B)); [reflexivity | contradiction].
Qed.

(** A product with equal factors, entry by entry. *)
Lemma mat_prod_ext (A A' B B' : matrix) :
  mat_eq A A' -> mat_eq B B' -> ncols A = nrows B ->
  mat_eq (mat_prod A B) (mat_prod A' B').
Proof.
  intros (Hr & Hc & He) (Hr' & Hc' & He') Hin.
  repeat split; cbn [nrows ncols mat_prod]; try assumption.
  intros i j Hi Hj. cbn [entry mat_prod]. rewrite <- Hc.
  apply sum_n_ext. intros k Hk.
  rewrite He by assumption. rewrite He' by lia. reflexivity.
Qed.

(** A scalar factor moves out of the right factor of a product. *)
Lemma mat_prod_mul_scalar (A B : matrix) (r : R) :
  mat_eq (mat_prod A (mul_scalar B r)) (scalar_mul r (mat_prod A B)).
Proof.
  repeat split. intros i j _ _. cbn.
  rewrite <- sum_n_scale. apply sum_n_ext. intros k _. ring.
Qed.

End MatrixFacts.

(** * Facts about the Laplace covariance layer *)

Module LaplaceFacts.
Import Laplace MatrixFacts.

Lemma str_in_In (x : string) (t : list string) :
  str_in x t = true <-> In x t.
Proof.
  unfold str_in. rewrite existsb_exists. split.
  - intros (y & Hin & Heq). apply String.eqb_eq in Heq. now subst.
  - intros Hin. exists x. split; [exact Hin | apply String.eqb_refl].
Qed.

Lemma build_well_shaped (self0 : LaplaceRandomFeatureCovariance)
    (input_shape : list nat) (covariance0 : nat -> nat -> R) (st : Built) :
  build self0 input_shape covariance0 = Ok st ->
  exists d, last_dim input_shape = Ok d /\ well_shaped d st /\
            if_update_covariance st = false /\ trace st = [].
Proof.
  unfold build. destruct (last_dim input_shape) as [d|e]; cbn; [|discriminate].
  intros H; injection H as <-. exists d. repeat split.
Qed.

Section WithLinalg.
Context {linalg : LinalgBackend}.

(** A training-mode call: the update is computed, then assigned if its
    shape is the shape of the precision matrix. *)
Lemma call_training (a : call_args) (st : Built) :
  is_training a = true ->
  call_with a st =
  match update_feature_precision_matrix st (arg_inputs a) (arg_logits a) with
  | Ok updated =>
      if shape_eqb (shape updated) (shape (precision_matrix st))
      then (after_training st updated, Ok (eye (nrows (arg_inputs a))))
      else (st, Raise (ValueError "Shapes are incompatible"))
  | Raise e => (st, Raise e)
  end.
Proof.
  unfold is_training, call_with, call. intros ->.
  unfold bindM, lift.
  destruct (update_feature_precision_matrix st (arg_inputs a) (arg_logits a))
    as [updated|e]; [|reflexivity].
  unfold assign_precision_matrix.
  destruct (shape_eqb (shape updated) (shape (precision_matrix st)));
    reflexivity.
Qed.

(** A training-mode call either raises and leaves the variables alone, or
    returns after the two assignments. *)
Lemma call_training_cases (a : call_args) (st : Built) :
  is_training a = true ->
  (exists e, call_with a st = (st, Raise e)) \/
  (exists updated,
     update_feature_precision_matrix st (arg_inputs a) (arg_logits a) = Ok updated /\
     shape updated = shape (precision_matrix st) /\
     call_with a st = (after_training st updated, Ok (eye (nrows (arg_inputs a))))).
Proof.
  intros Htrain. rewrite (call_training a st Htrain).
  destruct (update_feature_precision_matrix st (arg_inputs a) (arg_logits a))
    as [updated|e]; [|left; eauto].
  destruct (shape_eqb (shape updated) (shape (precision_matrix st))) eqn:Hs.
  - right. exists updated. apply shape_eqb_eq in Hs. auto.
  - left; eauto.
Qed.

(** The ridged precision matrix of well-shaped variables. *)
Lemma ridged_precision_matrix_ok (d : nat) (st : Built) :
  well_shaped d st ->
  exists ridged,
    ridged_precision_matrix st = Ok ridged /\
    mat_eq ridged
      (mat_add (scalar_mul (ridge_penalty (self st)) (eye d)) (precision_matrix st)) /\
    shape ridged = (d, d).
Proof.
  intros (HP & _ & _). unfold ridged_precision_matrix.
  unfold shape in HP. injection HP as Hr Hc. rewrite Hr.
  destruct (broadcast2_same_shape Rplus
              (scalar_mul (ridge_penalty (self st)) (eye d)) (precision_matrix st))
    as (C & HC & Hshape & Hentry).
  { unfold shape; cbn. congruence. }
  exists C. split; [exact HC|].
  unfold shape in Hshape; cbn in Hshape. injection Hshape as Hr' Hc'.
  split.
  - repeat split; cbn; try assumption.
    intros i j Hi Hj. apply Hentry; cbn; congruence.
  - unfold shape. congruence.
Qed.

(** The inversion of well-shaped variables: the sum is computed, and
    [tf.linalg.inv] returns or raises as the backend finds the sum
    invertible or not. *)
Lemma inversion_raises_spec (d : nat) (st : Built) :
  well_shaped d st ->
  exists ridged,
    ridged_precision_matrix st = Ok ridged /\
    mat_eq ridged
      (mat_add (scalar_mul (ridge_penalty (self st)) (eye d)) (precision_matrix st)) /\
    shape ridged = (d, d) /\
    inversion_raises st = (if_update_covariance st && negb (invertible ridged))%bool /\
    linalg_inv ridged
    = if invertible ridged
      then Ok {| nrows := d; ncols := d; entry := inv_entries ridged |}
      else Raise (InvalidArgumentError "Input is not invertible.").
Proof.
  intros Hws.
  destruct (ridged_precision_matrix_ok d st Hws) as (ridged & Hr & Heq & Hs).
  exists ridged. split; [exact Hr|]. split; [exact Heq|]. split; [exact Hs|].
  unfold shape in Hs. injection Hs as Hnr Hnc.
  assert (Hinv : linalg_inv ridged
                 = if invertible ridged
                   then Ok {| nrows := d; ncols := d; entry := inv_entries ridged |}
                   else Raise (InvalidArgumentError "Input is not invertible.")).
  { unfold linalg_inv. rewrite Hnr, Hnc, Nat.eqb_refl. reflexivity. }
  split; [|exact Hinv].
  unfold inversion_raises. rewrite Hr. cbn [bind]. rewrite Hinv.
  destruct (if_update_covariance st), (invertible ridged); reflexivity.
Qed.

(** The inversion cannot raise with the flag clear. *)
Lemma inversion_raises_flag (st : Built) :
  if_update_covariance st = false -> inversion_raises st = false.
Proof. intros Hflag. unfold inversion_raises. now rewrite Hflag. Qed.

(** An inference-mode call whose inversion raises: the exception leaves
    [call] before any assignment. *)
Lemma call_inference_raises (d : nat) (a : call_args) (st : Built) :
  well_shaped d st ->
  is_training a = false ->
  inversion_raises st = true ->
  if_update_covariance st = true /\
  call_with a st = (st, Raise (InvalidArgumentError "Input is not invertible.")).
Proof.
  intros Hws Htrain Hraises.
  destruct (inversion_raises_spec d st Hws) as (ridged & Hr & _ & _ & Hspec & Hinv).
  rewrite Hraises in Hspec. symmetry in Hspec.
  apply andb_true_iff in Hspec. destruct Hspec as [Hflag Hsing].
  apply negb_true_iff in Hsing. rewrite Hsing in Hinv.
  split; [exact Hflag|].
  unfold is_training in Htrain. unfold call_with, call. rewrite Htrain.
  unfold bindM at 1. unfold update_feature_covariance_matrix. rewrite Hflag.
  unfold bindM, lift. rewrite Hr. cbn [bind]. rewrite Hinv. reflexivity.
Qed.

(** An inference-mode call on well-shaped variables whose inversion does
    not raise: the covariance is inverted when the flag is set and kept
    otherwise, the flag is cleared, and the predictive covariance is
    computed from the result. *)
Lemma call_inference (d : nat) (a : call_args) (st : Built) :
  well_shaped d st ->
  is_training a = false ->
  inversion_raises st = false ->
  exists updated,
    shape updated = (d, d) /\
    (if if_update_covariance st
     then exists ridged,
            ridged_precision_matrix st = Ok ridged /\
            invertible ridged = true /\
            mat_eq ridged
              (mat_add (scalar_mul (ridge_penalty (self st)) (eye d))
                       (precision_matrix st)) /\
            updated = {| nrows := d; ncols := d; entry := inv_entries ridged |}
     else updated = covariance_matrix st) /\
    call_with a st =
    (after_inference st updated (if_update_covariance st),
     snd (compute_predictive_covariance (arg_inputs a)
            (after_inference st updated (if_update_covariance st)))).
Proof.
  intros Hws Htrain Hpasses.
  pose proof Hws as (HP & HC & _).
  unfold is_training in Htrain. unfold call_with, call. rewrite Htrain.
  unfold bindM at 1. unfold update_feature_covariance_matrix.
  destruct (if_update_covariance st) eqn:Hflag.
  - destruct (inversion_raises_spec d st Hws)
      as (ridged & Hr & Heq & Hs & Hspec & Hinv).
    rewrite Hpasses, Hflag in Hspec. cbn [andb] in Hspec.
    symmetry in Hspec. apply negb_false_iff in Hspec. rewrite Hspec in Hinv.
    exists {| nrows := d; ncols := d; entry := inv_entries ridged |}.
    split; [reflexivity|]. split; [exists ridged; auto|].
    unfold bindM, lift, record_inversion, ret. rewrite Hr. cbn [bind].
    rewrite Hinv.
    unfold assign_covariance_matrix. cbn [covariance_matrix].
    rewrite HC. unfold shape at 1; cbn [nrows ncols]. rewrite shape_eqb_refl.
    unfold assign_if_update_covariance, compute_predictive_covariance, lift.
    cbn. reflexivity.
  - exists (covariance_matrix st). split; [exact HC|]. split; [reflexivity|].
    unfold bindM, assign_covariance_matrix. rewrite shape_eqb_refl.
    unfold assign_if_update_covariance, compute_predictive_covariance, lift.
    cbn. reflexivity.
Qed.

(** The predictive covariance of [b] feature vectors. *)
Lemma compute_predictive_covariance_ok (d b : nat) (Phi : matrix) (st : Built) :
  shape (covariance_matrix st) = (d, d) ->
  shape Phi = (b, d) ->
  exists out,
    snd (compute_predictive_covariance Phi st) = Ok out /\
    mat_eq out
      (scalar_mul (ridge_penalty (self st))
         (mat_prod Phi (mat_prod (covariance_matrix st) (transpose Phi)))) /\
    shape out = (b, b).
Proof.
  unfold shape. intros HC HPhi. injection HC as HCr HCc. injection HPhi as Hb Hd.
  unfold compute_predictive_covariance, lift; cbn [snd].
  rewrite matmul_ok by (cbn; congruence). cbn [bind].
  rewrite matmul_ok by (cbn; congruence).
  eexists. split; [reflexivity|]. split.
  - apply mat_prod_mul_scalar.
  - cbn. congruence.
Qed.

End WithLinalg.

(** *** The minibatch second moment *)

Lemma scalar_mul_scale_rows (r : R) (Phi : matrix) :
  mat_eq (scalar_mul r Phi) (scale_rows (fun _ => r) Phi).
Proof. repeat split. Qed.

(** The second moment of equal tensors. *)
Lemma second_moment_of (A Phi : matrix) (weight : nat -> R) :
  mat_eq A (scale_rows (fun i => sqrt (weight i)) Phi) ->
  mat_eq (mat_prod (transpose A) A) (second_moment weight Phi).
Proof.
  intros HA. unfold second_moment. apply mat_prod_ext; [|exact HA|reflexivity].
  destruct HA as (Hr & Hc & He). repeat split; cbn; try assumption.
  intros i j Hi Hj. cbn in He. apply He; assumption.
Qed.

(** The adjusted features under a tensor of per-example multipliers. *)
Lemma adjust_feature_tensor (m Phi : matrix) :
  nrows m = nrows Phi -> ncols m = 1%nat ->
  exists A, adjust_feature (TensorMultiplier m) Phi = Ok A /\
    mat_eq A (scale_rows (fun i => sqrt (entry m i 0%nat)) Phi).
Proof.
  intros Hr Hc. cbn [adjust_feature].
  destruct (broadcast2_column Rmult (map_entries sqrt m) Phi Hr Hc)
    as (A & HA & Hshape & Hentry).
  exists A. split; [exact HA|].
  unfold shape in Hshape. injection Hshape as Hnr Hnc.
  repeat split; cbn; try assumption.
  intros i j Hi Hj. apply Hentry; congruence.
Qed.

(** With Gaussian likelihood every example has weight 1. *)
Lemma minibatch_gaussian (Phi : matrix) (logits : option matrix) :
  exists M, precision_matrix_minibatch "gaussian" Phi logits = Ok M /\
    mat_eq M (second_moment (fun _ => 1) Phi) /\
    shape M = (ncols Phi, ncols Phi).
Proof.
  unfold precision_matrix_minibatch.
  replace (prob_multiplier "gaussian" logits) with (Ok (FloatMultiplier 1))
    by reflexivity.
  cbn [bind adjust_feature]. rewrite matmul_ok by reflexivity.
  eexists. split; [reflexivity|]. split; [|reflexivity].
  apply second_moment_of. apply scalar_mul_scale_rows.
Qed.

(** With the logistic likelihood example [i] has weight [p (1 - p)] for
    [p = sigmoid(logit i)]. *)
Lemma minibatch_binary_logistic (Phi l : matrix) :
  shape l = (nrows Phi, 1%nat) ->
  exists M, precision_matrix_minibatch "binary_logistic" Phi (Some l) = Ok M /\
    mat_eq M (second_moment
                (fun i => sigmoid (entry l i 0%nat) * (1 - sigmoid (entry l i 0%nat)))
                Phi) /\
    shape M = (ncols Phi, ncols Phi).
Proof.
  unfold shape. intros Hl. injection Hl as Hr Hc.
  unfold precision_matrix_minibatch.
  replace (prob_multiplier "binary_logistic" (Some l))
    with (Ok (TensorMultiplier
                (map_entries (fun p => p * (1 - p)) (map_entries sigmoid l))))
    by reflexivity.
  cbn [bind].
  destruct (adjust_feature_tensor
              (map_entries (fun p => p * (1 - p)) (map_entries sigmoid l)) Phi)
    as (A & HA & Heq); [exact Hr | exact Hc |].
  rewrite HA. cbn [bind]. rewrite matmul_ok by reflexivity.
  eexists. split; [reflexivity|]. split.
  - apply second_moment_of. exact Heq.
  - destruct Heq as (_ & Hnc & _). cbn in *. unfold shape; cbn. congruence.
Qed.

(** With the Poisson likelihood example [i] has weight [exp(logit i)]. *)
Lemma minibatch_poisson (Phi l : matrix) :
  shape l = (nrows Phi, 1%nat) ->
  exists M, precision_matrix_minibatch "poisson" Phi (Some l) = Ok M /\
    mat_eq M (second_moment (fun i => exp (entry l i 0%nat)) Phi) /\
    shape M = (ncols Phi, ncols Phi).
Proof.
  unfold shape. intros Hl. injection Hl as Hr Hc.
  unfold precision_matrix_minibatch.
  replace (prob_multiplier "poisson" (Some l))
    with (Ok (TensorMultiplier (map_entries exp l))) by reflexivity.
  cbn [bind].
  destruct (adjust_feature_tensor (map_entries exp l) Phi)
    as (A & HA & Heq); [exact Hr | exact Hc |].
  rewrite HA. cbn [bind]. rewrite matmul_ok by reflexivity.
  eexists. split; [reflexivity|]. split.
  - apply second_moment_of. exact Heq.
  - destruct Heq as (_ & Hnc & _). cbn in *. unfold shape; cbn. congruence.
Qed.

(** A likelihood that is neither logistic nor Poisson takes the weight 1. *)
Lemma minibatch_float (lik : string) (Phi : matrix) (logits : option matrix) :
  lik <> "binary_logistic"%string -> lik <> "poisson"%string ->
  precision_matrix_minibatch lik Phi logits
  = precision_matrix_minibatch "gaussian" Phi logits.
Proof.
  intros Hb Hp. unfold precision_matrix_minibatch, prob_multiplier.
  destruct (String.eqb_spec lik "binary_logistic"); [contradiction|].
  destruct (String.eqb_spec lik "poisson"); [contradiction|].
  reflexivity.
Qed.

(** With fitting logits the minibatch matrix is computed and is [d x d]. *)
Lemma minibatch_fit (lik : string) (Phi : matrix) (logits : option matrix)
    (b d : nat) :
  shape Phi = (b, d) -> logits_fit lik logits b ->
  exists M, precision_matrix_minibatch lik Phi logits = Ok M /\ shape M = (d, d).
Proof.
  unfold shape at 1. intros HPhi Hfit. injection HPhi as Hb Hd.
  destruct (String.eqb_spec lik "binary_logistic") as [->|Hnb].
  { destruct Hfit as [Hg | (l & -> & Hl)]; [discriminate|].
    destruct (minibatch_binary_logistic Phi l) as (M & HM & _ & Hs);
      [congruence|].
    exists M. split; [exact HM | congruence]. }
  destruct (String.eqb_spec lik "poisson") as [->|Hnp].
  { destruct Hfit as [Hg | (l & -> & Hl)]; [discriminate|].
    destruct (minibatch_poisson Phi l) as (M & HM & _ & Hs); [congruence|].
    exists M. split; [exact HM | congruence]. }
  rewrite minibatch_float by assumption.
  destruct (minibatch_gaussian Phi logits) as (M & HM & _ & Hs).
  exists M. split; [exact HM | congruence].
Qed.

Lemma check_logits_fit (lik : string) (logits : option matrix) (b : nat) :
  logits_fit lik logits b -> check_logits lik logits = Ok tt.
Proof.
  unfold check_logits. intros [-> | (l & -> & Hl)]; [reflexivity|].
  unfold shape in Hl. injection Hl as _ Hc. rewrite Hc.
  now destruct (String.eqb lik "gaussian").
Qed.

(** For fitting arguments the update returns a [d x d] matrix. *)
Lemma update_feature_precision_matrix_ok (d b : nat) (st : Built)
    (Phi : matrix) (logits : option matrix) :
  well_shaped d st -> shape Phi = (b, d) ->
  logits_fit (likelihood (self st)) logits b ->
  exists updated,
    update_feature_precision_matrix st Phi logits = Ok updated /\
    shape updated = (d, d).
Proof.
  intros (HP & _ & _) HPhi Hfit.
  destruct (minibatch_fit _ Phi logits b d HPhi Hfit) as (M & HM & HMs).
  unfold update_feature_precision_matrix.
  rewrite (check_logits_fit _ _ _ Hfit), HM. cbn [bind].
  destruct (Rlt_dec 0 (momentum (self st))) as [Hpos|Hneg].
  - destruct (broadcast2_same_shape Rplus
                (scalar_mul (momentum (self st)) (precision_matrix st))
                (scalar_mul (1 - momentum (self st))
                            (div_scalar M (INR (nrows Phi)))))
      as (C & HC & Hs & _).
    { unfold shape in *; cbn. congruence. }
    exists C. split; [exact HC|].
    rewrite Hs. unfold shape in *; cbn. congruence.
  - destruct (broadcast2_same_shape Rplus (precision_matrix st) M)
      as (C & HC & Hs & _); [congruence|].
    exists C. split; [exact HC | congruence].
Qed.

(** The adjusted features are as wide as the features. *)
Lemma adjust_feature_ncols (pm : multiplier) (Phi A : matrix) :
  match pm with
  | FloatMultiplier _ => True
  | TensorMultiplier m => ncols m = 1%nat
  end ->
  adjust_feature pm Phi = Ok A -> ncols A = ncols Phi.
Proof.
  destruct pm as [r|m]; cbn [adjust_feature].
  - intros _ H. injection H as <-. reflexivity.
  - intros Hc. unfold broadcast2. cbn [nrows ncols map_entries].
    rewrite Hc, broadcast_dim_one_l.
    destruct (broadcast_dim (nrows m) (nrows Phi)); [|discriminate].
    intros H. injection H as <-. reflexivity.
Qed.

(** Whenever the checks pass and the minibatch matrix is computed, it is
    square, of the width of the features. *)
Lemma minibatch_shape (lik : string) (Phi : matrix) (logits : option matrix)
    (M : matrix) :
  check_logits lik logits = Ok tt ->
  precision_matrix_minibatch lik Phi logits = Ok M ->
  shape M = (ncols Phi, ncols Phi).
Proof.
  intros Hcheck. unfold precision_matrix_minibatch.
  destruct (prob_multiplier lik logits) as [pm|e] eqn:Hpm; [|discriminate].
  cbn [bind].
  destruct (adjust_feature pm Phi) as [A|e] eqn:HA; [|discriminate].
  cbn [bind]. rewrite matmul_ok by reflexivity.
  intros H. injection H as <-.
  assert (Hnc : ncols A = ncols Phi).
  { apply (adjust_feature_ncols pm); [|exact HA].
    destruct pm as [r|m]; [exact I|].
    assert (Hl : exists l, logits = Some l /\ ncols m = ncols l).
    { unfold prob_multiplier in Hpm.
      destruct (String.eqb lik "binary_logistic").
      - destruct logits as [l|]; [|discriminate].
        injection Hpm as <-. now exists l.
      - destruct (String.eqb lik "poisson"); [|discriminate].
        destruct logits as [l|]; [|discriminate].
        injection Hpm as <-. now exists l. }
    destruct Hl as (l & -> & ->).
    assert (Hng : String.eqb lik "gaussian" = false).
    { unfold prob_multiplier in Hpm.
      destruct (String.eqb_spec lik "binary_logistic") as [->|_];
        [reflexivity|].
      destruct (String.eqb_spec lik "poisson") as [->|_];
        [reflexivity | discriminate]. }
    unfold check_logits in Hcheck. rewrite Hng in Hcheck. cbn [negb] in Hcheck.
    destruct (Nat.eqb_spec (ncols l) 1); [assumption | discriminate]. }
  unfold shape; cbn. now rewrite Hnc.
Qed.

(** The updated precision matrix, whenever the update returns one. *)
Lemma update_feature_precision_matrix_returns (d b : nat) (st : Built)
    (Phi : matrix) (logits : option matrix) (updated : matrix) :
  well_shaped d st -> shape Phi = (b, d) ->
  update_feature_precision_matrix st Phi logits = Ok updated ->
  exists M,
    precision_matrix_minibatch (likelihood (self st)) Phi logits = Ok M /\
    shape M = (d, d) /\
    shape updated = (d, d) /\
    (0 < momentum (self st) ->
     mat_eq updated
       (mat_add (scalar_mul (momentum (self st)) (precision_matrix st))
                (scalar_mul (1 - momentum (self st)) (div_scalar M (INR b))))) /\
    (momentum (self st) <= 0 ->
     mat_eq updated (mat_add (precision_matrix st) M)).
Proof.
  intros (HP & _ & _) HPhi. unfold update_feature_precision_matrix.
  destruct (check_logits (likelihood (self st)) logits) as [[]|e] eqn:Hcheck;
    [|discriminate].
  cbn [bind].
  destruct (precision_matrix_minibatch (likelihood (self st)) Phi logits)
    as [M|e] eqn:HM; [|discriminate].
  cbn [bind]. intros Hup.
  pose proof (minibatch_shape _ _ _ _ Hcheck HM) as HMs.
  assert (Hb : nrows Phi = b) by (unfold shape in HPhi; congruence).
  assert (Hd : ncols Phi = d) by (unfold shape in HPhi; congruence).
  rewrite Hd in HMs. rewrite Hb in Hup.
  exists M. split; [reflexivity|]. split; [exact HMs|].
  destruct (Rlt_dec 0 (momentum (self st))) as [Hpos|Hneg].
  - destruct (broadcast2_same_shape Rplus
                (scalar_mul (momentum (self st)) (precision_matrix st))
                (scalar_mul (1 - momentum (self st)) (div_scalar M (INR b))))
      as (C & HC & Hs & He).
    { unfold shape in *; cbn. congruence. }
    rewrite HC in Hup. injection Hup as <-.
    assert (HCs : shape C = (d, d))
      by (rewrite Hs; unfold shape in *; cbn; congruence).
    split; [exact HCs|]. split; [|intros; lra].
    intros _. unfold shape in Hs, HCs; cbn in Hs.
    repeat split; cbn; try congruence.
    intros i j Hi Hj. apply He; cbn; congruence.
  - destruct (broadcast2_same_shape Rplus (precision_matrix st) M)
      as (C & HC & Hs & He); [congruence|].
    rewrite HC in Hup. injection Hup as <-.
    assert (HCs : shape C = (d, d)) by congruence.
    split; [exact HCs|]. split; [intros; lra|].
    intros _. unfold shape in Hs, HCs.
    repeat split; cbn; try congruence.
    intros i j Hi Hj. apply He; congruence.
Qed.

(** *** The weights of the minibatch *)

Lemma transpose_ext (A B : matrix) :
  mat_eq A B -> mat_eq (transpose A) (transpose B).
Proof.
  intros (Hr & Hc & He). repeat split; cbn; try assumption.
  intros i j Hi Hj. apply He; assumption.
Qed.

(** The Gram matrix of equal tensors. *)
Lemma gram_ext (A B : matrix) :
  mat_eq A B ->
  mat_eq (mat_prod (transpose A) A) (mat_prod (transpose B) B).
Proof.
  intros HAB. apply mat_prod_ext; [now apply transpose_ext | exact HAB | reflexivity].
Qed.

(** A broadcast operation that returns, entry by entry. *)
Lemma broadcast2_inv (op : R -> R -> R) (A B C : matrix) :
  broadcast2 op A B = Ok C ->
  exists r c,
    broadcast_dim (nrows A) (nrows B) = Some r /\
    broadcast_dim (ncols A) (ncols B) = Some c /\
    C = {| nrows := r; ncols := c;
           entry := fun i j =>
             op (entry A (broadcast_index (nrows A) i) (broadcast_index (ncols A) j))
                (entry B (broadcast_index (nrows B) i) (broadcast_index (ncols B) j)) |}.
Proof.
  unfold broadcast2.
  destruct (broadcast_dim (nrows A) (nrows B)) as [r|]; [|discriminate].
  destruct (broadcast_dim (ncols A) (ncols B)) as [c|]; [|discriminate].
  intros H; injection H as <-. exists r, c. auto.
Qed.

(** The adjusted features under a column of multipliers, whatever the
    number of its rows. *)
Lemma adjust_feature_weighted (m Phi A : matrix) :
  ncols m = 1%nat ->
  adjust_feature (TensorMultiplier m) Phi = Ok A ->
  exists n,
    broadcast_dim (nrows m) (nrows Phi) = Some n /\
    mat_eq A (weighted_features (nrows m) (fun k => entry m k 0%nat) Phi n).
Proof.
  intros Hc. cbn [adjust_feature]. intros HA.
  destruct (broadcast2_inv _ _ _ _ HA) as (n & c & Hn & Hcc & ->).
  cbn [nrows ncols map_entries] in Hn, Hcc.
  rewrite Hc, broadcast_dim_one_l in Hcc. injection Hcc as <-.
  exists n. split; [exact Hn|].
  repeat split. intros i j Hi Hj.
  cbn [entry nrows ncols map_entries weighted_features] in *.
  rewrite Hc. cbn [broadcast_index Nat.eqb].
  now rewrite (broadcast_index_lt (ncols Phi)) by exact Hj.
Qed.

(** The weighted features of one weight per row scale the rows. *)
Lemma weighted_features_rows (weight : nat -> R) (Phi : matrix) :
  mat_eq (weighted_features (nrows Phi) weight Phi (nrows Phi))
         (scale_rows (fun i => sqrt (weight i)) Phi).
Proof.
  repeat split. intros i j Hi Hj. cbn in Hi |- *.
  now rewrite !broadcast_index_lt by exact Hi.
Qed.

(** A precision update that returns has passed the checks on [logits]. *)
Lemma update_checks (st : Built) (Phi : matrix) (logits : option matrix)
    (updated : matrix) :
  update_feature_precision_matrix st Phi logits = Ok updated ->
  check_logits (likelihood (self st)) logits = Ok tt.
Proof.
  unfold update_feature_precision_matrix.
  destruct (check_logits (likelihood (self st)) logits) as [[]|e];
    [reflexivity | discriminate].
Qed.

(** The minibatch matrix of a precision update that returns: the Gram
    matrix of the features weighted by the likelihood. *)
Lemma minibatch_weighted (lik : string) (Phi : matrix) (logits : option matrix)
    (M : matrix) :
  check_logits lik logits = Ok tt ->
  precision_matrix_minibatch lik Phi logits = Ok M ->
  exists rows weight n,
    (lik <> "binary_logistic"%string -> lik <> "poisson"%string ->
     rows = nrows Phi /\ forall i, weight i = 1) /\
    (lik = "binary_logistic"%string ->
     exists l, logits = Some l /\ ncols l = 1%nat /\ rows = nrows l /\
       forall i, weight i
                 = sigmoid (entry l i 0%nat) * (1 - sigmoid (entry l i 0%nat))) /\
    (lik = "poisson"%string ->
     exists l, logits = Some l /\ ncols l = 1%nat /\ rows = nrows l /\
       forall i, weight i = exp (entry l i 0%nat)) /\
    broadcast_dim rows (nrows Phi) = Some n /\
    mat_eq M (mat_prod (transpose (weighted_features rows weight Phi n))
                       (weighted_features rows weight Phi n)).
Proof.
  intros Hcheck HM.
  assert (Hcol : forall l, logits = Some l -> lik <> "gaussian"%string ->
                   ncols l = 1%nat).
  { intros l -> Hng. unfold check_logits in Hcheck.
    destruct (String.eqb_spec lik "gaussian"); [contradiction|].
    cbn [negb] in Hcheck.
    destruct (Nat.eqb_spec (ncols l) 1); [assumption | discriminate]. }
  unfold precision_matrix_minibatch, prob_multiplier in HM.
  destruct (String.eqb_spec lik "binary_logistic") as [Hb|Hnb].
  { destruct logits as [l|]; [|discriminate]. cbn [bind] in HM.
    assert (Hc : ncols l = 1%nat) by (apply Hcol; [reflexivity | now subst]).
    destruct (adjust_feature _ Phi) as [A|e] eqn:HA; [|discriminate].
    cbn [bind] in HM. rewrite matmul_ok in HM by reflexivity.
    injection HM as <-.
    destruct (adjust_feature_weighted
                (map_entries (fun p => p * (1 - p)) (map_entries sigmoid l))
                Phi A Hc HA) as (n & Hn & Heq).
    exists (nrows l),
      (fun i => sigmoid (entry l i 0%nat) * (1 - sigmoid (entry l i 0%nat))), n.
    split; [intros; contradiction|].
    split; [intros _; exists l; auto|].
    split; [intros Hp; subst; discriminate|].
    split; [exact Hn|]. apply gram_ext. exact Heq. }
  destruct (String.eqb_spec lik "poisson") as [Hp|Hnp].
  { destruct logits as [l|]; [|discriminate]. cbn [bind] in HM.
    assert (Hc : ncols l = 1%nat) by (apply Hcol; [reflexivity | now subst]).
    destruct (adjust_feature _ Phi) as [A|e] eqn:HA; [|discriminate].
    cbn [bind] in HM. rewrite matmul_ok in HM by reflexivity.
    injection HM as <-.
    destruct (adjust_feature_weighted (map_entries exp l) Phi A Hc HA)
      as (n & Hn & Heq).
    exists (nrows l), (fun i => exp (entry l i 0%nat)), n.
    split; [intros; contradiction|].
    split; [intros; contradiction|].
    split; [intros _; exists l; auto|].
    split; [exact Hn|]. apply gram_ext. exact Heq. }
  cbn [bind adjust_feature] in HM. rewrite matmul_ok in HM by reflexivity.
  injection HM as <-.
  exists (nrows Phi), (fun _ => 1), (nrows Phi).
  split; [auto|]. split; [intros; contradiction|].
  split; [intros; contradiction|].
  split; [apply broadcast_dim_same|].
  apply gram_ext. repeat split. intros i j Hi Hj. cbn in Hi |- *.
  now rewrite broadcast_index_lt by exact Hi.
Qed.

Section WithLinalg.
Context {linalg : LinalgBackend}.

(** A training-mode call with fitting arguments returns the identity. *)
Lemma call_training_ok (d b : nat) (a : call_args) (st : Built) :
  well_shaped d st -> is_training a = true ->
  shape (arg_inputs a) = (b, d) ->
  logits_fit (likelihood (self st)) (arg_logits a) b ->
  exists updated,
    update_feature_precision_matrix st (arg_inputs a) (arg_logits a) = Ok updated /\
    call_with a st = (after_training st updated, Ok (eye b)).
Proof.
  intros Hws Htrain HPhi Hfit.
  destruct (update_feature_precision_matrix_ok d b st _ _ Hws HPhi Hfit)
    as (updated & Hup & Hs).
  exists updated. split; [exact Hup|].
  rewrite (call_training a st Htrain), Hup.
  destruct Hws as (HP & _ & _). rewrite Hs, HP, shape_eqb_refl.
  unfold shape in HPhi. injection HPhi as -> _. reflexivity.
Qed.

(** *** The invariant of the variables *)

Lemma call_consistent (a : call_args) (st : Built) :
  consistent st -> consistent (fst (call_with a st)).
Proof.
  intros [[d Hws] Hflag].
  destruct (is_training a) eqn:Htrain.
  - destruct (call_training_cases a st Htrain)
      as [(e & ->) | (updated & _ & Hs & ->)]; cbn [fst].
    + split; [exists d|]; assumption.
    + split; [|reflexivity]. exists d.
      destruct Hws as (HP & HC & HI). repeat split; cbn; congruence.
  - destruct (inversion_raises st) eqn:Hraises.
    { destruct (call_inference_raises d a st Hws Htrain Hraises) as (_ & ->).
      split; [exists d|]; assumption. }
    destruct (call_inference d a st Hws Htrain Hraises)
      as (updated & Hs & Hupd & ->).
    cbn [fst]. split.
    + exists d. destruct Hws as (HP & HC & HI). repeat split; cbn; congruence.
    + cbn. destruct (if_update_covariance st); [reflexivity|].
      cbn. exact Hflag.
Qed.

Lemma run_consistent (calls : list call_args) (st : Built) :
  consistent st -> consistent (run st calls).
Proof.
  revert st. induction calls as [|a calls IH]; intros st Hst; [exact Hst|].
  cbn. apply IH. now apply call_consistent.
Qed.

Lemma reachable_consistent (st : Built) : reachable st -> consistent st.
Proof.
  intros (self0 & input_shape & covariance0 & st0 & calls & Hbuild & ->).
  apply run_consistent.
  destruct (build_well_shaped _ _ _ _ Hbuild) as (d & _ & Hws & Hflag & Htrace).
  split; [now exists d|]. now rewrite Hflag, Htrace.
Qed.

(** *** The cached covariance, by value *)

(** An inference-mode call that runs the inversion leaves the inverse for
    the current precision matrix as the covariance. *)
Lemma call_inference_current (d : nat) (a : call_args) (st : Built) :
  well_shaped d st -> is_training a = false ->
  inversion_raises st = false ->
  if_update_covariance st = true ->
  covariance_current (fst (call_with a st)).
Proof.
  intros Hws Htrain Hraises Hflag.
  destruct (call_inference d a st Hws Htrain Hraises)
    as (updated & _ & Hupd & ->).
  rewrite Hflag in Hupd |- *. cbn [fst].
  destruct Hupd as (ridged & Hr & Hinv & _ & ->).
  destruct (inversion_raises_spec d st Hws)
    as (ridged' & Hr' & _ & _ & _ & Hlinalg).
  rewrite Hr in Hr'. injection Hr' as <-. rewrite Hinv in Hlinalg.
  exists ridged. split; [exact Hr | exact Hlinalg].
Qed.


Lemma call_covariance_current (a : call_args) (st : Built) :
  consistent st -> covariance_kept_current st ->
  covariance_kept_current (fst (call_with a st)).
Proof.
  intros [[d Hws] _] Hcur.
  destruct (is_training a) eqn:Htrain.
  - destruct (call_training_cases a st Htrain)
      as [(e & ->) | (updated & _ & _ & ->)]; cbn [fst]; [exact Hcur|].
    intros Hflag. discriminate.
  - destruct (inversion_raises st) eqn:Hraises.
    { destruct (call_inference_raises d a st Hws Htrain Hraises) as (_ & ->).
      exact Hcur. }
    destruct (call_inference d a st Hws Htrain Hraises)
      as (updated & Hs & Hupd & ->).
    cbn [fst]. intros _.
    destruct (if_update_covariance st) eqn:Hflag.
    + intros _. destruct Hupd as (ridged & Hr & Hinv & _ & ->).
      destruct (inversion_raises_spec d st Hws)
        as (ridged' & Hr' & _ & _ & _ & Hlinalg).
      rewrite Hr in Hr'. injection Hr' as <-. rewrite Hinv in Hlinalg.
      exists ridged. split; [exact Hr | exact Hlinalg].
    + subst updated. cbn [trace after_inference]. intros Hn.
      destruct (Hcur Hflag Hn) as (ridged & Hr & Hlinalg).
      exists ridged. split; [exact Hr | exact Hlinalg].
Qed.

Lemma run_covariance_current (calls : list call_args) (st : Built) :
  consistent st -> covariance_kept_current st ->
  covariance_kept_current (run st calls).
Proof.
  revert st. induction calls as [|a calls IH]; intros st Hst Hcur; [exact Hcur|].
  cbn. apply IH; [now apply call_consistent | now apply call_covariance_current].
Qed.

Lemma reachable_covariance_current (st : Built) :
  reachable st -> covariance_kept_current st.
Proof.
  intros (self0 & input_shape & covariance0 & st0 & calls & Hbuild & ->).
  destruct (build_well_shaped _ _ _ _ Hbuild) as (d & _ & Hws & Hflag & Htrace).
  apply run_covariance_current.
  - split; [now exists d|]. now rewrite Hflag, Htrace.
  - intros _ Hn. rewrite Htrace in Hn. now contradiction Hn.
Qed.

End WithLinalg.

(** *** The diagonal backend on 1x1 matrices *)

Lemma diagonal_invertible_1x1 (A : matrix) :
  nrows A = 1%nat ->
  @invertible Diagonal.backend A
  = if Req_EM_T (entry A 0%nat 0%nat) 0 then false else true.
Proof.
  intros Hr. cbn [invertible Diagonal.backend]. unfold Diagonal.diag_invertible.
  rewrite Hr. cbn [seq forallb].
  now destruct (Req_EM_T (entry A 0%nat 0%nat) 0).
Qed.

(** The entry of [ridge_penalty * I + P] for a 1x1 precision matrix. *)
Lemma ridged_entry_1x1 (st : Built) (ridged : matrix) :
  well_shaped 1 st ->
  mat_eq ridged
    (mat_add (scalar_mul (ridge_penalty (self st)) (eye 1)) (precision_matrix st)) ->
  nrows ridged = 1%nat /\
  entry ridged 0%nat 0%nat
  = ridge_penalty (self st) + entry (precision_matrix st) 0%nat 0%nat.
Proof.
  intros _ (Hr & Hc & He). cbn in Hr, Hc. split; [exact Hr|].
  rewrite He by lia. cbn. ring.
Qed.

(** The inversion passes when the entry of the sum is not zero. *)
Lemma diagonal_inverts_1x1 (st : Built) :
  well_shaped 1 st ->
  ridge_penalty (self st) + entry (precision_matrix st) 0%nat 0%nat <> 0 ->
  @inversion_raises Diagonal.backend st = false.
Proof.
  intros Hws Hne.
  destruct (@inversion_raises_spec Diagonal.backend 1 st Hws)
    as (ridged & _ & Heq & _ & -> & _).
  destruct (ridged_entry_1x1 st ridged Hws Heq) as (Hr & He).
  rewrite (diagonal_invertible_1x1 ridged Hr), He.
  destruct (Req_EM_T _ 0); [contradiction|].
  now destruct (if_update_covariance st).
Qed.

(** The inversion raises when the flag is set and the entry of the sum is
    zero. *)
Lemma diagonal_refuses_1x1 (st : Built) :
  well_shaped 1 st ->
  if_update_covariance st = true ->
  ridge_penalty (self st) + entry (precision_matrix st) 0%nat 0%nat = 0 ->
  @inversion_raises Diagonal.backend st = true.
Proof.
  intros Hws Hflag H0.
  destruct (@inversion_raises_spec Diagonal.backend 1 st Hws)
    as (ridged & _ & Heq & _ & -> & _).
  destruct (ridged_entry_1x1 st ridged Hws Heq) as (Hr & He).
  rewrite (diagonal_invertible_1x1 ridged Hr), He, Hflag.
  destruct (Req_EM_T _ 0); [reflexivity | contradiction].
Qed.

(** The default layer after a training-mode call on [features]: the
    precision matrix is positive, and the inversion passes. *)
Lemma trained_layer_inverts :
  @inversion_raises Diagonal.backend LaplaceExamples.trained_layer = false.
Proof.
  apply diagonal_inverts_1x1; [repeat split|]. cbn. lra.
Qed.

(** A training-mode call of a layer built for width 1 under the Gaussian
    likelihood, with momentum: the entry of the precision matrix it
    leaves. *)
Lemma training_call_1x1 (a : call_args) (st : Built) (b : nat) :
  well_shaped 1 st -> is_training a = true ->
  likelihood (self st) = "gaussian"%string ->
  shape (arg_inputs a) = (b, 1%nat) ->
  0 < momentum (self st) ->
  exists st',
    @call_with Diagonal.backend a st = (st', Ok (eye b)) /\
    well_shaped 1 st' /\ self st' = self st /\
    if_update_covariance st' = true /\
    trace st' = PrecisionAssigned :: trace st /\
    entry (precision_matrix st') 0%nat 0%nat
    = momentum (self st) * entry (precision_matrix st) 0%nat 0%nat
      + (1 - momentum (self st))
        * (sum_n b (fun k => entry (arg_inputs a) k 0%nat
                             * entry (arg_inputs a) k 0%nat) / INR b).
Proof.
  intros Hws Htrain Hlik HPhi Hm.
  destruct (@call_training_ok Diagonal.backend 1 b a st Hws Htrain HPhi
              (or_introl Hlik)) as (updated & Hup & Hcall).
  destruct (update_feature_precision_matrix_returns 1 b st _ _ _ Hws HPhi Hup)
    as (M & HM & _ & Hs & Hpos & _).
  exists (after_training st updated). split; [exact Hcall|].
  pose proof Hws as (HP & HC & HI).
  split; [repeat split; cbn; assumption|]. split; [reflexivity|].
  split; [reflexivity|]. split; [reflexivity|].
  cbn [precision_matrix after_training].
  destruct (Hpos Hm) as (Hr & _ & He).
  unfold shape in Hs. injection Hs as Hur Huc.
  rewrite He by lia. cbn [entry mat_add scalar_mul div_scalar map_entries].
  rewrite Hlik in HM.
  destruct (minibatch_gaussian (arg_inputs a) (arg_logits a)) as (M' & HM' & Heq & _).
  rewrite HM in HM'. injection HM' as <-.
  destruct Heq as (HMr & HMc & HMe).
  unfold shape in HPhi. injection HPhi as Hb Hd.
  rewrite HMe by (cbn in HMr, HMc; lia).
  cbn [entry second_moment mat_prod transpose scale_rows nrows ncols].
  rewrite Hb, sqrt_1. f_equal. f_equal. f_equal.
  apply sum_n_ext. intros k _. ring.
Qed.

(** The default layer after a training-mode call on [features]: the flag
    is set, and the inversion of the next inference-mode call passes. *)
Lemma default_layer_trained :
  exists st1,
    @call_with Diagonal.backend LaplaceExamples.training_call
      (LaplaceExamples.built_on LaplaceExamples.gaussian_layer)
    = (st1, Ok (eye 2)) /\
    well_shaped 1 st1 /\ if_update_covariance st1 = true /\
    trace st1 = [PrecisionAssigned] /\
    @inversion_raises Diagonal.backend st1 = false.
Proof.
  assert (Hws : well_shaped 1
                  (LaplaceExamples.built_on LaplaceExamples.gaussian_layer))
    by (repeat split).
  destruct (training_call_1x1 LaplaceExamples.training_call _ 2
              Hws eq_refl eq_refl eq_refl ltac:(cbn; lra))
    as (st1 & Hcall & Hws1 & Hself & Hflag & Htrace & Hentry).
  exists st1. split; [exact Hcall|]. split; [exact Hws1|].
  split; [exact Hflag|]. split; [exact Htrace|].
  apply diagonal_inverts_1x1; [exact Hws1|].
  rewrite Hentry, Hself. cbn. lra.
Qed.

End LaplaceFacts.

(** * The specification of the Laplace covariance layer *)

Module LaplaceSpec.
Import Laplace MatrixFacts LaplaceFacts.

(** C2 as stated fails for a layer without ridge penalty.  After a
    training-mode call on two zero feature vectors the flag is set and
    [ridge_penalty * I + P] is the zero matrix, which [tf.linalg.inv]
    refuses: the inference-mode call raises and leaves the flag set, and so
    does the next one.  After one training-mode and two inference-mode calls
    no inversion has returned, and the flag is still set.  A training-mode
    call that raises, here one without logits under the Poisson likelihood,
    does not set the flag either. *)
Lemma singular_inference_keeps_flag :
  let st0 := LaplaceExamples.built_on LaplaceExamples.ridgeless_layer in
  let st1 := fst (@call_with Diagonal.backend LaplaceExamples.zero_training_call st0) in
  let st2 := fst (@call_with Diagonal.backend LaplaceExamples.inference_call st1) in
  let st3 := fst (@call_with Diagonal.backend LaplaceExamples.inference_call st2) in
  let st0' := LaplaceExamples.built_on LaplaceExamples.poisson_layer in
  (@reachable Diagonal.backend st1 /\
   is_training LaplaceExamples.zero_training_call = true /\
   is_training LaplaceExamples.inference_call = false /\
   if_update_covariance st1 = true /\
   (exists msg,
      snd (@call_with Diagonal.backend LaplaceExamples.inference_call st1)
      = Raise (InvalidArgumentError msg)) /\
   if_update_covariance st2 = true /\
   if_update_covariance st3 = true /\
   inversions (trace st3) = inversions (trace st1)) /\
  (is_training LaplaceExamples.training_call = true /\
   (exists msg,
      snd (@call_with Diagonal.backend LaplaceExamples.training_call st0')
      = Raise (ValueError msg)) /\
   if_update_covariance
     (fst (@call_with Diagonal.backend LaplaceExamples.training_call st0'))
   = false).
Proof.
  cbv zeta. split; cycle 1.
  { split; [reflexivity|].
    rewrite (@call_training Diagonal.backend LaplaceExamples.training_call
               (LaplaceExamples.built_on LaplaceExamples.poisson_layer) eq_refl).
    cbn. split; [eexists; reflexivity | reflexivity]. }
  assert (Hws0 : well_shaped 1
                   (LaplaceExamples.built_on LaplaceExamples.ridgeless_layer))
    by (repeat split).
  destruct (training_call_1x1 LaplaceExamples.zero_training_call _ 2
              Hws0 eq_refl eq_refl eq_refl ltac:(cbn; lra))
    as (st1 & Hcall & Hws1 & Hself & Hflag & _ & Hentry).
  rewrite Hcall. cbn [fst].
  assert (Hraises : @inversion_raises Diagonal.backend st1 = true).
  { apply diagonal_refuses_1x1; [exact Hws1 | exact Hflag|].
    rewrite Hentry, Hself. cbn. lra. }
  destruct (@call_inference_raises Diagonal.backend 1
              LaplaceExamples.inference_call st1 Hws1 eq_refl Hraises)
    as (_ & Hinfer).
  rewrite Hinfer. cbn [fst snd]. rewrite Hinfer. cbn [fst].
  split.
  { exists LaplaceExamples.ridgeless_layer, [2; 1]%nat, (fun _ _ => 0),
      (LaplaceExamples.built_on LaplaceExamples.ridgeless_layer),
      [LaplaceExamples.zero_training_call].
    split; [reflexivity|]. cbn [run fold_left]. now rewrite Hcall. }
  split; [reflexivity|]. split; [reflexivity|]. split; [exact Hflag|].
  split; [eexists; reflexivity|]. split; [exact Hflag|].
  split; [exact Hflag | reflexivity].
Qed.

(** C2, amended.  In every state a built layer reaches by calls:

    - a training-mode call that returns has set the update-pending flag, one
      that raises has changed nothing, and a call on a fitting minibatch
      does return;
    - an inference-mode call runs [tf.linalg.inv] exactly when the flag is
      set; when the inversion returns the call clears the flag, and when it
      raises (which needs the flag set and a sum [ridge_penalty * I + P]
      that is refused) the call raises and changes nothing;
    - after a training-mode call that returns, two inference-mode calls of
      which the first passes its inversion run one inversion between them,
      the second one keeping the covariance of the first;
    - the covariance is stale (the precision matrix was assigned after the
      covariance was last brought up to date) exactly when the flag is set,
      and with the flag clear after an inversion the covariance is the
      inverse for the precision matrix as it is now. *)
Theorem dirty_flag_discipline {linalg : LinalgBackend} (st : Built) :
  reachable st ->
  (forall a st' r, is_training a = true -> call_with a st = (st', r) ->
     match r with
     | Ok _ => if_update_covariance st' = true
     | Raise _ => st' = st
     end) /\
  (forall a d b, is_training a = true -> well_shaped d st ->
     shape (arg_inputs a) = (b, d) ->
     logits_fit (likelihood (self st)) (arg_logits a) b ->
     exists st', call_with a st = (st', Ok (eye b)) /\
                 if_update_covariance st' = true /\
                 trace st' = PrecisionAssigned :: trace st) /\
  (forall a, is_training a = false ->
     let st' := fst (call_with a st) in
     if inversion_raises st
     then if_update_covariance st = true /\ st' = st /\
          exists msg, snd (call_with a st) = Raise (InvalidArgumentError msg)
     else inversions (trace st')
          = (inversions (trace st) + if if_update_covariance st then 1 else 0)%nat /\
          if_update_covariance st' = false) /\
  (inversion_raises st = true <->
   if_update_covariance st = true /\
   exists ridged, ridged_precision_matrix st = Ok ridged /\
                  invertible ridged = false) /\
  (forall t i1 i2 st1 out,
     is_training t = true -> is_training i1 = false -> is_training i2 = false ->
     call_with t st = (st1, Ok out) ->
     inversion_raises st1 = false ->
     let st2 := fst (call_with i1 st1) in
     let st3 := fst (call_with i2 st2) in
     inversions (trace st2) = S (inversions (trace st1)) /\
     inversions (trace st3) = S (inversions (trace st1)) /\
     if_update_covariance st2 = false /\
     covariance_current st2 /\
     covariance_matrix st3 = covariance_matrix st2) /\
  (stale (trace st) = true <-> if_update_covariance st = true) /\
  (if_update_covariance st = false -> inversions (trace st) <> 0%nat ->
   covariance_current st).
Proof.
  intros Hreach.
  pose proof (reachable_consistent st Hreach) as Hcons.
  pose proof (reachable_covariance_current st Hreach) as Hcur.
  assert (Hinf : forall s a, consistent s -> is_training a = false ->
            inversion_raises s = false ->
            inversions (trace (fst (call_with a s)))
            = (inversions (trace s) + if if_update_covariance s then 1 else 0)%nat /\
            if_update_covariance (fst (call_with a s)) = false /\
            (if_update_covariance s = false ->
             covariance_matrix (fst (call_with a s)) = covariance_matrix s)).
  { intros s a [[d Hws] _] Ha Hpass.
    destruct (call_inference d a s Hws Ha Hpass) as (updated & _ & Hupd & ->).
    cbn [fst]. destruct (if_update_covariance s); cbn.
    - repeat split; [lia | discriminate].
    - repeat split; [lia | intros _; exact Hupd]. }
  split; [|split; [|split; [|split; [|split; [|split]]]]].
  - intros a st' r Ha Hcall.
    destruct (call_training_cases a st Ha)
      as [(e & He) | (updated & _ & _ & Hok)].
    + rewrite He in Hcall. injection Hcall as <- <-. reflexivity.
    + rewrite Hok in Hcall. injection Hcall as <- <-. reflexivity.
  - intros a d b Ha Hws HPhi Hfit.
    destruct (call_training_ok d b a st Hws Ha HPhi Hfit)
      as (updated & _ & Hcall).
    exists (after_training st updated). split; [exact Hcall|].
    split; reflexivity.
  - intros a Ha. cbv zeta.
    destruct Hcons as [[d Hws] Hflag].
    destruct (inversion_raises st) eqn:Hraises.
    + destruct (call_inference_raises d a st Hws Ha Hraises) as (Hset & ->).
      split; [exact Hset|]. split; [reflexivity|]. eexists; reflexivity.
    + assert (Hc : consistent st) by (split; [now exists d | exact Hflag]).
      destruct (Hinf st a Hc Ha Hraises) as (H1 & H2 & _). now split.
  - destruct Hcons as [[d Hws] _].
    destruct (inversion_raises_spec d st Hws) as (ridged & Hr & _ & _ & -> & _).
    rewrite andb_true_iff, negb_true_iff. split.
    + intros [Hf Hi]. split; [exact Hf|]. now exists ridged.
    + intros [Hf (ridged' & Hr' & Hi)]. rewrite Hr in Hr'. injection Hr' as <-.
      now split.
  - intros t i1 i2 st1 out Ht Hi1 Hi2 Hcall Hpass st2 st3.
    assert (Hreach1 : reachable st1).
    { destruct Hreach as (self0 & input_shape & covariance0 & st0 & calls & Hb & ->).
      exists self0, input_shape, covariance0, st0, (calls ++ [t]).
      split; [exact Hb|]. unfold run. rewrite fold_left_app. cbn [fold_left].
      unfold run in Hcall. now rewrite Hcall. }
    pose proof (reachable_consistent st1 Hreach1) as Hc1.
    assert (Hf1 : if_update_covariance st1 = true).
    { destruct (call_training_cases t st Ht)
        as [(e & He) | (updated & _ & _ & Hok)].
      - rewrite He in Hcall. discriminate.
      - rewrite Hok in Hcall. injection Hcall as <- _. reflexivity. }
    destruct (Hinf st1 i1 Hc1 Hi1 Hpass) as (Hn2 & Hf2 & _).
    fold st2 in Hn2, Hf2.
    assert (Hreach2 : reachable st2).
    { destruct Hreach1 as (self0 & input_shape & covariance0 & st0 & calls & Hb & ->).
      exists self0, input_shape, covariance0, st0, (calls ++ [i1]).
      split; [exact Hb|]. unfold run. rewrite fold_left_app. reflexivity. }
    pose proof (reachable_consistent st2 Hreach2) as Hc2.
    destruct (Hinf st2 i2 Hc2 Hi2 (inversion_raises_flag st2 Hf2))
      as (Hn3 & _ & Hkeep).
    fold st3 in Hn3, Hkeep.
    rewrite Hf1 in Hn2. rewrite Hf2 in Hn3.
    split; [lia|]. split; [lia|]. split; [exact Hf2|].
    split; [|now apply Hkeep].
    apply (reachable_covariance_current st2 Hreach2); [exact Hf2 | lia].
  - destruct Hcons as [_ Hflag]. rewrite Hflag. tauto.
  - exact Hcur.
Qed.

(** The default layer: a training-mode call on two feature vectors returns
    and sets the flag; the inversion of the next inference-mode call passes,
    and two inference-mode calls run one inversion. *)
Lemma dirty_flag_discipline_witness :
  let st := LaplaceExamples.built_on LaplaceExamples.gaussian_layer in
  @reachable Diagonal.backend st /\
  exists st1,
    @call_with Diagonal.backend LaplaceExamples.training_call st
    = (st1, Ok (eye 2)) /\
    if_update_covariance st1 = true /\
    @inversion_raises Diagonal.backend st1 = false /\
    let st2 := fst (@call_with Diagonal.backend LaplaceExamples.inference_call st1) in
    let st3 := fst (@call_with Diagonal.backend LaplaceExamples.inference_call st2) in
    inversions (trace st2) = 1%nat /\
    inversions (trace st3) = 1%nat /\
    if_update_covariance st2 = false /\
    covariance_matrix st3 = covariance_matrix st2.
Proof.
  cbv zeta.
  assert (Hreach : @reachable Diagonal.backend
            (LaplaceExamples.built_on LaplaceExamples.gaussian_layer)).
  { exists LaplaceExamples.gaussian_layer, [2; 1]%nat, (fun _ _ => 0),
      (LaplaceExamples.built_on LaplaceExamples.gaussian_layer), [].
    split; reflexivity. }
  split; [exact Hreach|].
  assert (Hws : well_shaped 1
                  (LaplaceExamples.built_on LaplaceExamples.gaussian_layer))
    by (repeat split).
  destruct (@dirty_flag_discipline Diagonal.backend _ Hreach)
    as (_ & Htrain & _ & _ & Htwice & _ & _).
  destruct (Htrain LaplaceExamples.training_call 1%nat 2%nat eq_refl Hws eq_refl
              (or_introl eq_refl)) as (st1 & Hcall & Hflag & Htrace).
  exists st1. split; [exact Hcall|]. split; [exact Hflag|].
  destruct (training_call_1x1 LaplaceExamples.training_call _ 2
              Hws eq_refl eq_refl eq_refl ltac:(cbn; lra))
    as (st1' & Hcall' & Hws1 & Hself & _ & _ & Hentry).
  rewrite Hcall in Hcall'. injection Hcall' as <-.
  assert (Hpass : @inversion_raises Diagonal.backend st1 = false).
  { apply diagonal_inverts_1x1; [exact Hws1|].
    rewrite Hentry, Hself. cbn. lra. }
  split; [exact Hpass|].
  destruct (Htwice LaplaceExamples.training_call LaplaceExamples.inference_call
              LaplaceExamples.inference_call st1 (eye 2)
              eq_refl eq_refl eq_refl Hcall Hpass)
    as (Hn2 & Hn3 & Hf2 & _ & Hkeep).
  rewrite Htrace in Hn2, Hn3. cbn in Hn2, Hn3.
  split; [exact Hn2|]. split; [exact Hn3|]. split; [exact Hf2 | exact Hkeep].
Defined.

(** [reset_precision_matrix] assigns the precision matrix and leaves the
    flag as it is: the invariant above is one of sequences of calls. *)
Remark reset_keeps_flag (d : nat) (st : Built) :
  well_shaped d st ->
  let st' := fst (reset_precision_matrix st) in
  stale (trace st') = true /\
  if_update_covariance st' = if_update_covariance st.
Proof.
  intros (HP & _ & HI). cbv zeta.
  unfold reset_precision_matrix, assign_precision_matrix.
  rewrite HI, HP, shape_eqb_refl. cbn. split; reflexivity.
Qed.

(** C3.  A training-mode call on a minibatch of [b] feature vectors whose
    weighted second-moment matrix is [M] leaves the precision matrix
    [momentum * P + (1 - momentum) * (M / b)] when [momentum > 0] (with the
    factors 0.999 and 0.001 for the default momentum) and [P + M] when
    [momentum <= 0]; the call returns when the logits fit the likelihood. *)
Theorem precision_update {linalg : LinalgBackend} (d b : nat)
    (a : call_args) (st : Built) :
  well_shaped d st -> is_training a = true ->
  shape (arg_inputs a) = (b, d) ->
  (logits_fit (likelihood (self st)) (arg_logits a) b ->
   exists st', call_with a st = (st', Ok (eye b))) /\
  (forall st' out,
     call_with a st = (st', Ok out) ->
     exists M,
       precision_matrix_minibatch (likelihood (self st))
         (arg_inputs a) (arg_logits a) = Ok M /\
       let m := momentum (self st) in
       let P := precision_matrix st in
       (0 < m ->
        mat_eq (precision_matrix st')
          (mat_add (scalar_mul m P) (scalar_mul (1 - m) (div_scalar M (INR b))))) /\
       (m <= 0 -> mat_eq (precision_matrix st') (mat_add P M)) /\
       (m = 0.999 ->
        forall i j, (i < d)%nat -> (j < d)%nat ->
          entry (precision_matrix st') i j
          = 0.999 * entry P i j + 0.001 * (entry M i j / INR b))).
Proof.
  intros Hws Htrain HPhi. split.
  - intros Hfit.
    destruct (call_training_ok d b a st Hws Htrain HPhi Hfit)
      as (updated & _ & Hcall).
    eauto.
  - intros st' out Hcall.
    destruct (call_training_cases a st Htrain)
      as [(e & He) | (updated & Hup & _ & Hok)].
    { rewrite He in Hcall. discriminate. }
    rewrite Hok in Hcall. injection Hcall as <- _.
    destruct (update_feature_precision_matrix_returns d b st _ _ _ Hws HPhi Hup)
      as (M & HM & _ & Hs & Hpos & Hneg).
    exists M. split; [exact HM|].
    cbv zeta. cbn [precision_matrix after_training].
    split; [exact Hpos|]. split; [exact Hneg|].
    intros Hm i j Hi Hj.
    destruct Hpos as (Hr & Hc & He); [lra|].
    unfold shape in Hs. injection Hs as Hnr Hnc.
    rewrite He by congruence. cbn. rewrite Hm. lra.
Qed.

(** The default layer on two feature vectors. *)
Lemma precision_update_witness :
  well_shaped 1 (LaplaceExamples.built_on LaplaceExamples.gaussian_layer) /\
  (exists st',
     @call_with Diagonal.backend LaplaceExamples.training_call
       (LaplaceExamples.built_on LaplaceExamples.gaussian_layer)
     = (st', Ok (eye 2)) /\
     forall i j, (i < 1)%nat -> (j < 1)%nat ->
       exists M,
         precision_matrix_minibatch "gaussian" LaplaceExamples.features None
         = Ok M /\
         entry (precision_matrix st') i j
         = 0.999 * 0 + 0.001 * (entry M i j / INR 2)).
Proof.
  assert (Hws : well_shaped 1
                  (LaplaceExamples.built_on LaplaceExamples.gaussian_layer))
    by (repeat split).
  split; [exact Hws|].
  destruct (@precision_update Diagonal.backend 1 2
              LaplaceExamples.training_call
              (LaplaceExamples.built_on LaplaceExamples.gaussian_layer)
              Hws eq_refl eq_refl) as (Hreturns & Hvalue).
  destruct (Hreturns (or_introl eq_refl)) as (st' & Hcall).
  exists st'. split; [exact Hcall|].
  intros i j Hi Hj.
  destruct (Hvalue st' _ Hcall) as (M & HM & _ & _ & Hdefault).
  exists M. split; [exact HM|].
  exact (Hdefault eq_refl i j Hi Hj).
Defined.

(** C6.  An inference-mode call with the update-pending flag set hands
    [ridge_penalty * I + P] to [tf.linalg.inv].  When the inversion returns
    [C], the call stores [C] as the covariance, clears the flag and returns
    [ridge_penalty * Phi * C * Phi^T], a [b x b] matrix, for the [b x d]
    feature matrix [Phi].  When the inversion raises, for a sum that is not
    invertible, the call raises and changes nothing; a call that returns
    has inverted the sum. *)
Theorem inference_recomputes_covariance {linalg : LinalgBackend} (d b : nat)
    (a : call_args) (st : Built) :
  well_shaped d st -> is_training a = false ->
  if_update_covariance st = true ->
  shape (arg_inputs a) = (b, d) ->
  exists ridged,
    ridged_precision_matrix st = Ok ridged /\
    mat_eq ridged
      (mat_add (scalar_mul (ridge_penalty (self st)) (eye d)) (precision_matrix st)) /\
    (invertible ridged = true ->
     exists C st' out,
       linalg_inv ridged = Ok C /\
       C = {| nrows := d; ncols := d; entry := inv_entries ridged |} /\
       call_with a st = (st', Ok out) /\
       covariance_matrix st' = C /\
       if_update_covariance st' = false /\
       precision_matrix st' = precision_matrix st /\
       mat_eq out
         (scalar_mul (ridge_penalty (self st))
            (mat_prod (arg_inputs a) (mat_prod C (transpose (arg_inputs a))))) /\
       shape out = (b, b)) /\
    (invertible ridged = false ->
     exists msg,
       linalg_inv ridged = Raise (InvalidArgumentError msg) /\
       call_with a st = (st, Raise (InvalidArgumentError msg))) /\
    (forall st' out, call_with a st = (st', Ok out) -> invertible ridged = true).
Proof.
  intros Hws Hinfer Hflag HPhi.
  destruct (inversion_raises_spec d st Hws)
    as (ridged & Hr & Heq & _ & Hspec & Hlinalg).
  rewrite Hflag in Hspec. cbn [andb] in Hspec.
  exists ridged. split; [exact Hr|]. split; [exact Heq|].
  assert (Hsing : invertible ridged = false ->
            exists msg,
              linalg_inv ridged = Raise (InvalidArgumentError msg) /\
              call_with a st = (st, Raise (InvalidArgumentError msg))).
  { intros Hinv. rewrite Hinv in Hspec, Hlinalg.
    destruct (call_inference_raises d a st Hws Hinfer Hspec) as (_ & Hcall).
    eexists. split; [exact Hlinalg | exact Hcall]. }
  split; [|split; [exact Hsing|]].
  - intros Hinv. rewrite Hinv in Hspec, Hlinalg.
    destruct (call_inference d a st Hws Hinfer Hspec) as (C & HCs & Hupd & Hcall).
    rewrite Hflag in Hupd, Hcall.
    destruct Hupd as (ridged' & Hr' & _ & _ & HC).
    rewrite Hr in Hr'. injection Hr' as <-.
    destruct (compute_predictive_covariance_ok d b (arg_inputs a)
                (after_inference st C true) HCs HPhi)
      as (out & Hout & Hval & Hshape).
    exists C, (after_inference st C true), out.
    split; [now rewrite HC|]. split; [exact HC|].
    split; [now rewrite Hcall, Hout|].
    split; [reflexivity|]. split; [reflexivity|]. split; [reflexivity|].
    split; [exact Hval | exact Hshape].
  - intros st' out Hcall.
    destruct (invertible ridged) eqn:Hinv; [reflexivity|].
    destruct (Hsing eq_refl) as (msg & _ & Hraise).
    rewrite Hraise in Hcall. discriminate.
Qed.

(** The trained default layer on two feature vectors: the sum is
    invertible, and the call returns a 2 x 2 predictive covariance. *)
Lemma inference_recomputes_covariance_witness :
  well_shaped 1 LaplaceExamples.trained_layer /\
  if_update_covariance LaplaceExamples.trained_layer = true /\
  (exists st' out,
     @call_with Diagonal.backend LaplaceExamples.inference_call
       LaplaceExamples.trained_layer = (st', Ok out) /\
     if_update_covariance st' = false /\
     shape out = (2, 2)%nat).
Proof.
  assert (Hws : well_shaped 1 LaplaceExamples.trained_layer) by (repeat split).
  split; [exact Hws|]. split; [reflexivity|].
  destruct (@inference_recomputes_covariance Diagonal.backend 1 2
              LaplaceExamples.inference_call LaplaceExamples.trained_layer
              Hws eq_refl eq_refl eq_refl)
    as (ridged & Hr & Heq & Hpass & _ & _).
  assert (Hinv : @invertible Diagonal.backend ridged = true).
  { destruct (ridged_entry_1x1 _ ridged Hws Heq) as (Hnr & He).
    rewrite (diagonal_invertible_1x1 ridged Hnr), He.
    destruct (Req_EM_T _ 0) as [H0|_]; [|reflexivity].
    exfalso. cbn in H0. lra. }
  destruct (Hpass Hinv) as (C & st' & out & _ & _ & Hcall & _ & Hflag & _ & _ & Hshape).
  exists st', out. split; [exact Hcall|]. split; [exact Hflag | exact Hshape].
Defined.

(** C7.  In a training-mode call that returns, on a minibatch [Phi] of [b]
    feature vectors, the features are weighted by the likelihood: with the
    weight 1 under the Gaussian likelihood (and under any other than the
    logistic and the Poisson one), [sigmoid(logit) (1 - sigmoid(logit))]
    under the logistic likelihood and [exp(logit)] under the Poisson
    likelihood, the logits being one column that the product broadcasts
    against the rows of [Phi].  The minibatch matrix [M] is the Gram matrix
    of the weighted features, which is [(sqrt(w) Phi)^T (sqrt(w) Phi)] for
    one weight per feature vector, and the precision matrix the call leaves
    is computed from [M].  The call returns when the logits fit the
    likelihood. *)
Theorem weighted_second_moment {linalg : LinalgBackend} (d b : nat)
    (a : call_args) (st : Built) :
  well_shaped d st -> is_training a = true ->
  shape (arg_inputs a) = (b, d) ->
  let lik := likelihood (self st) in
  let Phi := arg_inputs a in
  (forall st' out,
     call_with a st = (st', Ok out) ->
     exists rows weight n M,
       (lik <> "binary_logistic"%string -> lik <> "poisson"%string ->
        rows = b /\ forall i, weight i = 1) /\
       (lik = "binary_logistic"%string ->
        exists l, arg_logits a = Some l /\ ncols l = 1%nat /\ rows = nrows l /\
          forall i, weight i
                    = sigmoid (entry l i 0%nat) * (1 - sigmoid (entry l i 0%nat))) /\
       (lik = "poisson"%string ->
        exists l, arg_logits a = Some l /\ ncols l = 1%nat /\ rows = nrows l /\
          forall i, weight i = exp (entry l i 0%nat)) /\
       broadcast_dim rows b = Some n /\
       precision_matrix_minibatch lik Phi (arg_logits a) = Ok M /\
       mat_eq M (mat_prod (transpose (weighted_features rows weight Phi n))
                          (weighted_features rows weight Phi n)) /\
       (rows = b -> mat_eq M (second_moment weight Phi)) /\
       (0 < momentum (self st) ->
        mat_eq (precision_matrix st')
          (mat_add (scalar_mul (momentum (self st)) (precision_matrix st))
                   (scalar_mul (1 - momentum (self st)) (div_scalar M (INR b))))) /\
       (momentum (self st) <= 0 ->
        mat_eq (precision_matrix st') (mat_add (precision_matrix st) M))) /\
  (logits_fit lik (arg_logits a) b ->
   exists st', call_with a st = (st', Ok (eye b))).
Proof.
  intros Hws Htrain HPhi lik Phi. split.
  - intros st' out Hcall.
    destruct (call_training_cases a st Htrain)
      as [(e & He) | (updated & Hup & _ & Hok)].
    { rewrite He in Hcall. discriminate. }
    rewrite Hok in Hcall. injection Hcall as <- _.
    destruct (update_feature_precision_matrix_returns d b st _ _ _ Hws HPhi Hup)
      as (M & HM & _ & _ & Hpos & Hneg).
    destruct (minibatch_weighted _ _ _ _ (update_checks _ _ _ _ Hup) HM)
      as (rows & weight & n & Hg & Hl & Hp & Hn & Heq).
    assert (Hb : nrows (arg_inputs a) = b) by (unfold shape in HPhi; congruence).
    rewrite Hb in Hg, Hn.
    exists rows, weight, n, M.
    split; [exact Hg|]. split; [exact Hl|]. split; [exact Hp|].
    split; [exact Hn|]. split; [exact HM|]. split; [exact Heq|].
    split; [|split; [exact Hpos | exact Hneg]].
    intros Hrows. subst rows. rewrite broadcast_dim_same in Hn.
    injection Hn as <-.
    apply (mat_eq_trans _ _ _ Heq). fold Phi. rewrite <- Hb.
    apply second_moment_of, weighted_features_rows.
  - intros Hfit.
    destruct (call_training_ok d b a st Hws Htrain HPhi Hfit)
      as (updated & _ & Hcall).
    eauto.
Qed.

(** Two feature vectors with one logit each under the Poisson likelihood:
    the call returns, and the precision matrix it leaves is the moving
    average with the second moment weighted by [exp(logit)]. *)
Lemma weighted_second_moment_witness :
  let st := LaplaceExamples.built_on LaplaceExamples.poisson_layer in
  let l := LaplaceExamples.logits_2x1 in
  well_shaped 1 st /\
  exists st' M,
    @call_with Diagonal.backend LaplaceExamples.logits_training_call st
    = (st', Ok (eye 2)) /\
    mat_eq M (second_moment (fun i => exp (entry l i 0%nat))
                LaplaceExamples.features) /\
    mat_eq (precision_matrix st')
      (mat_add (scalar_mul 0.999 (precision_matrix st))
               (scalar_mul (1 - 0.999) (div_scalar M (INR 2)))).
Proof.
  cbv zeta.
  assert (Hws : well_shaped 1
                  (LaplaceExamples.built_on LaplaceExamples.poisson_layer))
    by (repeat split).
  split; [exact Hws|].
  destruct (@weighted_second_moment Diagonal.backend 1 2
              LaplaceExamples.logits_training_call
              (LaplaceExamples.built_on LaplaceExamples.poisson_layer)
              Hws eq_refl eq_refl) as (Hvalue & Hreturns).
  destruct Hreturns as (st' & Hcall).
  { right. exists LaplaceExamples.logits_2x1. split; reflexivity. }
  destruct (Hvalue st' _ Hcall)
    as (rows & weight & n & M & _ & _ & Hp & _ & _ & _ & Hsecond & Hpos & _).
  destruct (Hp eq_refl) as (l & Hl & _ & Hrows & Hweight).
  injection Hl as <-.
  exists st', M. split; [exact Hcall|]. split.
  - apply (mat_eq_trans _ _ _ (Hsecond Hrows)).
    apply mat_prod_ext; [| |reflexivity];
      repeat split; intros i j _ _; cbn; now rewrite Hweight.
  - apply Hpos. cbn. lra.
Defined.

(** C8.  [__init__] raises ValueError for a likelihood outside
    (binary_logistic, poisson, gaussian).  Under a likelihood other than
    gaussian the precision update raises ValueError when [logits] is None or
    its last dimension is not 1, and so does the training-mode call, which
    leaves the variables as they were. *)
Theorem likelihood_and_logits_validation {linalg : LinalgBackend} :
  (forall m r lik,
     ~ In lik ["binary_logistic"; "poisson"; "gaussian"]%string ->
     exists msg, init m r lik = Raise (ValueError msg)) /\
  (forall st Phi logits,
     likelihood (self st) <> "gaussian"%string ->
     (logits = None \/ exists l, logits = Some l /\ ncols l <> 1%nat) ->
     exists msg,
       update_feature_precision_matrix st Phi logits = Raise (ValueError msg)) /\
  (forall st a,
     is_training a = true ->
     likelihood (self st) <> "gaussian"%string ->
     (arg_logits a = None \/ exists l, arg_logits a = Some l /\ ncols l <> 1%nat) ->
     exists msg, call_with a st = (st, Raise (ValueError msg))).
Proof.
  assert (Hupdate : forall st Phi logits,
     likelihood (self st) <> "gaussian"%string ->
     (logits = None \/ exists l, logits = Some l /\ ncols l <> 1%nat) ->
     exists msg,
       update_feature_precision_matrix st Phi logits = Raise (ValueError msg)).
  { intros st Phi logits Hlik Hlogits.
    unfold update_feature_precision_matrix, check_logits.
    destruct (String.eqb_spec (likelihood (self st)) "gaussian");
      [contradiction|].
    cbn [negb]. destruct Hlogits as [-> | (l & -> & Hl)].
    - eexists; reflexivity.
    - destruct (Nat.eqb_spec (ncols l) 1); [contradiction|].
      eexists; reflexivity. }
  split; [|split; [exact Hupdate|]].
  - intros m r lik Hnot. unfold init.
    destruct (str_in lik _SUPPORTED_LIKELIHOOD) eqn:Hin.
    + apply str_in_In in Hin. contradiction.
    + eexists; reflexivity.
  - intros st a Htrain Hlik Hlogits.
    destruct (Hupdate st (arg_inputs a) (arg_logits a) Hlik Hlogits)
      as (msg & Hraise).
    exists msg. now rewrite (call_training a st Htrain), Hraise.
Qed.

(** An unsupported likelihood, a Poisson layer without logits and one with
    bivariate logits. *)
Lemma likelihood_and_logits_validation_witness :
  (exists msg, init 0.999 1e-6 "probit" = Raise (ValueError msg)) /\
  (exists msg,
     update_feature_precision_matrix
       (LaplaceExamples.built_on LaplaceExamples.poisson_layer)
       LaplaceExamples.features None = Raise (ValueError msg)) /\
  (exists msg,
     update_feature_precision_matrix
       (LaplaceExamples.built_on LaplaceExamples.poisson_layer)
       LaplaceExamples.features (Some LaplaceExamples.logits_2x2)
     = Raise (ValueError msg)).
Proof.
  destruct (@likelihood_and_logits_validation Diagonal.backend)
    as (Hinit & Hupdate & _).
  split; [|split].
  - apply Hinit. cbn. intros [H | [H | [H | []]]]; discriminate.
  - apply Hupdate; [cbn; discriminate | now left].
  - apply Hupdate; [cbn; discriminate |].
    right. exists LaplaceExamples.logits_2x2. split; [reflexivity|].
    cbn. discriminate.
Defined.

(** C10.  For a feature batch of shape [(b, d)], a call that returns
    returns a [b x b] matrix: in training mode the identity of size [b]
    (the call returns when the logits fit the likelihood), and in inference
    mode the predictive covariance [ridge_penalty * Phi * C * Phi^T] for the
    covariance [C] the call leaves (the call returns unless its inversion
    raises).  [compute_output_shape] declares [(d, d)], which differs from
    [(b, b)] whenever [b <> d]. *)
Theorem call_output_shape {linalg : LinalgBackend} (d b : nat)
    (a : call_args) (st : Built) :
  well_shaped d st ->
  shape (arg_inputs a) = (b, d) ->
  (is_training a = true ->
   (forall st' out, call_with a st = (st', Ok out) -> out = eye b) /\
   (logits_fit (likelihood (self st)) (arg_logits a) b ->
    exists st', call_with a st = (st', Ok (eye b)))) /\
  (is_training a = false ->
   (forall st' out,
      call_with a st = (st', Ok out) ->
      shape out = (b, b) /\
      mat_eq out
        (scalar_mul (ridge_penalty (self st))
           (mat_prod (arg_inputs a)
              (mat_prod (covariance_matrix st') (transpose (arg_inputs a)))))) /\
   (inversion_raises st = false ->
    exists st' out, call_with a st = (st', Ok out)) /\
   (inversion_raises st = true ->
    exists msg, call_with a st = (st, Raise (InvalidArgumentError msg)))) /\
  shape (eye b) = (b, b) /\
  compute_output_shape [b; d] = Ok [d; d] /\
  (b <> d -> [d; d] <> [b; b]).
Proof.
  intros Hws HPhi.
  split; [|split; [|split; [|split]]].
  - intros Htrain. split.
    + intros st' out Hcall.
      destruct (call_training_cases a st Htrain)
        as [(e & He) | (updated & _ & _ & Hok)].
      * rewrite He in Hcall. discriminate.
      * rewrite Hok in Hcall. injection Hcall as _ <-.
        unfold shape in HPhi. injection HPhi as -> _. reflexivity.
    + intros Hfit.
      destruct (call_training_ok d b a st Hws Htrain HPhi Hfit)
        as (updated & _ & Hcall).
      eauto.
  - intros Hinfer.
    assert (Hpass : inversion_raises st = false ->
              exists C out,
                call_with a st
                = (after_inference st C (if_update_covariance st), Ok out) /\
                shape out = (b, b) /\
                mat_eq out
                  (scalar_mul (ridge_penalty (self st))
                     (mat_prod (arg_inputs a)
                        (mat_prod C (transpose (arg_inputs a)))))).
    { intros Hp.
      destruct (call_inference d a st Hws Hinfer Hp) as (C & HCs & _ & Hcall).
      destruct (compute_predictive_covariance_ok d b (arg_inputs a)
                  (after_inference st C (if_update_covariance st)) HCs HPhi)
        as (out & Hout & Hval & Hshape).
      exists C, out. split; [now rewrite Hcall, Hout|]. split; assumption. }
    assert (Hfail : inversion_raises st = true ->
              exists msg, call_with a st = (st, Raise (InvalidArgumentError msg))).
    { intros Hr.
      destruct (call_inference_raises d a st Hws Hinfer Hr) as (_ & Hcall).
      eexists; exact Hcall. }
    split; [|split; [|exact Hfail]].
    + intros st' out Hcall.
      destruct (inversion_raises st) eqn:Hraises.
      * destruct (Hfail eq_refl) as (msg & Hraise).
        rewrite Hraise in Hcall. discriminate.
      * destruct (Hpass eq_refl) as (C & out' & Hcall' & Hshape & Hval).
        rewrite Hcall' in Hcall. injection Hcall as <- <-.
        split; [exact Hshape | exact Hval].
    + intros Hp. destruct (Hpass Hp) as (C & out & Hcall & _). eauto.
  - reflexivity.
  - reflexivity.
  - intros Hne Heq. injection Heq as Heq _. congruence.
Qed.

(** Two feature vectors of width 1: the call returns a 2 x 2 matrix and
    [compute_output_shape] declares 1 x 1. *)
Lemma call_output_shape_witness :
  well_shaped 1 LaplaceExamples.trained_layer /\
  shape (arg_inputs LaplaceExamples.inference_call) = (2, 1)%nat /\
  (exists st' out,
     @call_with Diagonal.backend LaplaceExamples.inference_call
       LaplaceExamples.trained_layer = (st', Ok out) /\
     shape out = (2, 2)%nat) /\
  compute_output_shape [2; 1]%nat = Ok [1; 1]%nat.
Proof.
  assert (Hws : well_shaped 1 LaplaceExamples.trained_layer) by (repeat split).
  split; [exact Hws|]. split; [reflexivity|].
  destruct (@call_output_shape Diagonal.backend 1 2
              LaplaceExamples.inference_call LaplaceExamples.trained_layer
              Hws eq_refl)
    as (_ & Hinfer & _ & Hdecl & _).
  split; [|exact Hdecl].
  destruct (Hinfer eq_refl) as (Hvalue & Hreturns & _).
  destruct (Hreturns trained_layer_inverts) as (st' & out & Hcall).
  exists st', out. split; [exact Hcall|].
  exact (proj1 (Hvalue st' out Hcall)).
Defined.

End LaplaceSpec.

(** * Further properties of the spectral-normalisation wrapper *)

Module SpectralNormMore.
Import SpectralNorm StoreFacts TensorFacts SpectralNormFacts.

Lemma dot_scale_l (k : R) (x y : tensor) :
  dot (scale k x) y = k * dot x y.
Proof.
  unfold dot, scale, reduce_sum. revert y.
  induction x as [|a x IH]; intros [|c y]; simpl; try ring.
  rewrite IH. ring.
Qed.

Lemma dot_scaled_self (k : R) (x : tensor) :
  dot x (map (fun a => a * k) x) = sum_squares x * k.
Proof.
  unfold dot, sum_squares, reduce_sum.
  induction x as [|a x IH]; simpl; [ring|]. rewrite IH. ring.
Qed.

(** The product of a tensor with its normalisation. *)
Lemma dot_l2_normalize (x : tensor) :
  dot x (l2_normalize x)
  = sum_squares x / sqrt (Rmax (sum_squares x) l2_epsilon).
Proof. unfold l2_normalize. now rewrite dot_scaled_self. Qed.

Lemma sqrt_max_pos (q : R) : 0 < sqrt (Rmax q l2_epsilon).
Proof.
  apply sqrt_lt_R0.
  pose proof (Rmax_r q l2_epsilon). pose proof l2_epsilon_pos. lra.
Qed.

(** A normalised tensor is never longer than a unit vector. *)
Lemma l2_normalize_norm_le_1 (x : tensor) : l2_norm (l2_normalize x) <= 1.
Proof.
  unfold l2_norm. rewrite sum_squares_l2_normalize.
  rewrite <- sqrt_1. apply sqrt_le_1_alt.
  pose proof (sum_squares_nonneg x) as Hx.
  pose proof (Rmax_l (sum_squares x) l2_epsilon) as Hl.
  pose proof (Rmax_r (sum_squares x) l2_epsilon) as Hr.
  pose proof l2_epsilon_pos as He.
  apply (Rmult_le_reg_r (Rmax (sum_squares x) l2_epsilon)); [lra|].
  unfold Rdiv. rewrite Rmult_assoc, Rinv_l by lra. lra.
Qed.

Section WithBackend.
Context {backend : ConvBackend}.

(** With at least one iteration the loop ends on a power step. *)
Lemma estimate_uv_last_step (b : Built) (s : store) (k : nat) :
  do_power_iteration (self b) = true -> iteration (self b) = S k ->
  estimate_uv b s
  = power_step (read s (w b))
      (Nat.iter k (power_step (read s (w b))) (read s (u b), read s (v b))).
Proof.
  intros Hflag Hk. unfold estimate_uv. rewrite Hflag, Hk.
  now rewrite power_iteration_iter.
Qed.

(** X1.  A forward call assigns to the kernel, [u] and [v] and to nothing
    else: every other variable keeps its value, and no variable is created. *)
Theorem spectral_call_frame (b : Built) (s : store) (inputs : tensor) (x : var) :
  x <> layer_kernel b -> x <> u b -> x <> v b ->
  read (fst (call b s inputs)) x = read s x /\
  next_var (fst (call b s inputs)) = next_var s.
Proof.
  intros Hk Hu Hv. unfold call, restore_weights, update_weights; cbn [fst].
  destruct (estimate_uv b s) as [u_hat v_hat].
  split; [|reflexivity].
  now rewrite !read_assign_other by assumption.
Qed.

(** X2.  When [self.w] and the layer's kernel are one variable, as [build]
    leaves them, [restore_weights] changes no variable, and after a forward
    call the kernel variable holds the kernel the layer ran with. *)
Theorem restore_is_identity (b : Built) (s : store) (inputs : tensor) :
  references_as_built b ->
  (forall s1 x, read (restore_weights b s1) x = read s1 x) /\
  read (fst (call b s inputs)) (layer_kernel b) = kernel_used b s /\
  snd (call b s inputs) = layer_call (read (fst (call b s inputs)) (layer_kernel b)) inputs.
Proof.
  intros Hrefs. pose proof Hrefs as (Hw & _).
  assert (Hnoop : forall s1 x, read (restore_weights b s1) x = read s1 x).
  { intros s1 x. unfold restore_weights. rewrite Hw. apply assign_own_value. }
  split; [exact Hnoop|].
  assert (Hk : read (fst (call b s inputs)) (layer_kernel b) = kernel_used b s).
  { unfold call; cbn [fst]. now rewrite Hnoop. }
  split; [exact Hk|]. now rewrite Hk.
Qed.

(** X3.  With the estimate flag set and at least one iteration, the
    estimated singular value is never negative and never exceeds the L2 norm
    of [conv(v, W)]. *)
Theorem estimated_sigma_bounds (b : Built) (s : store) :
  do_power_iteration (self b) = true ->
  (1 <= iteration (self b))%nat ->
  0 <= sigma_of b s <= l2_norm (conv2d (snd (estimate_uv b s)) (read s (w b))).
Proof.
  intros Hflag Hk.
  destruct (iteration (self b)) as [|k] eqn:Hit; [lia|].
  unfold sigma_of. rewrite (estimate_uv_last_step b s k Hflag Hit).
  unfold power_step; cbn [fst snd].
  set (x := conv2d _ (read s (w b))).
  rewrite dot_l2_normalize. unfold l2_norm.
  pose proof (sum_squares_nonneg x) as Hq.
  pose proof (sqrt_max_pos (sum_squares x)) as Hs.
  pose proof (Rmax_l (sum_squares x) l2_epsilon) as Hl.
  assert (Hle : sqrt (sum_squares x) <= sqrt (Rmax (sum_squares x) l2_epsilon))
    by (apply sqrt_le_1_alt; exact Hl).
  assert (Hsq : sqrt (sum_squares x) * sqrt (sum_squares x) = sum_squares x)
    by (apply sqrt_sqrt; exact Hq).
  pose proof (sqrt_pos (sum_squares x)) as Hp.
  split.
  - apply Rmult_le_pos; [exact Hq|]. left. now apply Rinv_0_lt_compat.
  - apply (Rmult_le_reg_r (sqrt (Rmax (sum_squares x) l2_epsilon))); [exact Hs|].
    unfold Rdiv. rewrite Rmult_assoc, Rinv_l by lra.
    rewrite Rmult_1_r. rewrite <- Hsq at 1.
    apply Rmult_le_compat_l; assumption.
Qed.

(** X4.  With the estimate flag set and at least one iteration, the [u] and
    [v] a forward call stores are never longer than unit vectors. *)
Theorem persisted_uv_norm_le_1 (b : Built) (s : store) (inputs : tensor) :
  references_as_built b ->
  do_power_iteration (self b) = true ->
  (1 <= iteration (self b))%nat ->
  l2_norm (read (fst (call b s inputs)) (u b)) <= 1 /\
  l2_norm (read (fst (call b s inputs)) (v b)) <= 1.
Proof.
  intros Hrefs Hflag Hk.
  destruct (iteration (self b)) as [|k] eqn:Hit; [lia|].
  destruct (call_persists_uv b s inputs Hrefs) as [Hu Hv].
  rewrite Hu, Hv, (estimate_uv_last_step b s k Hflag Hit).
  unfold power_step; cbn [fst snd].
  split; apply l2_normalize_norm_le_1.
Qed.

(** X5.  With the estimate flag unset and a convolution that is homogeneous
    in its kernel, one forward call over the budget ([0 < c < sigma]) leaves
    a kernel whose estimate is exactly [c], and the next forward call runs
    with that kernel and leaves it as it is. *)
Theorem fixed_uv_rescale_settles (b : Built) (s : store) (inputs inputs' : tensor) :
  references_as_built b ->
  do_power_iteration (self b) = false ->
  (forall k x W, conv2d x (scale k W) = scale k (conv2d x W)) ->
  0 < norm_multiplier (self b) < sigma_of b s ->
  let s1 := fst (call b s inputs) in
  read s1 (layer_kernel b)
  = scale (norm_multiplier (self b) / sigma_of b s) (read s (w b)) /\
  sigma_of b s1 = norm_multiplier (self b) /\
  kernel_used b s1 = read s1 (layer_kernel b) /\
  read (fst (call b s1 inputs')) (layer_kernel b) = read s1 (layer_kernel b).
Proof.
  intros Hrefs Hflag Hhom [Hc Hsigma] s1.
  pose proof Hrefs as (Hw & Hv & Hu & Huv).
  set (c := norm_multiplier (self b)) in *.
  set (sigma := sigma_of b s) in *.
  assert (Hratio : c / sigma < 1).
  { unfold Rdiv. apply (Rmult_lt_reg_r sigma); [lra|].
    rewrite Rmult_assoc, Rinv_l by lra. lra. }
  assert (Hk1 : read s1 (layer_kernel b) = scale (c / sigma) (read s (w b))).
  { unfold s1. rewrite call_persists_used_kernel by exact Hrefs.
    rewrite kernel_used_cond by exact Hrefs. fold c sigma.
    rewrite quotient_lt_1_nonzero by lra.
    destruct (Rlt_dec (c / sigma) 1); [reflexivity | contradiction]. }
  destruct (call_persists_uv b s inputs Hrefs) as [Hu1 Hv1]. fold s1 in Hu1, Hv1.
  assert (Hest : estimate_uv b s = (read s (u b), read s (v b)))
    by (unfold estimate_uv; now rewrite Hflag).
  rewrite Hest in Hu1, Hv1; cbn [fst snd] in Hu1, Hv1.
  assert (Hs1 : sigma_of b s1 = c).
  { unfold sigma_of, estimate_uv. rewrite Hflag, Hu1, Hv1, Hw, Hk1.
    rewrite Hhom, dot_scale_l.
    assert (Hsig : dot (conv2d (read s (v b)) (read s (w b))) (read s (u b)) = sigma).
    { unfold sigma, sigma_of. now rewrite Hest. }
    rewrite Hsig. field. lra. }
  assert (Hused : kernel_used b s1 = read s1 (layer_kernel b)).
  { rewrite kernel_used_cond by exact Hrefs. rewrite Hs1. fold c.
    rewrite quotient_lt_1_within_budget by lra. now rewrite Hw. }
  split; [exact Hk1|]. split; [exact Hs1|]. split; [exact Hused|].
  now rewrite call_persists_used_kernel by exact Hrefs.
Qed.

End WithBackend.

Lemma spectral_call_frame_witness :
  let s := fst SpectralExamples.leak_state in
  let b := snd SpectralExamples.leak_state in
  (7 <> layer_kernel b /\ 7 <> u b /\ 7 <> v b)%nat /\
  read (fst (@call (Pointwise.backend 1 1) b s [1])) 7%nat = read s 7%nat.
Proof.
  cbv zeta.
  assert (H : (7 <> layer_kernel (snd SpectralExamples.leak_state) /\
               7 <> u (snd SpectralExamples.leak_state) /\
               7 <> v (snd SpectralExamples.leak_state))%nat)
    by (cbn; repeat split; lia).
  split; [exact H|].
  destruct H as (Hk & Hu & Hv).
  exact (proj1 (@spectral_call_frame (Pointwise.backend 1 1) _ _ [1] 7%nat Hk Hu Hv)).
Defined.

Lemma restore_is_identity_witness :
  let s := fst SpectralExamples.leak_state in
  let b := snd SpectralExamples.leak_state in
  references_as_built b /\
  read (fst (@call (Pointwise.backend 1 1) b s [1])) (layer_kernel b)
  = @kernel_used (Pointwise.backend 1 1) b s.
Proof.
  cbv zeta. split; [apply build_references|].
  exact (proj1 (proj2 (@restore_is_identity (Pointwise.backend 1 1) _ _ [1]
                         (build_references _ _ _ _ _)))).
Defined.

Lemma estimated_sigma_bounds_witness :
  let s := fst SpectralExamples.leak_state in
  let b := snd SpectralExamples.leak_state in
  do_power_iteration (self b) = true /\
  (1 <= iteration (self b))%nat /\
  0 <= @sigma_of (Pointwise.backend 1 1) b s.
Proof.
  cbv zeta. split; [reflexivity|]. split; [cbn; lia|].
  refine (proj1 (@estimated_sigma_bounds (Pointwise.backend 1 1)
                   (snd SpectralExamples.leak_state)
                   (fst SpectralExamples.leak_state) eq_refl _)).
  cbn. lia.
Defined.

Lemma persisted_uv_norm_le_1_witness :
  let s := fst SpectralExamples.degenerate_state in
  let b := snd SpectralExamples.degenerate_state in
  references_as_built b /\
  l2_norm (read (fst (@call (Pointwise.backend 1 2) b s [1])) (u b)) <= 1.
Proof.
  cbv zeta. split; [apply build_references|].
  refine (proj1 (@persisted_uv_norm_le_1 (Pointwise.backend 1 2)
                   (snd SpectralExamples.degenerate_state)
                   (fst SpectralExamples.degenerate_state) [1]
                   (build_references _ _ _ _ _) eq_refl _)).
  cbn. lia.
Defined.

(** The 1x1 convolution is homogeneous in its kernel. *)
Lemma pw_conv2d_1_1_homogeneous (k : R) (x W : tensor) :
  Pointwise.pw_conv2d 1 1 x (scale k W)
  = scale k (Pointwise.pw_conv2d 1 1 x W).
Proof.
  unfold Pointwise.pw_conv2d, scale; cbn [seq map reduce_sum fold_right Nat.mul Nat.add].
  f_equal. destruct W as [|a W]; cbn; ring.
Qed.

Lemma fixed_over_budget_sigma :
  @sigma_of (Pointwise.backend 1 1)
    (snd SpectralExamples2.fixed_over_budget_state)
    (fst SpectralExamples2.fixed_over_budget_state) = 2.
Proof.
  unfold sigma_of, estimate_uv.
  cbn [SpectralExamples2.fixed_over_budget_state SpectralExamples.wrapper build
       add_weight fst snd self do_power_iteration u v w read cells Store.empty
       next_var Nat.eqb conv2d Pointwise.backend].
  rewrite pw_conv2d_1_1. unfold dot; simpl. ring.
Qed.

Lemma fixed_uv_rescale_settles_witness :
  let s := fst SpectralExamples2.fixed_over_budget_state in
  let b := snd SpectralExamples2.fixed_over_budget_state in
  let s1 := fst (@call (Pointwise.backend 1 1) b s [1]) in
  references_as_built b /\
  0 < norm_multiplier (self b) < @sigma_of (Pointwise.backend 1 1) b s /\
  @sigma_of (Pointwise.backend 1 1) b s1 = 0.95 /\
  read (fst (@call (Pointwise.backend 1 1) b s1 [1])) (layer_kernel b)
  = read s1 (layer_kernel b).
Proof.
  cbv zeta.
  assert (Hb : 0 < norm_multiplier (self (snd SpectralExamples2.fixed_over_budget_state))
               < @sigma_of (Pointwise.backend 1 1)
                   (snd SpectralExamples2.fixed_over_budget_state)
                   (fst SpectralExamples2.fixed_over_budget_state)).
  { rewrite fixed_over_budget_sigma. cbn. lra. }
  split; [apply build_references|]. split; [exact Hb|].
  destruct (@fixed_uv_rescale_settles (Pointwise.backend 1 1)
              (snd SpectralExamples2.fixed_over_budget_state)
              (fst SpectralExamples2.fixed_over_budget_state) [1] [1]
              (build_references _ _ _ _ _) eq_refl
              pw_conv2d_1_1_homogeneous Hb) as (_ & Hs & _ & Hk).
  split; [exact Hs | exact Hk].
Defined.

(** The window positions of a SAME convolution: the last of the
    [same_padding_windows n s] positions [0, s, 2 s, ...] lies below [n],
    and the next one does not. *)
Lemma same_padding_windows_spec (n s : Z) :
  (0 < s)%Z ->
  ((SpectralShapes.same_padding_windows n s - 1) * s < n
   <= SpectralShapes.same_padding_windows n s * s)%Z.
Proof.
  intros Hs. unfold SpectralShapes.same_padding_windows.
  pose proof (Z.mul_div_le (n + s - 1) s Hs).
  pose proof (Z.mul_succ_div_gt (n + s - 1) s Hs).
  lia.
Qed.

(** X6.  The output height and width that [build] resolves for [u].  With a
    padding other than SAME (stride [s >= 1]) they count the windows of the
    convolution: the last of the [out] windows of size [k] fits into the [n]
    input positions and a further one does not.  With SAME padding [build]
    takes [n // s], the number of whole strides in [n], while the
    convolution has a window at each of the positions [0, s, 2 s, ...] below
    [n]: [n // s] is that number exactly when [s] divides [n], and is one
    less otherwise.  The padding is compared in upper case, the leading
    dimension is 1 unless the legacy mode is set, and the channels are those
    of the kernel. *)
Theorem resolve_shapes_windows (legacy : bool) (padding : string)
    (strides : Z * Z) (w_shape input_shape : SpectralShapes.shape4) :
  (0 < fst strides)%Z -> (0 < snd strides)%Z ->
  let '(in_shape, out_shape) :=
    SpectralShapes.resolve_shapes legacy padding strides w_shape input_shape in
  let n1 := SpectralShapes.dim1 input_shape in
  let n2 := SpectralShapes.dim2 input_shape in
  let k1 := SpectralShapes.dim0 w_shape in
  let k2 := SpectralShapes.dim1 w_shape in
  let o1 := SpectralShapes.dim1 out_shape in
  let o2 := SpectralShapes.dim2 out_shape in
  (SpectralShapes.upper padding = "SAME"%string ->
   (o1 * fst strides <= n1 < (o1 + 1) * fst strides)%Z /\
   (o2 * snd strides <= n2 < (o2 + 1) * snd strides)%Z /\
   ((n1 mod fst strides = 0)%Z ->
    o1 = SpectralShapes.same_padding_windows n1 (fst strides)) /\
   ((n1 mod fst strides <> 0)%Z ->
    (o1 + 1)%Z = SpectralShapes.same_padding_windows n1 (fst strides)) /\
   ((n2 mod snd strides = 0)%Z ->
    o2 = SpectralShapes.same_padding_windows n2 (snd strides)) /\
   ((n2 mod snd strides <> 0)%Z ->
    (o2 + 1)%Z = SpectralShapes.same_padding_windows n2 (snd strides))) /\
  (SpectralShapes.upper padding <> "SAME"%string ->
   ((o1 - 1) * fst strides + k1 <= n1 < o1 * fst strides + k1)%Z /\
   ((o2 - 1) * snd strides + k2 <= n2 < o2 * snd strides + k2)%Z /\
   (k1 <= n1 -> 1 <= o1)%Z /\ (k2 <= n2 -> 1 <= o2)%Z) /\
  SpectralShapes.dim0 in_shape = (if legacy then SpectralShapes.dim0 input_shape else 1%Z) /\
  SpectralShapes.dim0 out_shape = SpectralShapes.dim0 in_shape /\
  SpectralShapes.dim1 in_shape = n1 /\ SpectralShapes.dim2 in_shape = n2 /\
  SpectralShapes.dim3 in_shape = SpectralShapes.dim2 w_shape /\
  SpectralShapes.dim3 out_shape = SpectralShapes.dim3 w_shape.
Proof.
  intros Hs1 Hs2. unfold SpectralShapes.resolve_shapes.
  assert (Hdiv : forall a s, (0 < s)%Z ->
            ((a / s) * s <= a < (a / s + 1) * s)%Z).
  { intros a s Hs. pose proof (Z.mul_div_le a s Hs).
    pose proof (Z.mul_succ_div_gt a s Hs). lia. }
  assert (Hexact : forall a s, (0 < s)%Z -> (a mod s = 0)%Z ->
            (a / s)%Z = SpectralShapes.same_padding_windows a s).
  { intros a s Hs Hmod.
    pose proof (same_padding_windows_spec a s Hs).
    pose proof (Hdiv a s Hs).
    pose proof (Z.div_mod a s ltac:(lia)). nia. }
  assert (Hshort : forall a s, (0 < s)%Z -> (a mod s <> 0)%Z ->
            (a / s + 1)%Z = SpectralShapes.same_padding_windows a s).
  { intros a s Hs Hmod.
    pose proof (same_padding_windows_spec a s Hs).
    pose proof (Hdiv a s Hs).
    pose proof (Z.div_mod a s ltac:(lia)).
    pose proof (Z.mod_pos_bound a s Hs). nia. }
  destruct (String.eqb_spec (SpectralShapes.upper padding) "SAME") as [Heq|Hne];
    cbn [SpectralShapes.dim0 SpectralShapes.dim1 SpectralShapes.dim2
         SpectralShapes.dim3].
  - split.
    { intros _. split; [now apply Hdiv|]. split; [now apply Hdiv|].
      split; [now apply Hexact|]. split; [now apply Hshort|].
      split; [now apply Hexact | now apply Hshort]. }
    split; [intros Hc; contradiction|]. repeat split.
  - split; [intros Hc; contradiction|].
    split; [|repeat split]. intros _.
    pose proof (Hdiv (SpectralShapes.dim1 input_shape - SpectralShapes.dim0 w_shape)%Z
                  _ Hs1) as H1.
    pose proof (Hdiv (SpectralShapes.dim2 input_shape - SpectralShapes.dim1 w_shape)%Z
                  _ Hs2) as H2.
    repeat split; try lia.
    + intros Hk. assert (0 <= (SpectralShapes.dim1 input_shape
                               - SpectralShapes.dim0 w_shape) / fst strides)%Z
        by (apply Z.div_pos; lia). lia.
    + intros Hk. assert (0 <= (SpectralShapes.dim2 input_shape
                               - SpectralShapes.dim1 w_shape) / snd strides)%Z
        by (apply Z.div_pos; lia). lia.
Qed.

(** The module's own example: a 229 x 229 x 3 image, a 3 x 3 kernel with 32
    filters and stride 2.  With valid padding [u] gets the shape
    (1, 114, 114, 32), for 114 windows; with SAME padding it gets the same
    shape, for 115 window positions. *)
Lemma resolve_shapes_windows_witness :
  (0 < 2)%Z /\
  snd (SpectralShapes.resolve_shapes false "valid" (2, 2)%Z
         (SpectralShapes.mkShape4 3 3 3 32) (SpectralShapes.mkShape4 1 229 229 3))
  = SpectralShapes.mkShape4 1 114 114 32 /\
  ((114 - 1) * 2 + 3 <= 229 < 114 * 2 + 3)%Z /\
  snd (SpectralShapes.resolve_shapes false "same" (2, 2)%Z
         (SpectralShapes.mkShape4 3 3 3 32) (SpectralShapes.mkShape4 1 229 229 3))
  = SpectralShapes.mkShape4 1 114 114 32 /\
  (114 + 1)%Z = SpectralShapes.same_padding_windows 229 2.
Proof.
  split; [lia|]. split; [reflexivity|].
  pose proof (resolve_shapes_windows false "valid" (2, 2)%Z
                (SpectralShapes.mkShape4 3 3 3 32)
                (SpectralShapes.mkShape4 1 229 229 3)
                eq_refl eq_refl) as H.
  pose proof (resolve_shapes_windows false "same" (2, 2)%Z
                (SpectralShapes.mkShape4 3 3 3 32)
                (SpectralShapes.mkShape4 1 229 229 3)
                eq_refl eq_refl) as Hsame.
  cbv zeta in H, Hsame.
  split; [exact (proj1 (proj1 (proj2 H) ltac:(cbn; discriminate)))|].
  split; [reflexivity|].
  destruct (proj1 Hsame eq_refl) as (_ & _ & _ & Hshort & _).
  apply Hshort. cbn. discriminate.
Defined.

End SpectralNormMore.

(** * Further properties of the Laplace covariance layer *)

Module LaplaceMore.
Import Laplace MatrixFacts LaplaceFacts LaplaceOps.

Lemma broadcast_dim_one_r (a : nat) : broadcast_dim a 1 = Some a.
Proof.
  unfold broadcast_dim.
  destruct (Nat.eqb_spec a 1) as [->|_]; [reflexivity|].
  destruct (Nat.eqb_spec a 1); reflexivity.
Qed.

(** The entries of a broadcast operation, whenever it returns. *)
Lemma broadcast2_entry (op : R -> R -> R) (A B C : matrix) :
  broadcast2 op A B = Ok C ->
  forall i j,
    entry C i j
    = op (entry A (broadcast_index (nrows A) i) (broadcast_index (ncols A) j))
         (entry B (broadcast_index (nrows B) i) (broadcast_index (ncols B) j)).
Proof.
  unfold broadcast2.
  destruct (broadcast_dim (nrows A) (nrows B)); [|discriminate].
  destruct (broadcast_dim (ncols A) (ncols B)); [|discriminate].
  intros H; injection H as <-. reflexivity.
Qed.

(** The minibatch matrix is a Gram matrix: equal to its transpose at every
    index, and square. *)
Lemma minibatch_gram (lik : string) (Phi : matrix) (logits : option matrix)
    (M : matrix) :
  precision_matrix_minibatch lik Phi logits = Ok M ->
  nrows M = ncols M /\ forall i j, entry M i j = entry M j i.
Proof.
  unfold precision_matrix_minibatch.
  destruct (prob_multiplier lik logits) as [pm|e]; [|discriminate]. cbn [bind].
  destruct (adjust_feature pm Phi) as [A|e]; [|discriminate]. cbn [bind].
  rewrite matmul_ok by reflexivity. intros H; injection H as <-.
  split; [reflexivity|]. intros i j. cbn.
  apply sum_n_ext. intros k _. ring.
Qed.

(** The minibatch matrix does not depend on the variables. *)
Lemma update_reads_minibatch (st : Built) (Phi : matrix) (logits : option matrix)
    (updated : matrix) :
  update_feature_precision_matrix st Phi logits = Ok updated ->
  exists M,
    precision_matrix_minibatch (likelihood (self st)) Phi logits = Ok M /\
    (if Rlt_dec 0 (momentum (self st))
     then broadcast2 Rplus
            (scalar_mul (momentum (self st)) (precision_matrix st))
            (scalar_mul (1 - momentum (self st))
                        (div_scalar M (INR (nrows Phi))))
     else broadcast2 Rplus (precision_matrix st) M) = Ok updated.
Proof.
  unfold update_feature_precision_matrix.
  destruct (check_logits (likelihood (self st)) logits) as [[]|e]; [|discriminate].
  cbn [bind].
  destruct (precision_matrix_minibatch (likelihood (self st)) Phi logits)
    as [M|e]; [|discriminate].
  cbn [bind]. intros H. exists M. split; [reflexivity | exact H].
Qed.

Lemma symmetric_index (d i j : nat) (A : matrix) :
  nrows A = d -> ncols A = d -> symmetric A ->
  (i < d)%nat -> (j < d)%nat -> entry A i j = entry A j i.
Proof. intros Hr Hc Hsym Hi Hj. apply Hsym; congruence. Qed.

Section WithLinalg.
Context {linalg : LinalgBackend}.

(** *** The invariant of calls and resets *)

(** The shapes are those of [build], the initial precision matrix is the
    zero matrix and the precision matrix is symmetric. *)
Lemma step_invariant (d : nat) (st : Built) (o : op) :
  well_shaped d st /\ initial_precision_matrix st = zeros d d /\
  symmetric (precision_matrix st) ->
  well_shaped d (step st o) /\ initial_precision_matrix (step st o) = zeros d d /\
  symmetric (precision_matrix (step st o)).
Proof.
  intros (Hws & Hinit & Hsym). pose proof Hws as (HP & HC & HI).
  destruct o as [a|]; cbn [step].
  - destruct (is_training a) eqn:Htrain.
    + destruct (call_training_cases a st Htrain)
        as [(e & ->) | (updated & Hup & Hs & ->)]; cbn [fst]; [auto|].
      split; [|split; [exact Hinit|]].
      * repeat split; cbn; congruence.
      * cbn [precision_matrix after_training].
        destruct (update_reads_minibatch st _ _ _ Hup) as (M & HM & Hb).
        destruct (minibatch_gram _ _ _ _ HM) as (HMsq & HMsym).
        rewrite HP in Hs. unfold shape in Hs, HP.
        injection Hs as Hur Huc. injection HP as HPr HPc.
        intros i j Hi Hj. rewrite Hur in Hi. rewrite Huc in Hj.
        destruct (Rlt_dec 0 (momentum (self st)));
          rewrite !(broadcast2_entry _ _ _ _ Hb); cbn [nrows ncols entry scalar_mul div_scalar map_entries];
          rewrite HPr, HPc, !(broadcast_index_lt d) by assumption;
          rewrite (symmetric_index d i j (precision_matrix st)) by assumption;
          rewrite HMsq, (HMsym (broadcast_index (ncols M) i)); reflexivity.
    + destruct (inversion_raises st) eqn:Hraises.
      { destruct (call_inference_raises d a st Hws Htrain Hraises) as (_ & ->).
        auto. }
      destruct (call_inference d a st Hws Htrain Hraises) as (C & HCs & _ & ->).
      cbn [fst]. split; [|split; [exact Hinit | exact Hsym]].
      repeat split; cbn; congruence.
  - unfold reset_precision_matrix, assign_precision_matrix.
    rewrite HI, HP, shape_eqb_refl. cbn [fst].
    split; [|split; [exact Hinit|]].
    + repeat split; cbn; congruence.
    + cbn. rewrite Hinit. intros i j _ _. reflexivity.
Qed.

Lemma run_ops_invariant (d : nat) (ops : list op) (st : Built) :
  well_shaped d st /\ initial_precision_matrix st = zeros d d /\
  symmetric (precision_matrix st) ->
  well_shaped d (run_ops st ops) /\
  initial_precision_matrix (run_ops st ops) = zeros d d /\
  symmetric (precision_matrix (run_ops st ops)).
Proof.
  revert st. induction ops as [|o ops IH]; intros st Hst; [exact Hst|].
  cbn. apply IH. now apply step_invariant.
Qed.

Lemma reachable_ops_invariant (st : Built) :
  reachable_ops st ->
  exists d, well_shaped d st /\ initial_precision_matrix st = zeros d d /\
            symmetric (precision_matrix st).
Proof.
  intros (self0 & input_shape & covariance0 & st0 & ops & Hbuild & ->).
  unfold build in Hbuild.
  destruct (last_dim input_shape) as [d|e]; cbn in Hbuild; [|discriminate].
  injection Hbuild as <-. exists d.
  apply run_ops_invariant. split; [repeat split|].
  split; [reflexivity|]. intros i j _ _. reflexivity.
Qed.

(** X7.  In every state a built layer reaches by calls and resets, the
    precision matrix is square, of the feature dimension, and symmetric. *)
Theorem precision_matrix_symmetric (st : Built) :
  reachable_ops st ->
  exists d, shape (precision_matrix st) = (d, d) /\
            forall i j, (i < d)%nat -> (j < d)%nat ->
              entry (precision_matrix st) i j = entry (precision_matrix st) j i.
Proof.
  intros Hreach.
  destruct (reachable_ops_invariant st Hreach) as (d & (HP & _) & _ & Hsym).
  exists d. split; [exact HP|].
  unfold shape in HP. injection HP as Hr Hc.
  intros i j Hi Hj. apply Hsym; congruence.
Qed.

(** X8.  In every state a built layer reaches by calls and resets,
    [reset_precision_matrix] returns and leaves the precision matrix all
    zero, whatever it had accumulated; the covariance matrix and the
    update-pending flag stay as they were. *)
Theorem reset_zeroes_precision (st : Built) :
  reachable_ops st ->
  exists d st',
    reset_precision_matrix st = (st', Ok tt) /\
    precision_matrix st' = zeros d d /\
    shape (precision_matrix st) = (d, d) /\
    covariance_matrix st' = covariance_matrix st /\
    if_update_covariance st' = if_update_covariance st.
Proof.
  intros Hreach.
  destruct (reachable_ops_invariant st Hreach) as (d & (HP & _ & HI) & Hinit & _).
  exists d. unfold reset_precision_matrix, assign_precision_matrix.
  rewrite HI, HP, shape_eqb_refl. eexists. split; [reflexivity|].
  cbn. repeat split; assumption.
Qed.

(** X9.  After an inference-mode call whose inversion did not raise, a
    reset followed by another inference-mode call runs no inversion: the
    reset zeroes the precision matrix and leaves the flag clear, and the
    second call keeps the covariance matrix of the first.  After an
    inference-mode call whose inversion raised, the flag is still set when
    the precision matrix has been reset. *)
Theorem reset_then_inference_reuses_covariance (st : Built) (i1 i2 : call_args) :
  reachable_ops st ->
  is_training i1 = false -> is_training i2 = false ->
  let st1 := fst (call_with i1 st) in
  let st2 := fst (reset_precision_matrix st1) in
  let st3 := fst (call_with i2 st2) in
  (exists d, precision_matrix st2 = zeros d d) /\
  stale (trace st2) = true /\
  (inversion_raises st = false ->
   if_update_covariance st2 = false /\
   precision_matrix st3 = precision_matrix st2 /\
   inversions (trace st3) = inversions (trace st1) /\
   covariance_matrix st3 = covariance_matrix st1) /\
  (inversion_raises st = true ->
   st1 = st /\ if_update_covariance st2 = true).
Proof.
  intros Hreach H1 H2 st1 st2 st3.
  destruct (reachable_ops_invariant st Hreach) as (d & Hws & Hinit & _).
  pose proof Hws as (HP & HC & HI).
  assert (Hreset : forall s, well_shaped d s -> initial_precision_matrix s = zeros d d ->
            fst (reset_precision_matrix s)
            = {| self := self s;
                 initial_precision_matrix := initial_precision_matrix s;
                 precision_matrix := zeros d d;
                 covariance_matrix := covariance_matrix s;
                 if_update_covariance := if_update_covariance s;
                 trace := PrecisionAssigned :: trace s |}).
  { intros s (HPs & _ & HIs) Hinits.
    unfold reset_precision_matrix, assign_precision_matrix.
    rewrite HIs, HPs, shape_eqb_refl. cbn. now rewrite Hinits. }
  destruct (inversion_raises st) eqn:Hraises.
  - destruct (call_inference_raises d i1 st Hws H1 Hraises) as (Hflag & Hcall1).
    assert (Hst1 : st1 = st) by (unfold st1; now rewrite Hcall1).
    assert (Hst2 : st2 = fst (reset_precision_matrix st)) by (unfold st2; now rewrite Hst1).
    rewrite (Hreset st Hws Hinit) in Hst2.
    split; [exists d; now rewrite Hst2|]. split; [now rewrite Hst2|].
    split; [discriminate|]. intros _. split; [exact Hst1|].
    rewrite Hst2. exact Hflag.
  - destruct (call_inference d i1 st Hws H1 Hraises) as (C & HCs & _ & Hcall1).
    assert (Hst1 : st1 = after_inference st C (if_update_covariance st))
      by (unfold st1; now rewrite Hcall1).
    assert (Hws1 : well_shaped d st1).
    { rewrite Hst1. repeat split; cbn; assumption. }
    assert (Hst2 : st2 = {| self := self st;
                            initial_precision_matrix := initial_precision_matrix st;
                            precision_matrix := zeros d d;
                            covariance_matrix := C;
                            if_update_covariance := false;
                            trace := PrecisionAssigned :: trace st1 |}).
    { unfold st2. rewrite (Hreset st1 Hws1) by (now rewrite Hst1).
      rewrite Hst1. reflexivity. }
    assert (Hws2 : well_shaped d st2).
    { rewrite Hst2. repeat split; cbn; assumption. }
    assert (Hf2 : if_update_covariance st2 = false) by now rewrite Hst2.
    destruct (call_inference d i2 st2 Hws2 H2 (inversion_raises_flag st2 Hf2))
      as (C2 & _ & Hupd & Hcall2).
    assert (Hst3 : st3 = after_inference st2 C2 (if_update_covariance st2))
      by (unfold st3; now rewrite Hcall2).
    rewrite Hf2 in Hupd, Hst3. subst C2.
    split; [exists d; now rewrite Hst2|]. split; [now rewrite Hst2|].
    split; [|discriminate]. intros _.
    split; [exact Hf2|]. rewrite Hst3, Hst2. cbn.
    split; [reflexivity|]. split; [reflexivity|].
    rewrite Hst1. reflexivity.
Qed.

(** X10.  On variables of the shapes of [build], a training-mode call never
    changes the covariance matrix and an inference-mode call never changes
    the precision matrix; neither changes the configuration or the initial
    precision matrix. *)
Theorem laplace_call_frame (d : nat) (a : call_args) (st : Built) :
  well_shaped d st ->
  let st' := fst (call_with a st) in
  self st' = self st /\
  initial_precision_matrix st' = initial_precision_matrix st /\
  (is_training a = true -> covariance_matrix st' = covariance_matrix st) /\
  (is_training a = false -> precision_matrix st' = precision_matrix st).
Proof.
  intros Hws st'. unfold st'.
  destruct (is_training a) eqn:Htrain.
  - destruct (call_training_cases a st Htrain)
      as [(e & ->) | (updated & _ & _ & ->)]; cbn; repeat split; discriminate.
  - destruct (inversion_raises st) eqn:Hraises.
    { destruct (call_inference_raises d a st Hws Htrain Hraises) as (_ & ->).
      cbn. repeat split; discriminate. }
    destruct (call_inference d a st Hws Htrain Hraises) as (C & _ & _ & ->).
    cbn. repeat split; discriminate.
Qed.

(** X11.  On variables of the shapes of [build], repeating an inference-mode
    call changes nothing: the second call returns what the first returned
    and leaves the variables as the first left them. *)
Theorem inference_idempotent (d : nat) (a : call_args) (st : Built) :
  well_shaped d st -> is_training a = false ->
  call_with a (fst (call_with a st)) = call_with a st.
Proof.
  intros Hws Htrain.
  destruct (inversion_raises st) eqn:Hraises.
  { destruct (call_inference_raises d a st Hws Htrain Hraises) as (_ & Hcall).
    rewrite Hcall; cbn [fst]. exact Hcall. }
  destruct (call_inference d a st Hws Htrain Hraises) as (C & HCs & _ & Hcall).
  rewrite Hcall; cbn [fst].
  assert (Hws1 : well_shaped d (after_inference st C (if_update_covariance st))).
  { destruct Hws as (HP & HC & HI). repeat split; cbn; assumption. }
  destruct (call_inference d a (after_inference st C (if_update_covariance st))
              Hws1 Htrain
              (inversion_raises_flag
                 (after_inference st C (if_update_covariance st)) eq_refl))
    as (C' & _ & Hupd & Hcall').
  cbn [if_update_covariance covariance_matrix after_inference] in Hupd, Hcall'.
  subst C'. rewrite Hcall'. reflexivity.
Qed.

(** One training-mode call with fitting arguments, entry by entry. *)
Lemma training_step (d b : nat) (a : call_args) (st : Built) :
  well_shaped d st -> is_training a = true ->
  shape (arg_inputs a) = (b, d) ->
  logits_fit (likelihood (self st)) (arg_logits a) b ->
  exists M,
    precision_matrix_minibatch (likelihood (self st)) (arg_inputs a) (arg_logits a)
    = Ok M /\
    well_shaped d (fst (call_with a st)) /\
    self (fst (call_with a st)) = self st /\
    forall i j, (i < d)%nat -> (j < d)%nat ->
      (0 < momentum (self st) ->
       entry (precision_matrix (fst (call_with a st))) i j
       = momentum (self st) * entry (precision_matrix st) i j
         + (1 - momentum (self st)) * (entry M i j / INR b)) /\
      (momentum (self st) <= 0 ->
       entry (precision_matrix (fst (call_with a st))) i j
       = entry (precision_matrix st) i j + entry M i j).
Proof.
  intros Hws Htrain HPhi Hfit.
  destruct (call_training_ok d b a st Hws Htrain HPhi Hfit)
    as (updated & Hup & ->).
  destruct (update_feature_precision_matrix_returns d b st _ _ _ Hws HPhi Hup)
    as (M & HM & _ & Hs & Hpos & Hneg).
  exists M. split; [exact HM|]. cbn [fst].
  pose proof Hws as (HP & HC & HI).
  split; [repeat split; cbn; assumption|]. split; [reflexivity|].
  unfold shape in Hs. injection Hs as Hr Hc.
  intros i j Hi Hj. cbn [precision_matrix after_training]. split; intros Hm.
  - destruct (Hpos Hm) as (_ & _ & He). rewrite He by congruence. reflexivity.
  - destruct (Hneg Hm) as (_ & _ & He). rewrite He by congruence. reflexivity.
Qed.

(** X12.  Without momentum ([momentum <= 0]) two training-mode calls add the
    second-moment matrices of their minibatches to the precision matrix, and
    the result does not depend on the order of the two minibatches. *)
Theorem exact_sum_order_independent (d b1 b2 : nat) (a1 a2 : call_args)
    (st : Built) :
  well_shaped d st -> momentum (self st) <= 0 ->
  is_training a1 = true -> is_training a2 = true ->
  shape (arg_inputs a1) = (b1, d) -> shape (arg_inputs a2) = (b2, d) ->
  logits_fit (likelihood (self st)) (arg_logits a1) b1 ->
  logits_fit (likelihood (self st)) (arg_logits a2) b2 ->
  exists M1 M2,
    precision_matrix_minibatch (likelihood (self st)) (arg_inputs a1) (arg_logits a1)
    = Ok M1 /\
    precision_matrix_minibatch (likelihood (self st)) (arg_inputs a2) (arg_logits a2)
    = Ok M2 /\
    mat_eq (precision_matrix (run st [a1; a2]))
           (mat_add (mat_add (precision_matrix st) M1) M2) /\
    mat_eq (precision_matrix (run st [a1; a2]))
           (precision_matrix (run st [a2; a1])).
Proof.
  intros Hws Hm Ht1 Ht2 HPhi1 HPhi2 Hfit1 Hfit2.
  destruct (training_step d b1 a1 st Hws Ht1 HPhi1 Hfit1)
    as (M1 & HM1 & Hws1 & Hself1 & He1).
  destruct (training_step d b2 a2 st Hws Ht2 HPhi2 Hfit2)
    as (M2 & HM2 & Hws2 & Hself2 & He2).
  assert (Hfit12 : logits_fit (likelihood (self (fst (call_with a1 st))))
                     (arg_logits a2) b2) by now rewrite Hself1.
  assert (Hfit21 : logits_fit (likelihood (self (fst (call_with a2 st))))
                     (arg_logits a1) b1) by now rewrite Hself2.
  destruct (training_step d b2 a2 _ Hws1 Ht2 HPhi2 Hfit12)
    as (M2' & HM2' & Hws12 & _ & He12).
  destruct (training_step d b1 a1 _ Hws2 Ht1 HPhi1 Hfit21)
    as (M1' & HM1' & Hws21 & _ & He21).
  rewrite Hself1, HM2 in HM2'. injection HM2' as <-.
  rewrite Hself2, HM1 in HM1'. injection HM1' as <-.
  rewrite Hself1 in He12. rewrite Hself2 in He21.
  exists M1, M2. split; [exact HM1|]. split; [exact HM2|].
  cbn [run fold_left].
  destruct Hws as (HP & _). destruct Hws12 as (HP12 & _).
  destruct Hws21 as (HP21 & _).
  unfold shape in HP, HP12, HP21.
  injection HP as HPr HPc. injection HP12 as Hr12 Hc12.
  injection HP21 as Hr21 Hc21.
  assert (Hentry12 : forall i j, (i < d)%nat -> (j < d)%nat ->
            entry (precision_matrix (fst (call_with a2 (fst (call_with a1 st))))) i j
            = entry (precision_matrix st) i j + entry M1 i j + entry M2 i j).
  { intros i j Hi Hj.
    rewrite (proj2 (He12 i j Hi Hj) Hm), (proj2 (He1 i j Hi Hj) Hm). reflexivity. }
  assert (Hentry21 : forall i j, (i < d)%nat -> (j < d)%nat ->
            entry (precision_matrix (fst (call_with a1 (fst (call_with a2 st))))) i j
            = entry (precision_matrix st) i j + entry M2 i j + entry M1 i j).
  { intros i j Hi Hj.
    rewrite (proj2 (He21 i j Hi Hj) Hm), (proj2 (He2 i j Hi Hj) Hm). reflexivity. }
  split.
  - repeat split; cbn; try congruence.
    intros i j Hi Hj. apply Hentry12; congruence.
  - repeat split; try congruence.
    intros i j Hi Hj.
    rewrite Hentry12, Hentry21 by congruence. ring.
Qed.

(** X13.  With momentum [m > 0], [n] training-mode calls on one minibatch,
    whose second-moment matrix is [M], turn the precision matrix [P] into
    [m^n * P + (1 - m^n) * (M / b)]: started from zero, the moving average
    reaches the share [1 - m^n] of [M / b]. *)
Theorem repeated_minibatch_closed_form (d b : nat) (a : call_args) (n : nat)
    (st : Built) :
  well_shaped d st -> 0 < momentum (self st) ->
  is_training a = true -> shape (arg_inputs a) = (b, d) ->
  logits_fit (likelihood (self st)) (arg_logits a) b ->
  exists M,
    precision_matrix_minibatch (likelihood (self st)) (arg_inputs a) (arg_logits a)
    = Ok M /\
    forall i j, (i < d)%nat -> (j < d)%nat ->
      entry (precision_matrix (run st (repeat a n))) i j
      = momentum (self st) ^ n * entry (precision_matrix st) i j
        + (1 - momentum (self st) ^ n) * (entry M i j / INR b).
Proof.
  intros Hws Hm Htrain HPhi Hfit.
  destruct (training_step d b a st Hws Htrain HPhi Hfit) as (M & HM & _).
  exists M. split; [exact HM|].
  revert st Hws Hm Hfit HM.
  induction n as [|n IH]; intros st Hws Hm Hfit HM i j Hi Hj.
  - cbn. ring.
  - destruct (training_step d b a st Hws Htrain HPhi Hfit)
      as (M' & HM' & Hws1 & Hself1 & He1).
    rewrite HM in HM'. injection HM' as <-.
    cbn [repeat run fold_left].
    change (fold_left (fun s a0 => fst (call_with a0 s)) (repeat a n)
                      (fst (call_with a st)))
      with (run (fst (call_with a st)) (repeat a n)).
    rewrite IH; try assumption; try (now rewrite Hself1).
    rewrite Hself1, (proj1 (He1 i j Hi Hj) Hm). cbn [pow]. ring.
Qed.

(** X14.  Under the Gaussian likelihood [call] never reads [logits]: any
    two values of the argument, given or not, of any shape, lead to the same
    variables and the same result. *)
Theorem gaussian_ignores_logits (learning_phase : Z) (inputs : matrix)
    (logits1 logits2 : option matrix) (training : training_arg) (st : Built) :
  likelihood (self st) = "gaussian"%string ->
  call learning_phase inputs logits1 training st
  = call learning_phase inputs logits2 training st.
Proof.
  intros Hlik. unfold call.
  destruct (_get_training_value learning_phase training); [|reflexivity].
  unfold bindM, lift.
  assert (Hup : update_feature_precision_matrix st inputs logits1
                = update_feature_precision_matrix st inputs logits2).
  { unfold update_feature_precision_matrix, precision_matrix_minibatch.
    rewrite Hlik. reflexivity. }
  now rewrite Hup.
Qed.

(** X15.  An inference-mode call whose features do not have the width the
    layer was built for raises InvalidArgumentError.  When its inversion
    does not raise, the exception comes from the product with the
    covariance, after the variables were updated: the covariance has been
    recomputed if the flag was set, and the flag is clear.  When the
    inversion raises, the variables are unchanged and the flag is still
    set. *)
Theorem inference_wrong_width_raises_late (d : nat) (a : call_args) (st : Built) :
  well_shaped d st -> is_training a = false ->
  ncols (arg_inputs a) <> d ->
  let st' := fst (call_with a st) in
  (exists msg, snd (call_with a st) = Raise (InvalidArgumentError msg)) /\
  (inversion_raises st = false ->
   if_update_covariance st' = false /\
   inversions (trace st')
   = (inversions (trace st) + if if_update_covariance st then 1 else 0)%nat /\
   (if_update_covariance st = true -> covariance_current st')) /\
  (inversion_raises st = true ->
   st' = st /\ if_update_covariance st' = true).
Proof.
  intros Hws Htrain Hwidth st'. unfold st'.
  destruct (inversion_raises st) eqn:Hraises.
  - destruct (call_inference_raises d a st Hws Htrain Hraises) as (Hflag & ->).
    cbn [fst snd]. split; [eexists; reflexivity|].
    split; [discriminate|]. intros _. split; [reflexivity | exact Hflag].
  - pose proof (call_inference_current d a st Hws Htrain Hraises) as Hcur.
    destruct (call_inference d a st Hws Htrain Hraises) as (C & HCs & _ & Hcall).
    rewrite Hcall in Hcur |- *.
    cbn [fst snd] in Hcur |- *. split; [|split; [|discriminate]].
    + unfold compute_predictive_covariance, lift;
        cbn [snd covariance_matrix after_inference].
      unfold matmul at 1. cbn [nrows ncols transpose].
      unfold shape in HCs. injection HCs as _ HCc. rewrite HCc.
      destruct (Nat.eqb_spec d (ncols (arg_inputs a))) as [Heq|_];
        [congruence|].
      cbn [bind]. eexists; reflexivity.
    + intros _. split; [reflexivity|]. split; [|exact Hcur].
      cbn. destruct (if_update_covariance st); cbn; lia.
Qed.

(** X16.  The first inference-mode call on a freshly built layer runs no
    inversion: the flag starts clear, and the predictive covariance is
    computed from the values the covariance variable was created with. *)
Theorem first_inference_uses_initial_covariance
    (self0 : LaplaceRandomFeatureCovariance) (input_shape : list nat)
    (covariance0 : nat -> nat -> R) (st0 : Built) (a : call_args) (d b : nat) :
  build self0 input_shape covariance0 = Ok st0 ->
  last_dim input_shape = Ok d ->
  is_training a = false -> shape (arg_inputs a) = (b, d) ->
  exists st' out,
    call_with a st0 = (st', Ok out) /\
    inversions (trace st') = 0%nat /\
    covariance_matrix st' = {| nrows := d; ncols := d; entry := covariance0 |} /\
    mat_eq out
      (scalar_mul (ridge_penalty self0)
         (mat_prod (arg_inputs a)
            (mat_prod {| nrows := d; ncols := d; entry := covariance0 |}
                      (transpose (arg_inputs a))))) /\
    shape out = (b, b).
Proof.
  intros Hbuild Hd Htrain HPhi.
  unfold build in Hbuild. rewrite Hd in Hbuild. cbn [bind] in Hbuild.
  injection Hbuild as <-.
  set (st0 := {| self := self0;
                 initial_precision_matrix := zeros d d;
                 precision_matrix := zeros d d;
                 covariance_matrix := {| nrows := d; ncols := d; entry := covariance0 |};
                 if_update_covariance := false;
                 trace := [] |}).
  assert (Hws : well_shaped d st0) by (repeat split).
  destruct (call_inference d a st0 Hws Htrain (inversion_raises_flag st0 eq_refl))
    as (C & HCs & Hupd & Hcall).
  cbn [if_update_covariance st0] in Hupd, Hcall. subst C.
  destruct (compute_predictive_covariance_ok d b (arg_inputs a)
              (after_inference st0 (covariance_matrix st0) false) HCs HPhi)
    as (out & Hout & Hval & Hshape).
  exists (after_inference st0 (covariance_matrix st0) false), out.
  split; [now rewrite Hcall, Hout|].
  split; [reflexivity|]. split; [reflexivity|].
  split; [exact Hval | exact Hshape].
Qed.

(** X26.  The width of the features is not checked against the width the
    layer was built for.  Under the Gaussian likelihood a training-mode call
    with features of width 1 is accepted by a layer of any width: the single
    entry of the minibatch matrix is broadcast into every entry of the
    precision matrix.  Features of any other wrong width make the call raise,
    and the variables stay as they were. *)
Theorem training_feature_width (d b : nat) (a : call_args) (st : Built) :
  well_shaped d st -> is_training a = true ->
  likelihood (self st) = "gaussian"%string ->
  nrows (arg_inputs a) = b ->
  (ncols (arg_inputs a) = 1%nat ->
   exists M st',
     precision_matrix_minibatch "gaussian" (arg_inputs a) (arg_logits a) = Ok M /\
     call_with a st = (st', Ok (eye b)) /\
     forall i j, (i < d)%nat -> (j < d)%nat ->
       (0 < momentum (self st) ->
        entry (precision_matrix st') i j
        = momentum (self st) * entry (precision_matrix st) i j
          + (1 - momentum (self st)) * (entry M 0%nat 0%nat / INR b)) /\
       (momentum (self st) <= 0 ->
        entry (precision_matrix st') i j
        = entry (precision_matrix st) i j + entry M 0%nat 0%nat)) /\
  (ncols (arg_inputs a) <> 1%nat -> ncols (arg_inputs a) <> d ->
   exists e, call_with a st = (st, Raise e)).
Proof.
  intros Hws Htrain Hlik Hb.
  pose proof Hws as (HP & _ & _). unfold shape in HP. injection HP as HPr HPc.
  destruct (minibatch_gaussian (arg_inputs a) (arg_logits a))
    as (M & HM & _ & HMs).
  unfold shape in HMs. injection HMs as HMr HMc.
  assert (Hup : update_feature_precision_matrix st (arg_inputs a) (arg_logits a)
                = if Rlt_dec 0 (momentum (self st))
                  then broadcast2 Rplus
                         (scalar_mul (momentum (self st)) (precision_matrix st))
                         (scalar_mul (1 - momentum (self st))
                                     (div_scalar M (INR b)))
                  else broadcast2 Rplus (precision_matrix st) M).
  { unfold update_feature_precision_matrix. rewrite Hlik, HM, Hb. reflexivity. }
  rewrite (call_training a st Htrain), Hup.
  split.
  - intros Hone. rewrite Hone in HMr, HMc.
    exists M.
    assert (Hbc : forall A B : matrix,
              nrows A = d -> ncols A = d -> nrows B = 1%nat -> ncols B = 1%nat ->
              exists C, broadcast2 Rplus A B = Ok C /\ shape C = (d, d) /\
                forall i j, (i < d)%nat -> (j < d)%nat ->
                  entry C i j = entry A i j + entry B 0%nat 0%nat).
    { intros A B HAr HAc HBr HBc. unfold broadcast2.
      rewrite HAr, HAc, HBr, HBc, broadcast_dim_one_r.
      eexists. split; [reflexivity|]. split; [reflexivity|].
      intros i j Hi Hj. cbn [entry].
      now rewrite !(broadcast_index_lt d) by assumption. }
    destruct (Rlt_dec 0 (momentum (self st))) as [Hm|Hm].
    + destruct (Hbc (scalar_mul (momentum (self st)) (precision_matrix st))
                    (scalar_mul (1 - momentum (self st)) (div_scalar M (INR b))))
        as (C & -> & HCs & HCe); try assumption.
      unfold shape at 2. rewrite HCs, HPr, HPc, shape_eqb_refl. rewrite Hb.
      eexists. split; [exact HM|]. split; [reflexivity|].
      intros i j Hi Hj. cbn [precision_matrix after_training].
      split; [intros _; now rewrite HCe by assumption | intros; lra].
    + destruct (Hbc (precision_matrix st) M) as (C & -> & HCs & HCe);
        try assumption.
      unfold shape at 2. rewrite HCs, HPr, HPc, shape_eqb_refl. rewrite Hb.
      eexists. split; [exact HM|]. split; [reflexivity|].
      intros i j Hi Hj. cbn [precision_matrix after_training].
      split; [intros; lra | intros _; now rewrite HCe by assumption].
  - intros Hn1 Hnd.
    assert (Hbc : forall A B : matrix,
              nrows A = d -> ncols A = d ->
              nrows B = ncols (arg_inputs a) -> ncols B = ncols (arg_inputs a) ->
              match broadcast2 Rplus A B with
              | Ok C => shape C <> (d, d)
              | Raise _ => True
              end).
    { intros A B HAr HAc HBr HBc. unfold broadcast2.
      rewrite HAr, HAc, HBr, HBc. unfold broadcast_dim.
      destruct (Nat.eqb_spec d (ncols (arg_inputs a))); [congruence|].
      destruct (Nat.eqb_spec d 1) as [->|_].
      - unfold shape; cbn. intros H; injection H as H _. congruence.
      - destruct (Nat.eqb_spec (ncols (arg_inputs a)) 1); [contradiction | exact I]. }
    destruct (Rlt_dec 0 (momentum (self st))).
    + pose proof (Hbc (scalar_mul (momentum (self st)) (precision_matrix st))
                      (scalar_mul (1 - momentum (self st)) (div_scalar M (INR b)))
                      HPr HPc HMr HMc) as Hcase.
      destruct (broadcast2 _ _ _) as [C|e]; [|eauto].
      destruct (shape_eqb (shape C) (shape (precision_matrix st))) eqn:Hs; [|eauto].
      apply shape_eqb_eq in Hs. unfold shape at 2 in Hs.
      rewrite HPr, HPc in Hs. contradiction.
    + pose proof (Hbc (precision_matrix st) M HPr HPc HMr HMc) as Hcase.
      destruct (broadcast2 _ _ _) as [C|e]; [|eauto].
      destruct (shape_eqb (shape C) (shape (precision_matrix st))) eqn:Hs; [|eauto].
      apply shape_eqb_eq in Hs. unfold shape at 2 in Hs.
      rewrite HPr, HPc in Hs. contradiction.
Qed.

End WithLinalg.

(** *** Witnesses *)

Lemma example_reachable :
  @reachable_ops Diagonal.backend
    (@run_ops Diagonal.backend
       (LaplaceExamples.built_on LaplaceExamples.gaussian_layer)
       [OpCall LaplaceExamples.training_call;
        OpCall LaplaceExamples.inference_call; OpReset]).
Proof.
  exists LaplaceExamples.gaussian_layer, [2; 1]%nat, (fun _ _ => 0),
    (LaplaceExamples.built_on LaplaceExamples.gaussian_layer),
    [OpCall LaplaceExamples.training_call;
     OpCall LaplaceExamples.inference_call; OpReset].
  split; reflexivity.
Qed.

Lemma precision_matrix_symmetric_witness :
  let st := @run_ops Diagonal.backend
              (LaplaceExamples.built_on LaplaceExamples.gaussian_layer)
              [OpCall LaplaceExamples.training_call;
               OpCall LaplaceExamples.inference_call; OpReset] in
  @reachable_ops Diagonal.backend st /\
  exists d, shape (precision_matrix st) = (d, d).
Proof.
  cbv zeta. split; [exact example_reachable|].
  destruct (@precision_matrix_symmetric Diagonal.backend _ example_reachable)
    as (d & Hshape & _).
  now exists d.
Defined.

Lemma reset_zeroes_precision_witness :
  let st := @run_ops Diagonal.backend
              (LaplaceExamples.built_on LaplaceExamples.gaussian_layer)
              [OpCall LaplaceExamples.training_call;
               OpCall LaplaceExamples.inference_call; OpReset] in
  @reachable_ops Diagonal.backend st /\
  exists d st', reset_precision_matrix st = (st', Ok tt) /\
                precision_matrix st' = zeros d d.
Proof.
  cbv zeta. split; [exact example_reachable|].
  destruct (@reset_zeroes_precision Diagonal.backend _ example_reachable)
    as (d & st' & Hreset & Hzero & _).
  exists d, st'. split; [exact Hreset | exact Hzero].
Defined.

Lemma reset_then_inference_reuses_covariance_witness :
  let st := @run_ops Diagonal.backend
              (LaplaceExamples.built_on LaplaceExamples.gaussian_layer)
              [OpCall LaplaceExamples.training_call] in
  let st1 := fst (@call_with Diagonal.backend LaplaceExamples.inference_call st) in
  let st2 := fst (reset_precision_matrix st1) in
  let st3 := fst (@call_with Diagonal.backend LaplaceExamples.inference_call st2) in
  @reachable_ops Diagonal.backend st /\
  @inversion_raises Diagonal.backend st = false /\
  if_update_covariance st2 = false /\
  inversions (trace st3) = inversions (trace st1) /\
  covariance_matrix st3 = covariance_matrix st1.
Proof.
  cbv zeta.
  assert (Hreach : @reachable_ops Diagonal.backend
            (@run_ops Diagonal.backend
               (LaplaceExamples.built_on LaplaceExamples.gaussian_layer)
               [OpCall LaplaceExamples.training_call])).
  { exists LaplaceExamples.gaussian_layer, [2; 1]%nat, (fun _ _ => 0),
      (LaplaceExamples.built_on LaplaceExamples.gaussian_layer),
      [OpCall LaplaceExamples.training_call].
    split; reflexivity. }
  assert (Hpass : @inversion_raises Diagonal.backend
            (@run_ops Diagonal.backend
               (LaplaceExamples.built_on LaplaceExamples.gaussian_layer)
               [OpCall LaplaceExamples.training_call]) = false).
  { destruct default_layer_trained as (st1 & Hcall & _ & _ & _ & Hp).
    cbn [run_ops fold_left step]. now rewrite Hcall. }
  split; [exact Hreach|]. split; [exact Hpass|].
  destruct (@reset_then_inference_reuses_covariance Diagonal.backend _
              LaplaceExamples.inference_call LaplaceExamples.inference_call
              Hreach eq_refl eq_refl)
    as (_ & _ & Hreuse & _).
  destruct (Hreuse Hpass) as (Hflag & _ & Hinv & Hcov).
  split; [exact Hflag|]. split; [exact Hinv | exact Hcov].
Defined.

Lemma laplace_call_frame_witness :
  well_shaped 1 LaplaceExamples.trained_layer /\
  precision_matrix
    (fst (@call_with Diagonal.backend LaplaceExamples.inference_call
            LaplaceExamples.trained_layer))
  = precision_matrix LaplaceExamples.trained_layer.
Proof.
  assert (Hws : well_shaped 1 LaplaceExamples.trained_layer) by (repeat split).
  split; [exact Hws|].
  destruct (@laplace_call_frame Diagonal.backend 1
              LaplaceExamples.inference_call LaplaceExamples.trained_layer Hws)
    as (_ & _ & _ & Hinfer).
  exact (Hinfer eq_refl).
Defined.

Lemma inference_idempotent_witness :
  well_shaped 1 LaplaceExamples.trained_layer /\
  @call_with Diagonal.backend LaplaceExamples.inference_call
    (fst (@call_with Diagonal.backend LaplaceExamples.inference_call
            LaplaceExamples.trained_layer))
  = @call_with Diagonal.backend LaplaceExamples.inference_call
      LaplaceExamples.trained_layer.
Proof.
  assert (Hws : well_shaped 1 LaplaceExamples.trained_layer) by (repeat split).
  split; [exact Hws|].
  exact (@inference_idempotent Diagonal.backend 1
           LaplaceExamples.inference_call LaplaceExamples.trained_layer
           Hws eq_refl).
Defined.

Lemma exact_sum_order_independent_witness :
  let st := LaplaceExamples.built_on LaplaceExamples2.exact_sum_layer in
  well_shaped 1 st /\ momentum (self st) <= 0 /\
  mat_eq
    (precision_matrix
       (@run Diagonal.backend st
          [LaplaceExamples.training_call; LaplaceExamples2.training_call']))
    (precision_matrix
       (@run Diagonal.backend st
          [LaplaceExamples2.training_call'; LaplaceExamples.training_call])).
Proof.
  cbv zeta.
  assert (Hws : well_shaped 1
                  (LaplaceExamples.built_on LaplaceExamples2.exact_sum_layer))
    by (repeat split).
  assert (Hm : momentum (self (LaplaceExamples.built_on
                                 LaplaceExamples2.exact_sum_layer)) <= 0)
    by (cbn; lra).
  split; [exact Hws|]. split; [exact Hm|].
  destruct (@exact_sum_order_independent Diagonal.backend 1 2 1
              LaplaceExamples.training_call LaplaceExamples2.training_call'
              _ Hws Hm eq_refl eq_refl eq_refl eq_refl
              (or_introl eq_refl) (or_introl eq_refl))
    as (M1 & M2 & _ & _ & _ & Horder).
  exact Horder.
Defined.

Lemma repeated_minibatch_closed_form_witness :
  let st := LaplaceExamples.built_on LaplaceExamples.gaussian_layer in
  well_shaped 1 st /\ 0 < momentum (self st) /\
  exists M,
    precision_matrix_minibatch "gaussian" LaplaceExamples.features None = Ok M /\
    entry (precision_matrix
             (@run Diagonal.backend st (repeat LaplaceExamples.training_call 3)))
          0%nat 0%nat
    = 0.999 ^ 3 * 0 + (1 - 0.999 ^ 3) * (entry M 0%nat 0%nat / INR 2).
Proof.
  cbv zeta.
  assert (Hws : well_shaped 1
                  (LaplaceExamples.built_on LaplaceExamples.gaussian_layer))
    by (repeat split).
  assert (Hm : 0 < momentum (self (LaplaceExamples.built_on
                                     LaplaceExamples.gaussian_layer)))
    by (cbn; lra).
  split; [exact Hws|]. split; [exact Hm|].
  destruct (@repeated_minibatch_closed_form Diagonal.backend 1 2
              LaplaceExamples.training_call 3 _ Hws Hm eq_refl eq_refl
              (or_introl eq_refl))
    as (M & HM & Hentry).
  exists M. split; [exact HM|].
  exact (Hentry 0%nat 0%nat (le_n 1) (le_n 1)).
Defined.

Lemma gaussian_ignores_logits_witness :
  likelihood (self (LaplaceExamples.built_on LaplaceExamples.gaussian_layer))
  = "gaussian"%string /\
  @call Diagonal.backend 0%Z LaplaceExamples.features None (TrainingBool true)
    (LaplaceExamples.built_on LaplaceExamples.gaussian_layer)
  = @call Diagonal.backend 0%Z LaplaceExamples.features
      (Some LaplaceExamples.logits_2x2) (TrainingBool true)
      (LaplaceExamples.built_on LaplaceExamples.gaussian_layer).
Proof.
  split; [reflexivity|].
  exact (@gaussian_ignores_logits Diagonal.backend 0%Z LaplaceExamples.features
           None (Some LaplaceExamples.logits_2x2) (TrainingBool true)
           (LaplaceExamples.built_on LaplaceExamples.gaussian_layer) eq_refl).
Defined.

Lemma inference_wrong_width_raises_late_witness :
  well_shaped 1 LaplaceExamples.trained_layer /\
  ncols (arg_inputs LaplaceExamples2.wide_inference_call) <> 1%nat /\
  (exists msg,
     snd (@call_with Diagonal.backend LaplaceExamples2.wide_inference_call
            LaplaceExamples.trained_layer)
     = Raise (InvalidArgumentError msg)) /\
  if_update_covariance
    (fst (@call_with Diagonal.backend LaplaceExamples2.wide_inference_call
            LaplaceExamples.trained_layer)) = false.
Proof.
  assert (Hws : well_shaped 1 LaplaceExamples.trained_layer) by (repeat split).
  assert (Hw : ncols (arg_inputs LaplaceExamples2.wide_inference_call) <> 1%nat)
    by (cbn; discriminate).
  split; [exact Hws|]. split; [exact Hw|].
  destruct (@inference_wrong_width_raises_late Diagonal.backend 1
              LaplaceExamples2.wide_inference_call LaplaceExamples.trained_layer
              Hws eq_refl Hw) as (Hraise & Hlate & _).
  split; [exact Hraise|].
  exact (proj1 (Hlate trained_layer_inverts)).
Defined.

Lemma training_feature_width_witness :
  let st := LaplaceExamples.built_on LaplaceExamples.gaussian_layer in
  let a := {| arg_learning_phase := 0%Z;
              arg_inputs := LaplaceExamples2.wide_features;
              arg_logits := None;
              arg_training := TrainingBool true |} in
  well_shaped 1 st /\
  ncols (arg_inputs a) <> 1%nat /\
  exists e, @call_with Diagonal.backend a st = (st, Raise e).
Proof.
  cbv zeta.
  assert (Hws : well_shaped 1
                  (LaplaceExamples.built_on LaplaceExamples.gaussian_layer))
    by (repeat split).
  split; [exact Hws|]. split; [cbn; discriminate|].
  refine (proj2 (@training_feature_width Diagonal.backend 1 2
                   {| arg_learning_phase := 0%Z;
                      arg_inputs := LaplaceExamples2.wide_features;
                      arg_logits := None;
                      arg_training := TrainingBool true |}
                   _ Hws eq_refl eq_refl eq_refl) _ _); cbn; discriminate.
Defined.

Lemma first_inference_uses_initial_covariance_witness :
  build LaplaceExamples.gaussian_layer [2; 1]%nat (fun _ _ => 0)
  = Ok (LaplaceExamples.built_on LaplaceExamples.gaussian_layer) /\
  exists st' out,
    @call_with Diagonal.backend LaplaceExamples.inference_call
      (LaplaceExamples.built_on LaplaceExamples.gaussian_layer) = (st', Ok out) /\
    inversions (trace st') = 0%nat.
Proof.
  split; [reflexivity|].
  destruct (@first_inference_uses_initial_covariance Diagonal.backend
              LaplaceExamples.gaussian_layer [2; 1]%nat (fun _ _ => 0)
              (LaplaceExamples.built_on LaplaceExamples.gaussian_layer)
              LaplaceExamples.inference_call 1 2
              eq_refl eq_refl eq_refl eq_refl)
    as (st' & out & Hcall & Hinv & _).
  exists st', out. split; [exact Hcall | exact Hinv].
Defined.

End LaplaceMore.

(** * Properties of the orthogonal random features *)

Module OrthogonalFeaturesFacts.
Import OrthogonalFeatures MatrixFacts.

Lemma sum_n_ones (n : nat) : sum_n n (fun _ => 1) = INR n.
Proof.
  induction n as [|n IH]; [reflexivity|].
  cbn [sum_n]. rewrite IH, S_INR. reflexivity.
Qed.

Lemma sum_n_zero (n : nat) (f : nat -> R) :
  (forall k, (k < n)%nat -> f k = 0) -> sum_n n f = 0.
Proof.
  induction n as [|n IH]; intros Hf; [reflexivity|].
  cbn [sum_n]. rewrite IH by (intros; apply Hf; lia).
  rewrite Hf by lia. ring.
Qed.

(** A sum with a single non-zero term. *)
Lemma sum_n_single (n j : nat) (f : nat -> R) :
  (j < n)%nat -> (forall k, (k < n)%nat -> k <> j -> f k = 0) ->
  sum_n n f = f j.
Proof.
  induction n as [|n IH]; intros Hj Hf; [lia|].
  cbn [sum_n]. destruct (Nat.eq_dec j n) as [->|Hne].
  - rewrite sum_n_zero by (intros; apply Hf; lia). ring.
  - rewrite IH by (try lia; intros; apply Hf; lia).
    rewrite (Hf n) by lia. ring.
Qed.

Section WithSampler.
Context {sampler : Sampler}.

Lemma blocks_S (self : OrthogonalRandomFeatures) (num_rows draws n : nat) :
  blocks self num_rows draws (S n)
  = _sample_orthogonal_matrix self draws (num_rows, num_rows)
    :: blocks self num_rows (S draws) n.
Proof.
  unfold blocks. cbn [seq map]. rewrite Nat.add_0_r. f_equal.
  rewrite <- seq_shift, map_map.
  apply map_ext. intros t. now rewrite Nat.add_succ_r.
Qed.

(** The loop, for rows of positive length and enough fuel: it draws [n]
    blocks, the least number that covers the columns. *)
Lemma sample_blocks_spec (self : OrthogonalRandomFeatures)
    (num_rows num_cols : nat) :
  (1 <= num_rows)%nat ->
  forall fuel sampled draws acc,
    (num_cols - sampled <= fuel)%nat ->
    exists n,
      sample_blocks fuel self num_rows num_cols sampled draws acc
      = Some (acc ++ blocks self num_rows draws n, (draws + n)%nat) /\
      (num_cols <= sampled + n * num_rows)%nat /\
      (1 <= n -> sampled + (n - 1) * num_rows < num_cols)%nat.
Proof.
  intros Hrows. induction fuel as [|fuel IH]; intros sampled draws acc Hfuel.
  - exists 0%nat. cbn [sample_blocks].
    destruct (Nat.ltb_spec sampled num_cols); [lia|].
    unfold blocks; cbn. rewrite app_nil_r, Nat.add_0_r.
    split; [reflexivity|]. split; lia.
  - cbn [sample_blocks].
    destruct (Nat.ltb_spec sampled num_cols) as [Hlt|Hge].
    + destruct (IH (sampled + num_rows)%nat (S draws)
                  (acc ++ [_sample_orthogonal_matrix self draws (num_rows, num_rows)]))
        as (n & Hrun & Hcover & Hleast); [lia|].
      exists (S n). rewrite Hrun, blocks_S, <- app_assoc. cbn [app].
      split; [f_equal; f_equal; lia|]. split; [cbn; lia|].
      intros _. destruct n as [|n]; [cbn; lia|].
      assert (Hl := Hleast ltac:(lia)). cbn in Hl |- *.
      rewrite Nat.sub_0_r in Hl. lia.
    + exists 0%nat. unfold blocks; cbn. rewrite app_nil_r, Nat.add_0_r.
      split; [reflexivity|]. split; lia.
Qed.

(** The concatenation of [n >= 1] blocks: column [j] is column
    [j mod num_rows] of block [j / num_rows]. *)
Lemma concat_blocks (self : OrthogonalRandomFeatures) (num_rows : nat) :
  (1 <= num_rows)%nat ->
  forall n draws,
    exists C,
      concat_cols (blocks self num_rows draws (S n)) = Ok C /\
      nrows C = num_rows /\ ncols C = (S n * num_rows)%nat /\
      forall i j, (j < S n * num_rows)%nat ->
        entry C i j
        = orthogonal_entries (stddev self) (draws + j / num_rows)
            (num_rows, num_rows) i (j mod num_rows).
Proof.
  intros Hrows. induction n as [|n IH]; intros draws.
  - eexists. split; [reflexivity|]. cbn [nrows ncols fst snd _sample_orthogonal_matrix].
    split; [reflexivity|]. split; [lia|].
    intros i j Hj. cbn [entry].
    rewrite Nat.div_small, Nat.mod_small, Nat.add_0_r by lia. reflexivity.
  - destruct (IH (S draws)) as (B & HB & HBr & HBc & HBe).
    rewrite blocks_S.
    remember (blocks self num_rows (S draws) (S n)) as rest eqn:Hrest.
    cbn [concat_cols].
    destruct rest as [|B0 rest']; [rewrite blocks_S in Hrest; discriminate|].
    rewrite HB. cbn [bind].
    eexists. split; [reflexivity|].
    cbn [nrows ncols concat2 fst snd _sample_orthogonal_matrix].
    split; [reflexivity|]. split; [rewrite HBc; lia|].
    intros i j Hj.
    cbn [entry concat2 _sample_orthogonal_matrix nrows ncols fst snd].
    destruct (Nat.ltb_spec j num_rows) as [Hlt|Hge].
    + rewrite Nat.div_small, Nat.mod_small, Nat.add_0_r by lia. reflexivity.
    + rewrite HBe by lia.
      replace j with ((j - num_rows) + 1 * num_rows)%nat at 3 4 by lia.
      rewrite Nat.div_add, Nat.Div0.mod_add by lia.
      f_equal; lia.
Qed.

(** [__call__] for more columns than rows. *)
Lemma call_wide (self : OrthogonalRandomFeatures) (num_rows num_cols fuel : nat) :
  (1 <= num_rows)%nat -> (num_rows < num_cols)%nat -> (num_cols <= fuel)%nat ->
  exists n l ortho_mat,
    sample_blocks fuel self num_rows num_cols 0 0 [] = Some (l, n) /\
    ((n - 1) * num_rows < num_cols <= n * num_rows)%nat /\
    shape ortho_mat = (num_rows, num_cols) /\
    __call__ fuel self (num_rows, num_cols)
    = Some (Ok (scale_cols ortho_mat (feature_norms self ortho_mat))) /\
    forall i j, (j < num_cols)%nat ->
      entry ortho_mat i j
      = orthogonal_entries (stddev self) (j / num_rows) (num_rows, num_rows)
          i (j mod num_rows).
Proof.
  intros Hrows Hwide Hfuel.
  destruct (sample_blocks_spec self num_rows num_cols Hrows fuel 0 0 [])
    as (n & Hrun & Hcover & Hleast); [lia|].
  cbn [app Nat.add] in Hrun, Hcover, Hleast.
  destruct n as [|n]; [cbn in Hcover; lia|].
  destruct (concat_blocks self num_rows Hrows n 0)
    as (C & HC & HCr & HCc & HCe).
  exists (S n), (blocks self num_rows 0 (S n)), (slice_cols C num_cols).
  split; [exact Hrun|].
  split; [split; [apply Hleast; lia | exact Hcover]|].
  split; [unfold shape; cbn; rewrite HCr, HCc; f_equal; lia|].
  split.
  - unfold __call__.
    destruct (Nat.ltb_spec num_rows num_cols); [|lia].
    rewrite Hrun, HC. reflexivity.
  - intros i j Hj. cbn [entry slice_cols]. rewrite HCe by lia. reflexivity.
Qed.

(** The norm of column [j], by the two policies. *)
Lemma feature_norms_cases (self : OrthogonalRandomFeatures) (A : matrix) (j : nat) :
  feature_norms self A j
  = if random_norm self
    then sqrt (sum_n (nrows A)
                 (fun i => normal_entries (shape A) i j * normal_entries (shape A) i j))
    else sqrt (INR (nrows A)).
Proof.
  unfold feature_norms, reduce_sum_axis0.
  destruct (random_norm self); cbn; [reflexivity|].
  now rewrite sum_n_ones.
Qed.

(** X17.  For a shape with more columns than rows (and at least one row),
    [__call__] leaves its loop after the least number of draws of square
    matrices that covers the columns and returns a matrix of the requested
    shape; its column [j] is column [j mod num_rows] of the draw number
    [j / num_rows], times the norm of the column: [sqrt(num_rows)] with
    fixed norms, and the root of a sum of [num_rows] squared normal samples
    otherwise. *)
Theorem orthogonal_features_wide (self : OrthogonalRandomFeatures)
    (num_rows num_cols fuel : nat) :
  (1 <= num_rows)%nat -> (num_rows < num_cols)%nat -> (num_cols <= fuel)%nat ->
  exists n l W,
    sample_blocks fuel self num_rows num_cols 0 0 [] = Some (l, n) /\
    ((n - 1) * num_rows < num_cols <= n * num_rows)%nat /\
    __call__ fuel self (num_rows, num_cols) = Some (Ok W) /\
    shape W = (num_rows, num_cols) /\
    forall i j, (j < num_cols)%nat ->
      entry W i j
      = orthogonal_entries (stddev self) (j / num_rows) (num_rows, num_rows)
          i (j mod num_rows)
        * (if random_norm self
           then sqrt (sum_n num_rows
                        (fun i' => normal_entries (num_rows, num_cols) i' j
                                   * normal_entries (num_rows, num_cols) i' j))
           else sqrt (INR num_rows)).
Proof.
  intros Hrows Hwide Hfuel.
  destruct (call_wide self num_rows num_cols fuel Hrows Hwide Hfuel)
    as (n & l & A & Hrun & Hn & HA & Hcall & He).
  exists n, l, (scale_cols A (feature_norms self A)).
  split; [exact Hrun|]. split; [exact Hn|]. split; [exact Hcall|].
  split; [exact HA|].
  intros i j Hj. cbn [entry scale_cols].
  rewrite He by exact Hj. rewrite feature_norms_cases, HA.
  unfold shape in HA. injection HA as -> _. reflexivity.
Qed.

(** X18.  For a shape with at least as many rows as columns [__call__]
    makes a single draw of that shape, whatever the fuel.  When the draw has
    orthogonal columns of squared norm [gain^2], the columns of the result
    are orthogonal, and with fixed norms each has the squared norm
    [gain^2 * num_rows]. *)
Theorem orthogonal_features_tall (self : OrthogonalRandomFeatures)
    (num_rows num_cols fuel : nat) :
  (num_cols <= num_rows)%nat ->
  (forall j1 j2, (j1 < num_cols)%nat -> (j2 < num_cols)%nat ->
     sum_n num_rows
       (fun i => orthogonal_entries (stddev self) 0 (num_rows, num_cols) i j1
                 * orthogonal_entries (stddev self) 0 (num_rows, num_cols) i j2)
     = if Nat.eqb j1 j2 then stddev self * stddev self else 0) ->
  exists W,
    __call__ fuel self (num_rows, num_cols) = Some (Ok W) /\
    shape W = (num_rows, num_cols) /\
    (forall j1 j2, (j1 < num_cols)%nat -> (j2 < num_cols)%nat -> j1 <> j2 ->
       sum_n num_rows (fun i => entry W i j1 * entry W i j2) = 0) /\
    (random_norm self = false ->
     forall j, (j < num_cols)%nat ->
       sum_n num_rows (fun i => entry W i j * entry W i j)
       = stddev self * stddev self * INR num_rows).
Proof.
  intros Htall Hortho. unfold __call__.
  destruct (Nat.ltb_spec num_rows num_cols); [lia|].
  set (A := _sample_orthogonal_matrix self 0 (num_rows, num_cols)).
  exists (scale_cols A (feature_norms self A)).
  split; [reflexivity|]. split; [reflexivity|]. split.
  - intros j1 j2 Hj1 Hj2 Hne.
    rewrite (sum_n_ext _ _
               (fun i => (feature_norms self A j1 * feature_norms self A j2)
                         * (orthogonal_entries (stddev self) 0 (num_rows, num_cols) i j1
                            * orthogonal_entries (stddev self) 0 (num_rows, num_cols) i j2)))
      by (intros i _; cbn; ring).
    rewrite sum_n_scale, Hortho by assumption.
    destruct (Nat.eqb_spec j1 j2); [contradiction | ring].
  - intros Hfixed j Hj.
    rewrite (sum_n_ext _ _
               (fun i => (feature_norms self A j * feature_norms self A j)
                         * (orthogonal_entries (stddev self) 0 (num_rows, num_cols) i j
                            * orthogonal_entries (stddev self) 0 (num_rows, num_cols) i j)))
      by (intros i _; cbn; ring).
    rewrite sum_n_scale, Hortho, Nat.eqb_refl by assumption.
    rewrite feature_norms_cases, Hfixed. cbn [nrows A _sample_orthogonal_matrix fst].
    rewrite sqrt_sqrt by apply pos_INR. ring.
Qed.

(** X19.  When the square draws have orthogonal columns of squared norm
    [gain^2], two different columns of the result that come from one draw
    are orthogonal, and with fixed norms every column has the squared norm
    [gain^2 * num_rows]. *)
Theorem orthogonal_features_block_columns (self : OrthogonalRandomFeatures)
    (num_rows num_cols fuel : nat) (W : matrix) :
  (1 <= num_rows)%nat -> (num_rows < num_cols)%nat -> (num_cols <= fuel)%nat ->
  (forall draw j1 j2, (j1 < num_rows)%nat -> (j2 < num_rows)%nat ->
     sum_n num_rows
       (fun i => orthogonal_entries (stddev self) draw (num_rows, num_rows) i j1
                 * orthogonal_entries (stddev self) draw (num_rows, num_rows) i j2)
     = if Nat.eqb j1 j2 then stddev self * stddev self else 0) ->
  __call__ fuel self (num_rows, num_cols) = Some (Ok W) ->
  (forall j1 j2, (j1 < num_cols)%nat -> (j2 < num_cols)%nat -> j1 <> j2 ->
     (j1 / num_rows = j2 / num_rows)%nat ->
     sum_n num_rows (fun i => entry W i j1 * entry W i j2) = 0) /\
  (random_norm self = false ->
   forall j, (j < num_cols)%nat ->
     sum_n num_rows (fun i => entry W i j * entry W i j)
     = stddev self * stddev self * INR num_rows).
Proof.
  intros Hrows Hwide Hfuel Hortho Hcall.
  destruct (call_wide self num_rows num_cols fuel Hrows Hwide Hfuel)
    as (n & l & A & _ & _ & HA & Hcall' & He).
  rewrite Hcall in Hcall'. injection Hcall' as ->.
  assert (Hmod : forall j, (j mod num_rows < num_rows)%nat)
    by (intros; apply Nat.mod_upper_bound; lia).
  split.
  - intros j1 j2 Hj1 Hj2 Hne Hblock.
    rewrite (sum_n_ext _ _
               (fun i => (feature_norms self A j1 * feature_norms self A j2)
                         * (orthogonal_entries (stddev self) (j1 / num_rows)
                              (num_rows, num_rows) i (j1 mod num_rows)
                            * orthogonal_entries (stddev self) (j1 / num_rows)
                                (num_rows, num_rows) i (j2 mod num_rows)))).
    2:{ intros i _. cbn [entry scale_cols].
        rewrite !He by assumption. rewrite Hblock. ring. }
    rewrite sum_n_scale, Hortho by apply Hmod.
    destruct (Nat.eqb_spec (j1 mod num_rows) (j2 mod num_rows)) as [Heq|_];
      [|ring].
    exfalso. apply Hne.
    rewrite (Nat.div_mod_eq j1 num_rows), (Nat.div_mod_eq j2 num_rows).
    now rewrite Hblock, Heq.
  - intros Hfixed j Hj.
    rewrite (sum_n_ext _ _
               (fun i => (feature_norms self A j * feature_norms self A j)
                         * (orthogonal_entries (stddev self) (j / num_rows)
                              (num_rows, num_rows) i (j mod num_rows)
                            * orthogonal_entries (stddev self) (j / num_rows)
                                (num_rows, num_rows) i (j mod num_rows)))).
    2:{ intros i _. cbn [entry scale_cols]. rewrite !He by assumption. ring. }
    rewrite sum_n_scale, Hortho, Nat.eqb_refl by apply Hmod.
    rewrite feature_norms_cases, Hfixed.
    unfold shape in HA. injection HA as -> _.
    rewrite sqrt_sqrt by apply pos_INR. ring.
Qed.

End WithSampler.

(** The identity pattern has orthogonal columns. *)
Lemma identity_sampler_orthogonal (gain : R) (k j1 j2 : nat) :
  (j1 < k)%nat -> (j2 < k)%nat ->
  sum_n k (fun i => (if Nat.eqb i j1 then gain else 0)
                    * (if Nat.eqb i j2 then gain else 0))
  = if Nat.eqb j1 j2 then gain * gain else 0.
Proof.
  intros H1 H2. destruct (Nat.eqb_spec j1 j2) as [->|Hne].
  - rewrite (sum_n_single k j2); [now rewrite Nat.eqb_refl | assumption |].
    intros i _ Hi. destruct (Nat.eqb_spec i j2); [contradiction | ring].
  - apply sum_n_zero. intros i _.
    destruct (Nat.eqb_spec i j1); destruct (Nat.eqb_spec i j2);
      try ring; congruence.
Qed.

Lemma orthogonal_features_wide_witness :
  let self := {| stddev := 1; random_norm := false |} in
  (1 <= 2)%nat /\ (2 < 5)%nat /\ (5 <= 5)%nat /\
  exists n l W,
    @sample_blocks IdentitySampler.sampler 5 self 2 5 0 0 [] = Some (l, n) /\
    ((n - 1) * 2 < 5 <= n * 2)%nat /\
    @__call__ IdentitySampler.sampler 5 self (2, 5)%nat = Some (Ok W) /\
    shape W = (2, 5)%nat.
Proof.
  cbv zeta. split; [lia|]. split; [lia|]. split; [lia|].
  destruct (@orthogonal_features_wide IdentitySampler.sampler
              {| stddev := 1; random_norm := false |} 2 5 5
              ltac:(lia) ltac:(lia) ltac:(lia))
    as (n & l & W & Hrun & Hn & Hcall & Hshape & _).
  exists n, l, W. repeat split; try assumption; apply Hn.
Defined.

Lemma orthogonal_features_tall_witness :
  (2 <= 3)%nat /\
  exists W,
    @__call__ IdentitySampler.sampler 0
      {| stddev := 2; random_norm := false |} (3, 2)%nat = Some (Ok W) /\
    shape W = (3, 2)%nat /\
    sum_n 3 (fun i => entry W i 0%nat * entry W i 1%nat) = 0.
Proof.
  split; [lia|].
  destruct (@orthogonal_features_tall IdentitySampler.sampler
              {| stddev := 2; random_norm := false |} 3 2 0 ltac:(lia)
              (fun j1 j2 H1 H2 =>
                 identity_sampler_orthogonal 2 3 j1 j2
                   (Nat.lt_le_trans _ _ _ H1 (Nat.le_succ_diag_r 2))
                   (Nat.lt_le_trans _ _ _ H2 (Nat.le_succ_diag_r 2))))
    as (W & Hcall & Hshape & Hdiff & _).
  exists W. split; [exact Hcall|]. split; [exact Hshape|].
  apply Hdiff; lia.
Defined.

Lemma orthogonal_features_block_columns_witness :
  let self := {| stddev := 2; random_norm := false |} in
  exists W,
    @__call__ IdentitySampler.sampler 5 self (2, 5)%nat = Some (Ok W) /\
    sum_n 2 (fun i => entry W i 2%nat * entry W i 3%nat) = 0 /\
    sum_n 2 (fun i => entry W i 4%nat * entry W i 4%nat) = 2 * 2 * INR 2.
Proof.
  cbv zeta.
  destruct (@call_wide IdentitySampler.sampler
              {| stddev := 2; random_norm := false |} 2 5 5
              ltac:(lia) ltac:(lia) ltac:(lia))
    as (n & l & A & _ & _ & _ & Hcall & _).
  eexists. split; [exact Hcall|].
  destruct (@orthogonal_features_block_columns IdentitySampler.sampler
              {| stddev := 2; random_norm := false |} 2 5 5 _
              ltac:(lia) ltac:(lia) ltac:(lia)
              (fun draw j1 j2 H1 H2 => identity_sampler_orthogonal 2 2 j1 j2 H1 H2)
              Hcall) as (Hdiff & Hnorm).
  split.
  - apply Hdiff; [lia | lia | lia | reflexivity].
  - apply (Hnorm eq_refl). lia.
Defined.

End OrthogonalFeaturesFacts.

(** * Properties of the Gaussian process head *)

Module GPHeadFacts.
Import GPHead MatrixFacts LaplaceFacts.

(** Adding a row vector to every row of a tensor. *)
Lemma broadcast2_row (op : R -> R -> R) (A r : matrix) :
  nrows r = 1%nat -> ncols r = ncols A ->
  exists C, broadcast2 op A r = Ok C /\ shape C = shape A.
Proof.
  intros Hr Hc. unfold broadcast2.
  rewrite Hr, Hc, LaplaceMore.broadcast_dim_one_r, broadcast_dim_same.
  eexists. split; reflexivity.
Qed.

(** What [build] creates. *)
Lemma build_well_formed (h : RandomFeatureGaussianProcess)
    (input_shape : list nat) (draws : head_draws) (b : BuiltHead) (m : nat) :
  Laplace.last_dim input_shape = Ok m ->
  build h input_shape draws = Ok b ->
  self b = h /\ well_formed m b /\
  _random_feature b = _make_random_feature_layer h m draws.
Proof.
  intros Hm. unfold build. rewrite Hm. cbn [bind].
  set (layer := _make_random_feature_layer h m draws).
  set (n := feature_dim h layer m).
  assert (Hfits : layer_fits h layer m).
  { unfold layer, _make_random_feature_layer.
    destruct (use_custom_random_features h); cbn; [|reflexivity].
    destruct (String.eqb (lower (gp_kernel_type h)) "linear"); cbn; auto. }
  destruct (return_gp_cov h) eqn:Hcov.
  - unfold Laplace.init.
    destruct (Laplace.str_in (gp_cov_likelihood h) Laplace._SUPPORTED_LIKELIHOOD);
      cbn; [|discriminate].
    intros H; injection H as <-. cbn.
    split; [reflexivity|]. split; [|reflexivity].
    unfold well_formed; cbn. fold layer n.
    repeat split; try assumption.
  - cbn. intros H; injection H as <-. cbn.
    split; [reflexivity|]. split; [|reflexivity].
    unfold well_formed; cbn. fold layer n.
    repeat split; assumption.
Qed.

(** The covariance layer [build] creates has its flag clear. *)
Lemma build_flag_clear (h : RandomFeatureGaussianProcess)
    (input_shape : list nat) (draws : head_draws) (b : BuiltHead) :
  build h input_shape draws = Ok b ->
  forall cov, _gp_cov_layer b = Some cov ->
    Laplace.if_update_covariance cov = false.
Proof.
  unfold build.
  destruct (Laplace.last_dim input_shape) as [m|e]; cbn [bind]; [|discriminate].
  destruct (return_gp_cov h).
  - unfold Laplace.init.
    destruct (Laplace.str_in (gp_cov_likelihood h) Laplace._SUPPORTED_LIKELIHOOD);
      cbn; [|discriminate].
    intros H; injection H as <-. cbn. intros cov Hc. injection Hc as <-.
    reflexivity.
  - cbn. intros H; injection H as <-. cbn. discriminate.
Qed.

Section WithLayers.
Context {keras : KerasLayers} {linalg : LinalgBackend}.

(** The random features of [bs] inputs of width [m]. *)
Lemma compute_gp_feature_ok (m bs : nat) (b : BuiltHead) (inputs : matrix) :
  well_formed m b -> shape inputs = (bs, m) ->
  exists f, compute_gp_feature b inputs = Ok f /\
            shape f = (bs, feature_dim (self b) (_random_feature b) m).
Proof.
  intros (Hm & Hfits & _) Hin. unfold shape in Hin. injection Hin as Hr Hc.
  unfold compute_gp_feature.
  assert (Hpre : exists x,
            (if normalize_input (self b)
             then input_norm_layer (norm_input_dim b) inputs
             else if use_custom_random_features (self b)
                  then match gp_input_scale (self b) with
                       | Some s => Ok (mul_scalar inputs s)
                       | None => Ok inputs
                       end
                  else Ok inputs) = Ok x /\ nrows x = bs /\ ncols x = m).
  { destruct (normalize_input (self b)).
    - unfold input_norm_layer. rewrite Hm, Hc, Nat.eqb_refl.
      eexists. split; [reflexivity|]. cbn. auto.
    - destruct (use_custom_random_features (self b)).
      + destruct (gp_input_scale (self b)); eexists; (split; [reflexivity|]);
          cbn; auto.
      + eexists. split; [reflexivity|]. auto. }
  destruct Hpre as (x & -> & Hxr & Hxc). cbn [bind].
  assert (Hrf : exists f, random_feature (self b) (_random_feature b) x = Ok f /\
                  shape f = (bs, feature_dim (self b) (_random_feature b) m)).
  { destruct (_random_feature b) as [m'|  |kernel bias]; cbn in Hfits |- *.
    - subst m'. rewrite Hxc, Nat.eqb_refl.
      eexists. split; [reflexivity|]. unfold shape; cbn. now rewrite Hxr.
    - exists x. split; [reflexivity|]. unfold shape. congruence.
    - destruct Hfits as (Hk & Hb). unfold shape in Hk, Hb.
      injection Hk as Hkr Hkc. injection Hb as Hbr Hbc.
      rewrite matmul_ok by congruence. cbn [bind].
      destruct (broadcast2_row Rplus (mat_prod x kernel) bias)
        as (C & HC & HCs); [assumption | cbn; congruence |].
      rewrite HC. cbn [bind].
      unfold shape in HCs; cbn in HCs. injection HCs as HCr HCc.
      eexists. split; [reflexivity|].
      destruct (custom_random_features_activation (self b));
        unfold shape; cbn; congruence. }
  destruct Hrf as (f & -> & Hf). cbn [bind].
  eexists. split; [reflexivity|].
  destruct (scale_random_features (self b)); [|exact Hf].
  unfold shape in *; cbn. exact Hf.
Qed.

(** The output of the head for [bs] feature vectors. *)
Lemma compute_gp_output_ok (m bs : nat) (b : BuiltHead) (f : matrix) :
  well_formed m b ->
  shape f = (bs, feature_dim (self b) (_random_feature b) m) ->
  exists y, compute_gp_output b f = Ok y /\ shape y = (bs, units (self b)).
Proof.
  intros (_ & _ & Hw & Hbias & _) Hf.
  unfold shape in Hw, Hbias, Hf.
  injection Hw as Hwr Hwc. injection Hbias as Hbr Hbc. injection Hf as Hfr Hfc.
  unfold compute_gp_output. rewrite matmul_ok by congruence. cbn [bind].
  destruct (broadcast2_row Rplus (mat_prod f (gp_output_weights b)) (_gp_output_bias b))
    as (C & HC & HCs); [assumption | cbn; congruence |].
  exists C. split; [exact HC|]. rewrite HCs. unfold shape; cbn. congruence.
Qed.

(** A call of the covariance layer keeps the shapes, the configuration and
    the initial precision matrix. *)
Lemma covariance_call_keeps (n : nat) (a : Laplace.call_args) (cov : Laplace.Built) :
  Laplace.well_shaped n cov ->
  Laplace.well_shaped n (fst (Laplace.call_with a cov)) /\
  Laplace.initial_precision_matrix (fst (Laplace.call_with a cov))
  = Laplace.initial_precision_matrix cov /\
  Laplace.self (fst (Laplace.call_with a cov)) = Laplace.self cov.
Proof.
  intros Hws. pose proof Hws as (HP & HC & HI).
  destruct (Laplace.is_training a) eqn:Htrain.
  - destruct (call_training_cases a cov Htrain)
      as [(e & ->) | (updated & _ & Hs & ->)]; cbn [fst]; [auto|].
    repeat split; cbn; congruence.
  - destruct (Laplace.inversion_raises cov) eqn:Hraises.
    { destruct (call_inference_raises n a cov Hws Htrain Hraises) as (_ & ->).
      auto. }
    destruct (call_inference n a cov Hws Htrain Hraises) as (C & HCs & _ & ->).
    cbn [fst]. repeat split; cbn; congruence.
Qed.

(** X20.  A call of a head built for inputs of width [m] on [bs] inputs
    returns the list [gp_output], then the covariance if [return_gp_cov],
    then the random features if [return_random_features]: [gp_output] is
    [bs x units], the covariance [bs x bs] (the identity in training mode)
    and the features [bs x n], where [n] is the width of the random feature
    layer.  With a covariance layer this needs, in training mode, the
    Gaussian likelihood or a single unit and, in inference mode, an
    inversion that does not raise; when the inversion raises, so does the
    call, and the head is unchanged. *)
Theorem head_call_outputs (m bs : nat) (learning_phase : Z)
    (training : Laplace.training_arg) (inputs : matrix) (b : BuiltHead) :
  well_formed m b -> shape inputs = (bs, m) ->
  (Laplace._get_training_value learning_phase training = true ->
   return_gp_cov (self b) = true ->
   gp_cov_likelihood (self b) = "gaussian"%string \/ units (self b) = 1%nat) ->
  ((Laplace._get_training_value learning_phase training = false ->
    forall cov, _gp_cov_layer b = Some cov ->
      Laplace.inversion_raises cov = false) ->
   exists b' gp_output gp_feature covs,
     call learning_phase inputs training b
     = (b', HOk ([gp_output] ++ covs
                 ++ (if return_random_features (self b) then [gp_feature] else []))) /\
     well_formed m b' /\
     shape gp_output = (bs, units (self b)) /\
     shape gp_feature = (bs, feature_dim (self b) (_random_feature b) m) /\
     (if return_gp_cov (self b)
      then exists c, covs = [c] /\ shape c = (bs, bs) /\
             (Laplace._get_training_value learning_phase training = true ->
              c = eye bs)
      else covs = [])) /\
  (Laplace._get_training_value learning_phase training = false ->
   forall cov, _gp_cov_layer b = Some cov ->
     Laplace.inversion_raises cov = true ->
     exists msg,
       call learning_phase inputs training b
       = (b, HRaise (LayerError (InvalidArgumentError msg)))).
Proof.
  intros Hwf Hin Hlik.
  destruct (compute_gp_feature_ok m bs b inputs Hwf Hin) as (f & Hf & Hfs).
  destruct (compute_gp_output_ok m bs b f Hwf Hfs) as (y & Hy & Hys).
  pose proof Hwf as (Hm & Hfits & Hw & Hbias & Hcov).
  unfold call. rewrite Hf, Hy.
  destruct (return_gp_cov (self b)) eqn:Hret.
  - destruct (_gp_cov_layer b) as [cov|] eqn:Hlayer; [|discriminate].
    destruct Hcov as (_ & Hws & Hinit & Hcl).
    set (a := {| Laplace.arg_learning_phase := learning_phase;
                 Laplace.arg_inputs := f; Laplace.arg_logits := Some y;
                 Laplace.arg_training := training |}).
    change (Laplace.call learning_phase f (Some y) training cov)
      with (Laplace.call_with a cov).
    split.
    + intros Hpass.
      destruct (covariance_call_keeps _ a cov Hws) as (Hws' & Hinit' & Hself').
      assert (Hout : exists c, snd (Laplace.call_with a cov) = Ok c /\
                       shape c = (bs, bs) /\
                       (Laplace._get_training_value learning_phase training = true ->
                        c = eye bs)).
      { destruct (Laplace.is_training a) eqn:Htrain.
        - assert (Hfit : Laplace.logits_fit (Laplace.likelihood (Laplace.self cov))
                           (Laplace.arg_logits a) bs).
          { rewrite Hcl. destruct (Hlik Htrain eq_refl) as [Hg|Hu]; [now left|].
            right. exists y. split; [reflexivity|]. now rewrite Hys, Hu. }
          destruct (call_training_ok _ bs a cov Hws Htrain Hfs Hfit)
            as (updated & _ & ->).
          exists (eye bs). cbn. auto.
        - destruct (call_inference _ a cov Hws Htrain (Hpass Htrain cov eq_refl))
            as (C & HCs & _ & ->).
          destruct (compute_predictive_covariance_ok _ bs f
                      (Laplace.after_inference cov C (Laplace.if_update_covariance cov))
                      HCs Hfs) as (c & Hc & _ & Hcs).
          exists c. cbn [snd]. split; [exact Hc|]. split; [exact Hcs|].
          unfold Laplace.is_training in Htrain. cbn in Htrain.
          rewrite Htrain. discriminate. }
      destruct Hout as (c & Hc & Hcs & Hid).
      destruct (Laplace.call_with a cov) as [cov1 r]. cbn [fst snd] in *. subst r.
      eexists _, y, f, [c]. split; [reflexivity|].
      split; [|split; [exact Hys|split; [exact Hfs|]]].
      * unfold well_formed; cbn. rewrite Hret.
        destruct Hws' as (HP' & HC' & HI').
        repeat split; try assumption; congruence.
      * exists c. auto.
    + intros Htrain cov' Hcov' Hraises. injection Hcov' as <-.
      destruct (call_inference_raises _ a cov Hws Htrain Hraises) as (_ & ->).
      eexists. destruct b; cbn in *. subst. reflexivity.
  - split.
    + intros _. eexists _, y, f, []. split; [reflexivity|].
      split; [|split; [exact Hys|split; [exact Hfs|reflexivity]]].
      unfold well_formed; cbn. rewrite Hret.
      repeat split; assumption.
    + intros _ cov Hcov'. destruct (_gp_cov_layer b); [|discriminate].
      destruct Hcov as (Hc & _). congruence.
Qed.

(** X21.  With a likelihood other than the Gaussian and more or fewer than
    one unit, every training-mode call of a head with a covariance layer
    raises ValueError and leaves the head as it was: the logits handed to
    the covariance layer are the [units] columns of [gp_output]. *)
Theorem head_nongaussian_needs_one_unit (m bs : nat) (learning_phase : Z)
    (training : Laplace.training_arg) (inputs : matrix) (b : BuiltHead) :
  well_formed m b -> shape inputs = (bs, m) ->
  Laplace._get_training_value learning_phase training = true ->
  return_gp_cov (self b) = true ->
  gp_cov_likelihood (self b) <> "gaussian"%string ->
  units (self b) <> 1%nat ->
  exists msg,
    call learning_phase inputs training b
    = (b, HRaise (LayerError (ValueError msg))).
Proof.
  intros Hwf Hin Htrain Hret Hlik Hunits.
  destruct (compute_gp_feature_ok m bs b inputs Hwf Hin) as (f & Hf & Hfs).
  destruct (compute_gp_output_ok m bs b f Hwf Hfs) as (y & Hy & Hys).
  pose proof Hwf as (_ & _ & _ & _ & Hcov).
  unfold call. rewrite Hf, Hy, Hret.
  destruct (_gp_cov_layer b) as [cov|] eqn:Hlayer; [|congruence].
  destruct Hcov as (_ & _ & _ & Hcl).
  set (a := {| Laplace.arg_learning_phase := learning_phase;
               Laplace.arg_inputs := f; Laplace.arg_logits := Some y;
               Laplace.arg_training := training |}).
  change (Laplace.call learning_phase f (Some y) training cov)
    with (Laplace.call_with a cov).
  rewrite (call_training a cov Htrain).
  assert (Hup : exists msg,
            Laplace.update_feature_precision_matrix cov
              (Laplace.arg_inputs a) (Laplace.arg_logits a)
            = Raise (ValueError msg)).
  { unfold Laplace.update_feature_precision_matrix, Laplace.check_logits.
    rewrite Hcl.
    destruct (String.eqb_spec (gp_cov_likelihood (self b)) "gaussian");
      [contradiction|].
    cbn [negb Laplace.arg_logits a].
    unfold shape in Hys. injection Hys as _ Hyc. rewrite Hyc.
    destruct (Nat.eqb_spec (units (self b)) 1); [contradiction|].
    eexists; reflexivity. }
  destruct Hup as (msg & ->). exists msg.
  destruct b; cbn in *. subst. reflexivity.
Qed.


(** X23.  [reset_covariance_matrix] raises AttributeError on a head built
    without a covariance layer; with one, it returns and leaves the
    precision matrix of the covariance layer all zero. *)
Theorem head_reset (m : nat) (b : BuiltHead) :
  well_formed m b ->
  (return_gp_cov (self b) = false ->
   reset_covariance_matrix b = (b, HRaise (AttributeError "_gp_cov_layer"))) /\
  (return_gp_cov (self b) = true ->
   exists b' cov',
     reset_covariance_matrix b = (b', HOk tt) /\
     _gp_cov_layer b' = Some cov' /\
     Laplace.precision_matrix cov'
     = zeros (feature_dim (self b) (_random_feature b) m)
             (feature_dim (self b) (_random_feature b) m)).
Proof.
  intros (_ & _ & _ & _ & Hcov). unfold reset_covariance_matrix.
  destruct (_gp_cov_layer b) as [cov|].
  - destruct Hcov as (Hret & (HP & _ & HI) & Hinit & _).
    split; [congruence|]. intros _.
    unfold Laplace.reset_precision_matrix, Laplace.assign_precision_matrix.
    rewrite HI, HP, shape_eqb_refl. cbn.
    eexists _, _. split; [reflexivity|]. split; [reflexivity|].
    cbn. exact Hinit.
  - split; [reflexivity | congruence].
Qed.

(** X24.  When the input is normalised, a head with custom random features
    never uses its length scale: two heads that differ only in
    [gp_kernel_scale] return the same outputs and leave the same covariance
    layer. *)
Theorem head_ignores_kernel_scale (m : nat) (draws : head_draws)
    (learning_phase : Z) (training : Laplace.training_arg) (inputs : matrix)
    (b : BuiltHead) (scale1 scale2 : option R) :
  normalize_input (self b) = true ->
  use_custom_random_features (self b) = true ->
  _random_feature b = _make_random_feature_layer (self b) m draws ->
  snd (call learning_phase inputs training (with_kernel_scale b scale1))
  = snd (call learning_phase inputs training (with_kernel_scale b scale2)) /\
  _gp_cov_layer (fst (call learning_phase inputs training (with_kernel_scale b scale1)))
  = _gp_cov_layer (fst (call learning_phase inputs training (with_kernel_scale b scale2))).
Proof.
  intros Hnorm Hcustom Hlayer.
  assert (Hfeat : forall s,
            compute_gp_feature (with_kernel_scale b s) inputs
            = compute_gp_feature b inputs).
  { intros s. unfold compute_gp_feature.
    cbn [self with_kernel_scale normalize_input norm_input_dim _random_feature
         scale_random_features gp_feature_scale].
    rewrite Hnorm.
    destruct (input_norm_layer (norm_input_dim b) inputs) as [x|e];
      [|reflexivity].
    cbn [bind]. rewrite Hlayer. unfold _make_random_feature_layer.
    rewrite Hcustom. cbn [negb].
    destruct (String.eqb (lower (gp_kernel_type (self b))) "linear");
      reflexivity. }
  unfold call. rewrite !Hfeat.
  destruct (compute_gp_feature b inputs) as [f|e]; [|split; reflexivity].
  change (compute_gp_output (with_kernel_scale b scale1) f)
    with (compute_gp_output b f).
  change (compute_gp_output (with_kernel_scale b scale2) f)
    with (compute_gp_output b f).
  destruct (compute_gp_output b f) as [y|e]; [|split; reflexivity].
  cbn [self with_kernel_scale return_gp_cov return_random_features _gp_cov_layer].
  destruct (return_gp_cov (self b)).
  - destruct (_gp_cov_layer b) as [cov|]; [|split; reflexivity].
    destruct (Laplace.call learning_phase f (Some y) training cov) as [cov1 [c|e]];
      split; reflexivity.
  - split; reflexivity.
Qed.

End WithLayers.

(** X25.  With custom random features and a kernel type that reads "linear"
    in any case of the letters, [build] makes the random feature layer the
    identity: the output weights and the covariance layer are built for the
    width of the input, not for [num_inducing]. *)
Theorem head_linear_kernel (h : RandomFeatureGaussianProcess)
    (input_shape : list nat) (draws : head_draws) (b : BuiltHead) (m : nat) :
  Laplace.last_dim input_shape = Ok m ->
  build h input_shape draws = Ok b ->
  use_custom_random_features h = true ->
  lower (gp_kernel_type h) = "linear"%string ->
  _random_feature b = LambdaIdentity /\
  shape (gp_output_weights b) = (m, units h) /\
  forall cov, _gp_cov_layer b = Some cov ->
    shape (Laplace.precision_matrix cov) = (m, m) /\
    shape (Laplace.covariance_matrix cov) = (m, m).
Proof.
  intros Hm Hbuild Hcustom Hlinear.
  destruct (build_well_formed h input_shape draws b m Hm Hbuild)
    as (Hself & Hwf & Hlayer).
  assert (Hid : _random_feature b = LambdaIdentity).
  { rewrite Hlayer. unfold _make_random_feature_layer.
    now rewrite Hcustom, Hlinear. }
  destruct Hwf as (_ & _ & Hw & _ & Hcov).
  rewrite Hid, Hself in *. cbn [feature_dim] in *.
  split; [reflexivity|]. split; [exact Hw|].
  intros cov Hc. rewrite Hc in Hcov.
  destruct Hcov as (_ & (HP & HC & _) & _). auto.
Qed.

(** *** Witnesses *)

Lemma default_head_builds (likelihood0 : string) :
  In likelihood0 Laplace._SUPPORTED_LIKELIHOOD ->
  exists b,
    build (GPHeadExamples.default_head 10 4 likelihood0) [3; 2]%nat
      GPHeadExamples.zero_draws = Ok b /\
    self b = GPHeadExamples.default_head 10 4 likelihood0 /\
    well_formed 2 b /\
    _random_feature b
    = _make_random_feature_layer (GPHeadExamples.default_head 10 4 likelihood0)
        2 GPHeadExamples.zero_draws.
Proof.
  intros Hin.
  assert (Hb : exists b,
            build (GPHeadExamples.default_head 10 4 likelihood0) [3; 2]%nat
              GPHeadExamples.zero_draws = Ok b).
  { unfold build. cbn [Laplace.last_dim rev app bind GPHeadExamples.default_head
                       return_gp_cov gp_cov_likelihood].
    unfold Laplace.init. apply str_in_In in Hin. rewrite Hin. cbn.
    eexists; reflexivity. }
  destruct Hb as (b & Hb). exists b. split; [exact Hb|].
  exact (build_well_formed (GPHeadExamples.default_head 10 4 likelihood0)
           [3; 2]%nat GPHeadExamples.zero_draws b 2%nat eq_refl Hb).
Qed.

Lemma head_call_outputs_witness :
  exists b b' gp_output gp_feature c,
    build (GPHeadExamples.default_head 10 4 "gaussian") [3; 2]%nat
      GPHeadExamples.zero_draws = Ok b /\
    well_formed 2 b /\
    @call ZeroLayers.keras Diagonal.backend 0%Z GPHeadExamples.inputs_3x2
      (Laplace.TrainingBool false) b
    = (b', HOk [gp_output; c]) /\
    shape gp_output = (3, 10)%nat /\ shape gp_feature = (3, 4)%nat /\
    shape c = (3, 3)%nat.
Proof.
  destruct (default_head_builds "gaussian" ltac:(cbn; auto))
    as (b & Hb & Hself & Hwf & Hlayer).
  destruct (@head_call_outputs ZeroLayers.keras Diagonal.backend 2 3 0%Z
              (Laplace.TrainingBool false) GPHeadExamples.inputs_3x2 b
              Hwf eq_refl ltac:(cbn; discriminate))
    as (Hreturns & _).
  destruct Hreturns as (b' & y & f & covs & Hcall & _ & Hys & Hfs & Hcov).
  { intros _ cov Hcov. apply inversion_raises_flag.
    exact (build_flag_clear _ _ _ _ Hb cov Hcov). }
  rewrite Hself in Hcall, Hys, Hcov. rewrite Hlayer, Hself in Hfs.
  cbn in Hcall, Hys, Hfs, Hcov.
  destruct Hcov as (c & -> & Hcs & _).
  exists b, b', y, f, c.
  split; [exact Hb|]. split; [exact Hwf|]. split; [exact Hcall|].
  split; [exact Hys|]. split; [exact Hfs | exact Hcs].
Defined.

Lemma head_nongaussian_needs_one_unit_witness :
  exists b msg,
    build (GPHeadExamples.default_head 10 4 "poisson") [3; 2]%nat
      GPHeadExamples.zero_draws = Ok b /\
    well_formed 2 b /\
    @call ZeroLayers.keras Diagonal.backend 0%Z GPHeadExamples.inputs_3x2
      (Laplace.TrainingBool true) b
    = (b, HRaise (LayerError (ValueError msg))).
Proof.
  destruct (default_head_builds "poisson" ltac:(cbn; auto))
    as (b & Hb & Hself & Hwf & _).
  destruct (@head_nongaussian_needs_one_unit ZeroLayers.keras Diagonal.backend
              2 3 0%Z (Laplace.TrainingBool true) GPHeadExamples.inputs_3x2 b
              Hwf eq_refl eq_refl
              ltac:(rewrite Hself; reflexivity)
              ltac:(rewrite Hself; cbn; discriminate)
              ltac:(rewrite Hself; cbn; discriminate))
    as (msg & Hcall).
  exists b, msg. split; [exact Hb|]. split; [exact Hwf | exact Hcall].
Defined.


Lemma head_reset_witness :
  exists b b' cov',
    build (GPHeadExamples.default_head 10 4 "gaussian") [3; 2]%nat
      GPHeadExamples.zero_draws = Ok b /\
    well_formed 2 b /\
    reset_covariance_matrix b = (b', HOk tt) /\
    _gp_cov_layer b' = Some cov' /\
    Laplace.precision_matrix cov' = zeros 4 4.
Proof.
  destruct (default_head_builds "gaussian" ltac:(cbn; auto))
    as (b & Hb & Hself & Hwf & Hlayer).
  destruct (head_reset 2 b Hwf) as (_ & Hreset).
  destruct (Hreset ltac:(rewrite Hself; reflexivity))
    as (b' & cov' & Hr & Hc & Hzero).
  rewrite Hlayer, Hself in Hzero.
  exists b, b', cov'.
  split; [exact Hb|]. split; [exact Hwf|]. split; [exact Hr|].
  split; [exact Hc | exact Hzero].
Defined.

Lemma head_ignores_kernel_scale_witness :
  exists b,
    build (GPHeadExamples.default_head 10 4 "gaussian") [3; 2]%nat
      GPHeadExamples.zero_draws = Ok b /\
    normalize_input (self b) = true /\
    snd (@call ZeroLayers.keras Diagonal.backend 0%Z GPHeadExamples.inputs_3x2
           (Laplace.TrainingBool false) (with_kernel_scale b (Some 1)))
    = snd (@call ZeroLayers.keras Diagonal.backend 0%Z GPHeadExamples.inputs_3x2
             (Laplace.TrainingBool false) (with_kernel_scale b (Some 4))).
Proof.
  destruct (default_head_builds "gaussian" ltac:(cbn; auto))
    as (b & Hb & Hself & Hwf & Hlayer).
  exists b. split; [exact Hb|].
  assert (Hn : normalize_input (self b) = true) by (rewrite Hself; reflexivity).
  split; [exact Hn|].
  refine (proj1 (@head_ignores_kernel_scale ZeroLayers.keras Diagonal.backend
                   2 GPHeadExamples.zero_draws 0%Z (Laplace.TrainingBool false)
                   GPHeadExamples.inputs_3x2 b (Some 1) (Some 4) Hn _ _)).
  - rewrite Hself. reflexivity.
  - rewrite Hself. exact Hlayer.
Defined.

Lemma head_linear_kernel_witness :
  exists b,
    build GPHeadExamples.linear_head [3; 2]%nat GPHeadExamples.zero_draws = Ok b /\
    lower (gp_kernel_type GPHeadExamples.linear_head) = "linear"%string /\
    _random_feature b = LambdaIdentity /\
    shape (gp_output_weights b) = (2, 10)%nat.
Proof.
  assert (Hb : exists b,
            build GPHeadExamples.linear_head [3; 2]%nat GPHeadExamples.zero_draws
            = Ok b) by (eexists; reflexivity).
  destruct Hb as (b & Hb). exists b. split; [exact Hb|].
  split; [reflexivity|].
  destruct (head_linear_kernel GPHeadExamples.linear_head [3; 2]%nat
              GPHeadExamples.zero_draws b 2 eq_refl Hb eq_refl eq_refl)
    as (Hid & Hw & _).
  split; assumption.
Defined.

End GPHeadFacts.
